(** * Set-overlap similarity engine of [ssi/analysis/overlap.py]

    A shallow embedding of the overlap metrics and of the batch driver
    [calculate_overlap_for_stores], together with the properties the
    specification states about them.

    Modelling conventions.
    - A Python [set] is a finite set [gset K] over an arbitrary countable
      element type [K]; an argument that may be [None] is an [option].
    - [len] yields a Python [int], an unbounded integer: [Z].
    - A Python [float] is modelled by the exact rational it denotes, kept in
      lowest terms, so that Leibniz equality of two modelled floats is the
      numerical equality [==] of Python.  Rounding is outside this model;
      the properties proved on it are those that do not depend on rounding.
      The module [binary64] embeds the metrics once more, on doubles with
      the rounding of every operation, for the values that they return.
    - A raised exception is the [Raise] branch of [result].
    - The driver is embedded for columns whose values equal themselves, and
      once more, in the module [with_nan], for [float64] columns in which a
      cell may be NaN. *)

From Stdlib Require Import ZArith QArith Qreduction Qcanon Qminmax.
From Stdlib Require Import Qround Qabs Qpower.
From Stdlib Require Import Lia Ascii.
From stdpp Require Import base option list gmap sets strings.

Set Warnings "-clear-no-such-hyp".


(** ** Exceptions and results *)

Inductive exn : Type :=
  | ZeroDivisionError
  | KeyError (key : string)
  | IndexError
  | AttributeError
  | TypeError
  | OverflowError.

Inductive result (A : Type) : Type :=
  | Ok (a : A)
  | Raise (e : exn).
Arguments Ok {A} a.
Arguments Raise {A} e.

#[global] Instance result_ret : MRet result := λ A a, Ok a.
#[global] Instance result_bind : MBind result := λ A B f r,
  match r with
  | Ok a => f a
  | Raise e => Raise e
  end.
#[global] Instance result_fmap : FMap result := λ A B f r,
  match r with
  | Ok a => Ok (f a)
  | Raise e => Raise e
  end.

Definition is_Ok {A} (r : result A) : Prop := ∃ a, r = Ok a.

(** ** Floats and true division *)

Definition float : Type := Q.

Definition float_of_int (n : Z) : float := inject_Z n.

(** [x / y] on floats: raises [ZeroDivisionError] on a zero divisor.  The
    quotient is exact here; [binary64.float_truediv] rounds it. *)
Definition float_truediv (x y : float) : result float :=
  if Qeq_bool y 0%Q then Raise ZeroDivisionError else Ok (Qred (x / y)%Q).

(** [n / d] on ints: both operands are converted to float first. *)
Definition int_truediv (n d : Z) : result float :=
  float_truediv (float_of_int n) (float_of_int d).

(** [x * y] on floats, exact here; [binary64.float_mul] rounds it. *)
Definition float_mul (x y : float) : float := Qred (x * y)%Q.

(** [returns r q]: the computation [r] returns a float that is numerically [q]. *)
Definition returns (r : result float) (q : Q) : Prop :=
  ∃ v, r = Ok v ∧ (v == q)%Q.

(** ** The metrics *)

Section metrics.
Context `{Countable K}.

(** A set argument, possibly [None]. *)
Definition pyset : Type := option (gset K).

Definition len (s : gset K) : Z := Z.of_nat (size s).

(** Truth value of [not s]: [None] and the empty set are falsy. *)
Definition py_not (s : pyset) : bool :=
  match s with
  | None => true
  | Some x => bool_decide (len x = 0%Z)
  end.

Definition handle_missing_sets (left_set right_set : pyset)
  : gset K * gset K :=
  (if py_not left_set then ∅ else default ∅ left_set,
   if py_not right_set then ∅ else default ∅ right_set).

Definition __handle_zero_length_sets
    (left_set right_set : pyset)
    (overlap_function : gset K → gset K → result float)
    (default_exact_match default_empty_match : float) : result float :=
  let '(left_set, right_set) := handle_missing_sets left_set right_set in
  if bool_decide (len left_set = 0%Z) && bool_decide (len right_set = 0%Z)
  then Ok default_exact_match
  else if bool_decide (left_set = right_set)
  then Ok default_exact_match
  else if bool_decide (len left_set = 0%Z) || bool_decide (len right_set = 0%Z)
  then Ok default_empty_match
  else overlap_function left_set right_set.

(** The keyword defaults of [__handle_zero_length_sets]. *)
Definition default_exact_match : float := 1%Q.
Definition default_empty_match : float := 0%Q.

Definition jaccard_similarity_core (left_set right_set : gset K)
  : result float :=
  int_truediv (len (left_set ∩ right_set)) (len (left_set ∪ right_set)).

Definition jaccard_similarity (left_set right_set : pyset) : result float :=
  __handle_zero_length_sets left_set right_set jaccard_similarity_core
    default_exact_match default_empty_match.

Definition jaccard_index_core (left_set right_set : gset K)
  : result float :=
  let intersection := len (left_set ∩ right_set) in
  let union := (len left_set + len right_set - intersection)%Z in
  int_truediv intersection union.

Definition jaccard_index (left_set right_set : pyset) : result float :=
  __handle_zero_length_sets left_set right_set jaccard_index_core
    default_exact_match default_empty_match.

Definition dice_coefficient_core (left_set right_set : gset K)
  : result float :=
  let intersection := len (left_set ∩ right_set) in
  float_truediv (float_mul 2%Q (float_of_int intersection))
                (float_of_int (len left_set + len right_set)%Z).

Definition dice_coefficient (left_set right_set : pyset) : result float :=
  __handle_zero_length_sets left_set right_set dice_coefficient_core
    default_exact_match default_empty_match.

Definition overlap_coefficient_core (left_set right_set : gset K)
  : result float :=
  let intersection := len (left_set ∩ right_set) in
  let min_length := Z.min (len left_set) (len right_set) in
  int_truediv intersection min_length.

Definition overlap_coefficient (left_set right_set : pyset) : result float :=
  __handle_zero_length_sets left_set right_set overlap_coefficient_core
    default_exact_match default_empty_match.

Definition percentage_overlap_core (left_set right_set : gset K)
  : result float :=
  let intersection := len (left_set ∩ right_set) in
  int_truediv intersection (len left_set + len right_set)%Z.

(** The dispatch result, whichever branch produced it, is multiplied by 100. *)
Definition percentage_overlap (left_set right_set : pyset) : result float :=
  v ← __handle_zero_length_sets left_set right_set percentage_overlap_core
        default_exact_match default_empty_match;
  Ok (float_mul v (float_of_int 100)).

(** No dispatch here: [None.intersection] is an [AttributeError],
    [s.intersection(None)] a [TypeError], and an empty left set divides
    by zero. *)
Definition asymmetrical_overlap (left_set right_set : pyset) : result float :=
  match left_set with
  | None => Raise AttributeError
  | Some left_set =>
      match right_set with
      | None => Raise TypeError
      | Some right_set =>
          let overlap := left_set ∩ right_set in
          int_truediv (len overlap) (len left_set)
      end
  end.

(** [dispatch_policy metric core scale]: on inputs normalised to the sets
    [A] and [B], [metric] answers by the zero-length dispatch, its answer
    passed through [scale]: the default exact-match value when both are
    empty and when they are equal, the default empty-match value when
    exactly one is empty, and the core formula otherwise. *)
Definition dispatch_policy
    (metric : pyset → pyset → result float)
    (core : gset K → gset K → result float)
    (scale : float → float) : Prop :=
  ∀ l r : pyset,
    let A := default ∅ l in
    let B := default ∅ r in
    (A = ∅ → B = ∅ → metric l r = Ok (scale default_exact_match)) ∧
    (A = B → metric l r = Ok (scale default_exact_match)) ∧
    (A ≠ B → A = ∅ ∨ B = ∅ → metric l r = Ok (scale default_empty_match)) ∧
    (A ≠ ∅ → B ≠ ∅ → A ≠ B → metric l r = scale <$> core A B).

(** The scaling of [percentage_overlap]. *)
Definition times_100 (v : float) : float := float_mul v (float_of_int 100).

End metrics.

Arguments pyset K {_ _}.

(** ** Data frames, arrays and the progress bar *)

(** [l[i]] on a Python list or a NumPy array: out of range raises. *)
Definition list_getitem {A} (l : list A) (i : nat) : result A :=
  match l !! i with
  | Some x => Ok x
  | None => Raise IndexError
  end.

(** [range(start, stop)]. *)
Definition range (start stop : nat) : list nat := seq start (stop - start).

(** A [for] loop whose body may raise, threading the mutated state. *)
Fixpoint for_each {S A} (l : list A) (body : A → S → result S) (s : S)
  : result S :=
  match l with
  | [] => Ok s
  | x :: l => s' ← body x s; for_each l body s'
  end.

(** [[f(x) for x in l]] where [f] may raise. *)
Fixpoint list_comprehension {A B} (f : A → result B) (l : list A)
  : result (list B) :=
  match l with
  | [] => Ok []
  | x :: l => y ← f x; ys ← list_comprehension f l; Ok (y :: ys)
  end.

(** A two-dimensional [float64] array, row by row. *)
Abbreviation matrix := (list (list float)).

(** [np.empty((rows, cols))]: the cells hold whatever the memory held,
    here the arbitrary [garbage]. *)
Definition np_empty (garbage : nat → nat → float) (rows cols : nat) : matrix :=
  (λ i, garbage i <$> seq 0 cols) <$> seq 0 rows.

(** [m[i, j] = v]. *)
Definition matrix_setitem (m : matrix) (i j : nat) (v : float)
  : result matrix :=
  row ← list_getitem m i;
  if decide (j < length row) then Ok (<[i := <[j := v]> row]> m)
  else Raise IndexError.

(** [m[i, j]], when in range. *)
Definition matrix_get (m : matrix) (i j : nat) : option float :=
  row ← m !! i; row !! j.

(** The values of one column. *)
Abbreviation Series K := (list K).

(** An input data frame, by column name.  In a well-formed frame all
    columns have the same number of rows. *)
Abbreviation DataFrame K := (gmap string (list K)).

Section driver.
Context `{Countable K}.

Definition DataFrame_wf (df : DataFrame K) (rows : nat) : Prop :=
  ∀ column s, df !! column = Some s → length s = rows.

(** [df[column]]. *)
Definition getitem (df : DataFrame K) (column : string) : result (Series K) :=
  match df !! column with
  | Some s => Ok s
  | None => Raise (KeyError column)
  end.

(** The frame built by [pd.DataFrame(values, columns=..., index=...)]. *)
Record MatrixFrame : Type := {
  values : matrix;
  columns : list K;
  index : list K
}.

(** The observable state of a [tqdm] bar: the two store names of its
    description and its counter. *)
Record tqdm : Type := {
  description : option (K * K);
  n : nat
}.

Definition set_description (bar : tqdm) (names : K * K) : tqdm :=
  {| description := Some names; n := n bar |}.

Definition update (bar : tqdm) (k : nat) : tqdm :=
  {| description := description bar; n := n bar + k |}.

(** [store[store_id_column].values[0]]. *)
Definition store_name (store_id_column : string) (store : DataFrame K)
  : result K :=
  column ← getitem store store_id_column;
  list_getitem column 0.

(** The body of the inner loop of [calculate_overlap_for_stores], for
    columns whose values equal themselves (ints, strings, floats other than
    NaN): [set(series.values)] is the set of the values. *)
Definition overlap_cell
    (store_data : list (DataFrame K)) (product_id_column : string)
    (overlap_function : pyset K → pyset K → result float)
    (preprocess_function : Series K → Series K)
    (store_names : list K) (row_index column_index : nat)
    (st : matrix * option tqdm) : result (matrix * option tqdm) :=
  let '(store_overlap, progress_bar) := st in
  progress_bar ←
    match progress_bar return result (option tqdm) with
    | Some bar =>
        store_name1 ← list_getitem store_names row_index;
        store_name2 ← list_getitem store_names column_index;
        Ok (Some (set_description bar (store_name1, store_name2)))
    | None => Ok None
    end;
  store1 ← list_getitem store_data row_index;
  store2 ← list_getitem store_data column_index;
  column1 ← getitem store1 product_id_column;
  let store1_set : gset K := list_to_set (preprocess_function column1) in
  column2 ← getitem store2 product_id_column;
  let store2_set : gset K := list_to_set (preprocess_function column2) in
  overlap ← overlap_function (Some store1_set) (Some store2_set);
  store_overlap ← matrix_setitem store_overlap row_index column_index overlap;
  store_overlap ← matrix_setitem store_overlap column_index row_index overlap;
  Ok (store_overlap,
      match progress_bar with
      | Some bar => Some (update bar 1)
      | None => None
      end).

(** Returns the frame together with the state in which the caller's
    progress bar is left. *)
Definition calculate_overlap_for_stores
    (garbage : nat → nat → float)
    (store_data : list (DataFrame K))
    (store_id_column product_id_column : string)
    (overlap_function : pyset K → pyset K → result float)
    (preprocess_function : Series K → Series K)
    (progress_bar : option tqdm)
    (calculate_all_cells : bool) : result (MatrixFrame * option tqdm) :=
  let number_of_stores := length store_data in
  store_names ← list_comprehension (store_name store_id_column) store_data;
  let store_overlap := np_empty garbage number_of_stores number_of_stores in
  st ← for_each (range 0 (length store_data))
         (λ row_index st,
            let column_start_index :=
              if negb calculate_all_cells then row_index else 0 in
            for_each (range column_start_index (length store_data))
              (overlap_cell store_data product_id_column overlap_function
                 preprocess_function store_names row_index) st)
         (store_overlap, progress_bar);
  Ok ({| values := st.1; columns := store_names; index := store_names |},
      st.2).

(** The default [preprocess_function], [lambda series: series]. *)
Definition default_preprocess_function (series : Series K) : Series K := series.

End driver.

Arguments MatrixFrame K : clear implicits.
Arguments tqdm K : clear implicits.

(** ** Pure views of the driver

    The definitions below are not in the source: they name what the loops
    of [calculate_overlap_for_stores] compute, so that its properties can be
    stated. *)

(** An [n × n] array. *)
Definition square (n : nat) (m : matrix) : Prop :=
  length m = n ∧ ∀ i row, m !! i = Some row → length row = n.

(** The array after [m[i, j] = v]. *)
Definition matrix_set (m : matrix) (i j : nat) (v : float) : matrix :=
  alter (<[j := v]>) i m.

(** The array after [m[i, j] = v; m[j, i] = v]. *)
Definition mirror_write (m : matrix) (i j : nat) (v : float) : matrix :=
  matrix_set (matrix_set m i j v) j i v.

(** The cells that the iteration for the pair [p] writes. *)
Definition touches (p : nat * nat) (a b : nat) : bool :=
  bool_decide (p = (a, b) ∨ p = (b, a)).

(** The last pair of [ps] whose iteration writes cell [(a, b)]. *)
Fixpoint last_write (ps : list (nat * nat)) (a b : nat) : option (nat * nat) :=
  match ps with
  | [] => None
  | p :: ps =>
      match last_write ps a b with
      | Some q => Some q
      | None => if touches p a b then Some p else None
      end
  end.

(** The index pairs in the order in which the two nested loops visit them. *)
Definition row_cells (calculate_all_cells : bool) (n row_index : nat)
  : list (nat * nat) :=
  (λ column_index, (row_index, column_index)) <$>
    range (if negb calculate_all_cells then row_index else 0) n.

Definition cell_order (calculate_all_cells : bool) (n : nat)
  : list (nat * nat) :=
  range 0 n ≫= row_cells calculate_all_cells n.

Section fill.
Variable cell : nat → nat → result float.

(** The first exception raised when the cells are computed in order. *)
Fixpoint first_raise (ps : list (nat * nat)) : option exn :=
  match ps with
  | [] => None
  | p :: ps =>
      match cell p.1 p.2 with
      | Raise e => Some e
      | Ok _ => first_raise ps
      end
  end.

Definition cell_value (i j : nat) : float :=
  match cell i j with
  | Ok v => v
  | Raise _ => 0%Q
  end.

(** One iteration, on the array alone. *)
Definition fill_step (p : nat * nat) (m : matrix) : result matrix :=
  v ← cell p.1 p.2; Ok (mirror_write m p.1 p.2 v).

(** The array when no iteration raises. *)
Definition fill_pure (ps : list (nat * nat)) (m : matrix) : matrix :=
  foldl (λ m p, mirror_write m p.1 p.2 (cell_value p.1 p.2)) m ps.

End fill.

Section driver_views.
Context `{Countable K}.

(** What one iteration passes to and gets from [overlap_function]. *)
Definition pair_overlap
    (store_data : list (DataFrame K)) (product_id_column : string)
    (overlap_function : pyset K → pyset K → result float)
    (preprocess_function : Series K → Series K)
    (row_index column_index : nat) : result float :=
  store1 ← list_getitem store_data row_index;
  store2 ← list_getitem store_data column_index;
  column1 ← getitem store1 product_id_column;
  column2 ← getitem store2 product_id_column;
  overlap_function (Some (list_to_set (preprocess_function column1)))
                   (Some (list_to_set (preprocess_function column2))).

(** The set of a store whose product column is present. *)
Definition store_set (product_id_column : string)
    (preprocess_function : Series K → Series K) (store : DataFrame K)
  : gset K :=
  list_to_set (preprocess_function (default [] (store !! product_id_column))).

(** The frame alone, without the progress bar. *)
Definition overlap_frame (r : result (MatrixFrame K * option (tqdm K)))
  : result (MatrixFrame K) := fst <$> r.

(** Every store has a store-id column with a first row and a product
    column. *)
Definition readable_stores (store_data : list (DataFrame K))
    (store_id_column product_id_column : string) : Prop :=
  ∀ store, store ∈ store_data →
    is_Ok (store_name store_id_column store) ∧
    is_Some (store !! product_id_column).

End driver_views.

Definition s123 : gset Z := {[1%Z; 2%Z; 3%Z]}.
Definition s234 : gset Z := {[2%Z; 3%Z; 4%Z]}.
Definition s23 : gset Z := {[2%Z; 3%Z]}.

(** A store frame with a store-id column ["store"] and a product column
    ["ean"], one row per product. *)
Definition mkstore (name : Z) (products : list Z) : DataFrame Z :=
  {[ "store" := (λ _, name) <$> products; "ean" := products ]}.

Definition stores3 : list (DataFrame Z) :=
  [mkstore 10 [1; 2; 3]; mkstore 20 [2; 3; 4]; mkstore 30 [2; 3]]%Z.

(** A preprocessing function that keeps the products above 2. *)
Definition above_2 (series : Series Z) : Series Z :=
  filter (λ x, 2 < x)%Z series.

(** A store frame that has rows but no product column. *)
Definition store_without_ean : DataFrame Z := {[ "store" := [40%Z] ]}.


(** ** Strings

    A Python [str] is a sequence of characters.  The functions below are
    those of the [str] type that the code calls. *)

Section strings.
Context {C : Type} `{EqDecision C}.

(** [s.startswith(p)], [s.endswith(p)] and [p in s]. *)
Definition startswith (s p : list C) : bool := bool_decide (p `prefix_of` s).

Definition endswith (s p : list C) : bool := bool_decide (p `suffix_of` s).

Fixpoint str_contains (s p : list C) : bool :=
  bool_decide (p `prefix_of` s) ||
  match s with
  | [] => false
  | _ :: s' => str_contains s' p
  end.

(** [s.split(sep)] for a separator [sep] of one character. *)
Fixpoint str_split (sep : C) (s : list C) : list (list C) :=
  match s with
  | [] => [[]]
  | c :: s =>
      let pieces := str_split sep s in
      if decide (c = sep) then [] :: pieces
      else match pieces with
           | piece :: pieces => (c :: piece) :: pieces
           | [] => [[c]]
           end
  end.

(** [sep.join(pieces)]. *)
Fixpoint str_join (sep : C) (pieces : list (list C)) : list C :=
  match pieces with
  | [] => []
  | piece :: pieces =>
      match pieces with
      | [] => piece
      | _ :: _ => piece ++ sep :: str_join sep pieces
      end
  end.

(** The number of occurrences of a character. *)
Definition str_count (sep : C) (s : list C) : nat :=
  length (filter (λ c, c = sep) s).

End strings.

(** ** Preprocessing functions of [ssi/analysis/overlap.py]

    A cell of a string column is a string or a missing value ([None]).
    [Series.str.split] with a separator of one character splits each string
    as [str.split] does and leaves a missing value as it is;
    [Series.explode] turns a list cell into one row per element and an
    empty list into one missing value. *)

Section preprocessing.
Context {C : Type} `{EqDecision C}.

(** [Series.explode()] on a column of lists and missing values. *)
Definition explode {T} (column : list (option (list T))) : list (option T) :=
  column ≫= λ cell,
    match cell with
    | None => [None]
    | Some [] => [None]
    | Some (x :: xs) => Some <$> (x :: xs)
    end.

Definition split_strings (string_column : list (option (list C)))
    (separator : C) : list (option (list C)) :=
  explode ((λ cell : option (list C), str_split separator <$> cell)
             <$> string_column).

(** [string_column] holds strings; the tokenizer is applied to each. *)
Definition tokenize_strings {T} (string_column : list (list C))
    (tokenizer : list C → list T) : list (option T) :=
  explode ((λ text, Some (tokenizer text)) <$> string_column).

End preprocessing.

(** ** File names ([ssi/files.py]) and keyword arguments
    ([ssi/machine_learning/trainer.py]) *)

(** [c.lower()] on an ASCII character. *)
Definition ascii_lower (c : ascii) : ascii :=
  let k := nat_of_ascii c in
  if (65 <=? k) && (k <=? 90) then ascii_of_nat (k + 32) else c.

(** [s.lower()] on an ASCII string. *)
Definition str_lower (s : list ascii) : list ascii := ascii_lower <$> s.

(** A string literal. *)
Abbreviation str s := (String.list_ascii_of_string s).

Definition get_feature_filename
    (feature_extractor_type supermarket_name : list ascii)
    (project_prefix feature_file_suffix : list ascii) : list ascii :=
  project_prefix ++ str "_" ++ str_lower supermarket_name ++ str "_" ++
  feature_extractor_type ++ str "_" ++ feature_file_suffix ++ str ".parquet".

(** [listdir] stands for [os.listdir]. *)
Definition get_features_files_in_directory
    (listdir : list ascii → list (list ascii)) (directory : list ascii)
    (project_prefix feature_file_suffix extension : list ascii)
  : list (list ascii) :=
  filter (λ filename,
            startswith filename (project_prefix ++ str "_") &&
            str_contains filename (str "_" ++ feature_file_suffix) &&
            endswith filename extension)
         (listdir directory).

(** The keyword defaults of the two functions. *)
Definition default_project_prefix : list ascii := str "ssi".
Definition default_feature_file_suffix : list ascii := str "features".
Definition default_extension : list ascii := str ".parquet".

(** [ModelTrainer.get_kwargs_with_prefix]: the keyword arguments as a
    dictionary from names to values. *)
Definition get_kwargs_with_prefix {V} (prefix : list ascii)
    (kwargs : gmap (list ascii) V) : gmap (list ascii) V :=
  filter (λ item, startswith item.1 prefix = true) kwargs.

(** ** Batched writing ([ssi/files.py]) *)

(** What [batched_writer] can raise: [ValueError], from [range] with a zero
    step and from [ParquetWriter.write_table] given a table of another
    schema than the writer's, besides the exceptions of [exn]. *)
Inductive files_exn : Type :=
  | ValueError
  | Builtin (e : exn).

(** [range(0, stop, step)] for a length [stop]. *)
Definition range_from_0 (stop : nat) (step : Z) : files_exn + list nat :=
  if decide (step = 0)%Z then inl ValueError
  else if decide (step < 0)%Z then inr []
  else inr ((λ k, k * Z.to_nat step)
              <$> seq 0 ((stop + Z.to_nat step - 1) / Z.to_nat step)).

(** The state of a [tqdm(total=...)] bar: its total and its counter. *)
Record progress : Type := {
  bar_total : nat;
  bar_n : Z
}.

(** [bool(bar)] for a bar with a total, and [bar.update(k)]. *)
Definition progress_bool (bar : progress) : bool :=
  bool_decide (0 < bar_total bar).

Definition progress_update (bar : progress) (k : Z) : progress :=
  {| bar_total := bar_total bar; bar_n := bar_n bar + k |}.

Section batched_writer.
Context {R T S : Type} `{EqDecision S}.

(** [table.schema] of the table made from a processed batch. *)
Variable schema : T → S.

(** A [ParquetWriter] with the file it writes: the schema it was opened
    with, the tables written so far, and whether it was closed. *)
Record ParquetWriter : Type := {
  writer_schema : S;
  tables : list T;
  is_closed : bool
}.

Definition write_table (writer : ParquetWriter) (table : T)
  : files_exn + ParquetWriter :=
  if decide (schema table = writer_schema writer)
  then inr {| writer_schema := writer_schema writer;
              tables := tables writer ++ [table];
              is_closed := is_closed writer |}
  else inl ValueError.

Definition close (writer : ParquetWriter) : ParquetWriter :=
  {| writer_schema := writer_schema writer;
     tables := tables writer;
     is_closed := true |}.

(** The variables of [batched_writer] that its loop changes. *)
Record writer_state : Type := {
  st_writer : option ParquetWriter;
  st_bar : progress
}.

(** [dataframe.iloc[i:i+batch_size]] for [i] and [batch_size] not negative. *)
Definition iloc_slice (dataframe : list R) (i : nat) (batch_size : Z)
  : list R :=
  take (Z.to_nat batch_size) (drop i dataframe).

(** One iteration of the loop: the state it leaves and what it raised. *)
Definition write_batch (dataframe : list R) (batch_size : Z)
    (process_batch : list R → progress → T * progress)
    (i : nat) (st : writer_state) : writer_state * option files_exn :=
  let batch_df := iloc_slice dataframe i batch_size in
  let processed := process_batch batch_df (st_bar st) in
  let table := processed.1 in
  let progress_bar := processed.2 in
  let pq_writer :=
    if decide (i = 0)
    then Some {| writer_schema := schema table; tables := [];
                 is_closed := false |}
    else st_writer st in
  match pq_writer with
  | None =>
      ({| st_writer := None; st_bar := progress_bar |},
       Some (Builtin AttributeError))
  | Some writer =>
      match write_table writer table with
      | inl e => ({| st_writer := Some writer; st_bar := progress_bar |}, Some e)
      | inr writer =>
          ({| st_writer := Some writer;
              st_bar := if negb (progress_bool progress_bar)
                        then progress_bar
                        else progress_update progress_bar batch_size |},
           None)
      end
  end.

Fixpoint write_batches (dataframe : list R) (batch_size : Z)
    (process_batch : list R → progress → T * progress)
    (indices : list nat) (st : writer_state)
  : writer_state * option files_exn :=
  match indices with
  | [] => (st, None)
  | i :: indices =>
      match write_batch dataframe batch_size process_batch i st with
      | (st, Some e) => (st, Some e)
      | (st, None) =>
          write_batches dataframe batch_size process_batch indices st
      end
  end.

(** The state in which [batched_writer] leaves the writer and the bar, and
    the exception it raised, if any. *)
Definition batched_writer (dataframe : list R) (batch_size : Z)
    (process_batch : list R → progress → T * progress)
  : writer_state * option files_exn :=
  let st := {| st_writer := None;
               st_bar := {| bar_total := length dataframe; bar_n := 0 |} |} in
  match range_from_0 (length dataframe) batch_size with
  | inl e => (st, Some e)
  | inr indices =>
      match write_batches dataframe batch_size process_batch indices st with
      | (st, Some e) => (st, Some e)
      | (st, None) =>
          ({| st_writer := close <$> st_writer st; st_bar := st_bar st |},
           None)
      end
  end.

(** The batches that the loop hands to [process_batch] (a view used to
    state its properties). *)
Definition batches (dataframe : list R) (batch_size : Z) : list (list R) :=
  match range_from_0 (length dataframe) batch_size with
  | inl _ => []
  | inr indices => (λ i, iloc_slice dataframe i batch_size) <$> indices
  end.

End batched_writer.

Arguments ParquetWriter T S : clear implicits.
Arguments writer_state T S : clear implicits.

(** ** The metrics on doubles

    The metrics above compute on exact rationals.  The module below embeds
    the same source lines with the arithmetic that CPython performs on
    IEEE 754 binary64 numbers: each operation yields the double nearest to
    its exact result, ties going to the even significand. *)

Module binary64.

(** A double.  A finite one is given by the rational it denotes, in lowest
    terms; the two zeros are one value, as they are for [==]. *)
Inductive float64 : Type :=
  | Finite (q : Q)
  | Infinity (negative : bool)
  | NaN.

(** [ilog2 q] is the integer [e] with [2^e <= |q| < 2^(e+1)], for [q] other
    than zero. *)
Definition ilog2 (q : Q) : Z :=
  let e := (Z.log2 (Z.abs (Qnum q)) - Z.log2 (Z.pos (Qden q)))%Z in
  if Qle_bool (2 ^ e) (Qabs q) then e else (e - 1)%Z.

(** The integer nearest to [q], the even one of two that are equally near. *)
Definition round_half_even (q : Q) : Z :=
  let f := Qfloor q in
  match (q - inject_Z f ?= 1 # 2)%Q with
  | Lt => f
  | Gt => (f + 1)%Z
  | Eq => if Z.even f then f else (f + 1)%Z
  end.

(** The double nearest to [q]: a multiple of [2^e], where [e] leaves 53
    bits to the significand and is at least -1074, the exponent of the
    smallest subnormal; an infinity from [2^1024] on. *)
Definition round (q : Q) : float64 :=
  if Qeq_bool q 0 then Finite 0
  else
    let e := Z.max (ilog2 q - 52) (-1074) in
    let v := (inject_Z (round_half_even (q / 2 ^ e)) * 2 ^ e)%Q in
    if Qle_bool (2 ^ 1024) (Qabs v) then Infinity (Qnum q <? 0)%Z
    else Finite (Qred v).

(** [float(n)] for an int [n], as the arithmetic operators convert an int
    operand: too large an int raises [OverflowError]. *)
Definition float_of_int (n : Z) : result float64 :=
  match round (inject_Z n) with
  | Finite q => Ok (Finite q)
  | _ => Raise OverflowError
  end.

(** [n / d] on ints: the double nearest to the exact quotient. *)
Definition int_truediv (n d : Z) : result float64 :=
  if decide (d = 0)%Z then Raise ZeroDivisionError
  else match round (inject_Z n / inject_Z d) with
       | Finite q => Ok (Finite q)
       | _ => Raise OverflowError
       end.

Definition negative (q : Q) : bool := (Qnum q <? 0)%Z.

(** [x * y] on floats: never raises. *)
Definition float_mul (x y : float64) : float64 :=
  match x, y with
  | NaN, _ | _, NaN => NaN
  | Finite a, Finite b => round (a * b)
  | Finite a, Infinity s | Infinity s, Finite a =>
      if Qeq_bool a 0 then NaN else Infinity (xorb s (negative a))
  | Infinity s, Infinity t => Infinity (xorb s t)
  end.

(** [x / y] on floats: a zero divisor raises. *)
Definition float_truediv (x y : float64) : result float64 :=
  match y with
  | Finite b =>
      if Qeq_bool b 0 then Raise ZeroDivisionError
      else Ok match x with
              | Finite a => round (a / b)
              | Infinity s => Infinity (xorb s (negative b))
              | NaN => NaN
              end
  | Infinity _ =>
      Ok match x with
         | Finite _ => Finite 0
         | _ => NaN
         end
  | NaN => Ok NaN
  end.

Section metrics.
Context `{Countable K}.

Definition __handle_zero_length_sets
    (left_set right_set : pyset K)
    (overlap_function : gset K → gset K → result float64)
    (default_exact_match default_empty_match : float64) : result float64 :=
  let '(left_set, right_set) := handle_missing_sets left_set right_set in
  if bool_decide (len left_set = 0%Z) && bool_decide (len right_set = 0%Z)
  then Ok default_exact_match
  else if bool_decide (left_set = right_set)
  then Ok default_exact_match
  else if bool_decide (len left_set = 0%Z) || bool_decide (len right_set = 0%Z)
  then Ok default_empty_match
  else overlap_function left_set right_set.

Definition default_exact_match : float64 := Finite 1.
Definition default_empty_match : float64 := Finite 0.

Definition jaccard_similarity_core (left_set right_set : gset K)
  : result float64 :=
  int_truediv (len (left_set ∩ right_set)) (len (left_set ∪ right_set)).

Definition jaccard_similarity (left_set right_set : pyset K)
  : result float64 :=
  __handle_zero_length_sets left_set right_set jaccard_similarity_core
    default_exact_match default_empty_match.

(** [2. * intersection / (len(left_set) + len(right_set))]: the float [2.]
    times the int, then a float divided by an int. *)
Definition dice_coefficient_core (left_set right_set : gset K)
  : result float64 :=
  let intersection := len (left_set ∩ right_set) in
  numerator ← float_mul (Finite 2) <$> float_of_int intersection;
  divisor ← float_of_int (len left_set + len right_set)%Z;
  float_truediv numerator divisor.

Definition dice_coefficient (left_set right_set : pyset K)
  : result float64 :=
  __handle_zero_length_sets left_set right_set dice_coefficient_core
    default_exact_match default_empty_match.

Definition overlap_coefficient_core (left_set right_set : gset K)
  : result float64 :=
  let intersection := len (left_set ∩ right_set) in
  let min_length := Z.min (len left_set) (len right_set) in
  int_truediv intersection min_length.

Definition overlap_coefficient (left_set right_set : pyset K)
  : result float64 :=
  __handle_zero_length_sets left_set right_set overlap_coefficient_core
    default_exact_match default_empty_match.

Definition percentage_overlap_core (left_set right_set : gset K)
  : result float64 :=
  let intersection := len (left_set ∩ right_set) in
  int_truediv intersection (len left_set + len right_set)%Z.

(** The dispatch result times the int [100], which is converted to the
    float [100.0]. *)
Definition percentage_overlap (left_set right_set : pyset K)
  : result float64 :=
  v ← __handle_zero_length_sets left_set right_set percentage_overlap_core
        default_exact_match default_empty_match;
  Ok (float_mul v (Finite 100)).

End metrics.

End binary64.

(** ** The driver on [float64] columns that hold NaN

    [calculate_overlap_for_stores] above takes columns whose values equal
    themselves, where [set(series.values)] holds each value once: int
    columns, object columns and float columns without NaN.  In a [float64]
    column a cell may be NaN.  Iterating over [series.values] makes a new
    scalar object for every cell, and a NaN object equals no object but
    itself: [set(series.values)] holds one element for each NaN cell, and
    the NaN elements of two such sets are never the same. *)

Module with_nan.

Section driver.
Context `{Countable K}.

(** An element of [set(series.values)]: a number, or the NaN object made
    for the cell at [position] when the set of the left ([false]) or of the
    right ([true]) operand of [overlap_function] was built.  The sets of
    different iterations never meet. *)
Inductive scalar : Type :=
  | Number (k : K)
  | NaNObject (operand : bool) (position : nat).

#[global] Instance scalar_eq_dec : EqDecision scalar.
Proof. solve_decision. Defined.

#[global] Instance scalar_countable : Countable scalar.
Proof.
  refine (inj_countable'
            (λ x, match x with
                  | Number k => inl k
                  | NaNObject operand position => inr (operand, position)
                  end)
            (λ y, match y with
                  | inl k => Number k
                  | inr (operand, position) => NaNObject operand position
                  end) _).
  by intros [].
Defined.

(** The objects that iterating over [series.values] yields; a cell is a
    number or NaN ([None]). *)
Definition values_objects (operand : bool) (series : Series (option K))
  : list scalar :=
  imap (λ position cell,
          match cell with
          | Some k => Number k
          | None => NaNObject operand position
          end) series.

(** The body of the inner loop of [calculate_overlap_for_stores]. *)
Definition overlap_cell
    (store_data : list (DataFrame (option K))) (product_id_column : string)
    (overlap_function : pyset scalar → pyset scalar → result float)
    (preprocess_function : Series (option K) → Series (option K))
    (store_names : list (option K)) (row_index column_index : nat)
    (st : matrix * option (tqdm (option K)))
  : result (matrix * option (tqdm (option K))) :=
  let '(store_overlap, progress_bar) := st in
  progress_bar ←
    match progress_bar return result (option (tqdm (option K))) with
    | Some bar =>
        store_name1 ← list_getitem store_names row_index;
        store_name2 ← list_getitem store_names column_index;
        Ok (Some (set_description bar (store_name1, store_name2)))
    | None => Ok None
    end;
  store1 ← list_getitem store_data row_index;
  store2 ← list_getitem store_data column_index;
  column1 ← getitem store1 product_id_column;
  let store1_set : gset scalar :=
    list_to_set (values_objects false (preprocess_function column1)) in
  column2 ← getitem store2 product_id_column;
  let store2_set : gset scalar :=
    list_to_set (values_objects true (preprocess_function column2)) in
  overlap ← overlap_function (Some store1_set) (Some store2_set);
  store_overlap ← matrix_setitem store_overlap row_index column_index overlap;
  store_overlap ← matrix_setitem store_overlap column_index row_index overlap;
  Ok (store_overlap,
      match progress_bar with
      | Some bar => Some (update bar 1)
      | None => None
      end).

Definition calculate_overlap_for_stores
    (garbage : nat → nat → float)
    (store_data : list (DataFrame (option K)))
    (store_id_column product_id_column : string)
    (overlap_function : pyset scalar → pyset scalar → result float)
    (preprocess_function : Series (option K) → Series (option K))
    (progress_bar : option (tqdm (option K)))
    (calculate_all_cells : bool)
  : result (MatrixFrame (option K) * option (tqdm (option K))) :=
  let number_of_stores := length store_data in
  store_names ← list_comprehension (store_name store_id_column) store_data;
  let store_overlap := np_empty garbage number_of_stores number_of_stores in
  st ← for_each (range 0 (length store_data))
         (λ row_index st,
            let column_start_index :=
              if negb calculate_all_cells then row_index else 0 in
            for_each (range column_start_index (length store_data))
              (overlap_cell store_data product_id_column overlap_function
                 preprocess_function store_names row_index) st)
         (store_overlap, progress_bar);
  Ok ({| values := st.1; columns := store_names; index := store_names |},
      st.2).

(** What one iteration passes to and gets from [overlap_function] (a view
    used to state the properties of the driver). *)
Definition pair_overlap
    (store_data : list (DataFrame (option K))) (product_id_column : string)
    (overlap_function : pyset scalar → pyset scalar → result float)
    (preprocess_function : Series (option K) → Series (option K))
    (row_index column_index : nat) : result float :=
  store1 ← list_getitem store_data row_index;
  store2 ← list_getitem store_data column_index;
  column1 ← getitem store1 product_id_column;
  column2 ← getitem store2 product_id_column;
  overlap_function
    (Some (list_to_set (values_objects false (preprocess_function column1))))
    (Some (list_to_set (values_objects true (preprocess_function column2)))).

(** The preprocessed product column of a store that has one (a view). *)
Definition product_values (product_id_column : string)
    (preprocess_function : Series (option K) → Series (option K))
    (store : DataFrame (option K)) : Series (option K) :=
  preprocess_function (default [] (store !! product_id_column)).

End driver.

Arguments scalar K : clear implicits.

End with_nan.

(** A store with a [float64] product column: as [mkstore], with a NaN
    where [products] has [None]. *)
Definition mkstore_float (name : Z) (products : list (option Z))
  : DataFrame (option Z) :=
  {[ "store" := (λ _, Some name) <$> products; "ean" := products ]}.

Definition stores3_float : list (DataFrame (option Z)) :=
  [mkstore_float 10 [Some 1; Some 2; Some 3];
   mkstore_float 20 [Some 2; Some 3; Some 4];
   mkstore_float 30 [Some 2; Some 3]]%Z.

(** A preprocessing function that keeps the numbers above 2. *)
Definition numbers_above_2 (series : Series (option Z)) : Series (option Z) :=
  Some <$> above_2 (omap id series).

(** Stores of which the first two have no product above 2. *)
Definition stores_low_float : list (DataFrame (option Z)) :=
  [mkstore_float 10 [Some 1; Some 2]; mkstore_float 20 [Some 2];
   mkstore_float 30 [Some 2; Some 3]]%Z.

(** * Properties of the metrics *)

(** Refute a decidable proposition on concrete data by evaluating its
    decision procedure. *)
Ltac refute_by_computation :=
  lazymatch goal with
  | |- ¬ ?P => refine (bool_decide_eq_false_1 P _); vm_compute; reflexivity
  end.

Lemma bind_Ok {A B} (f : A → result B) (a : A) : Ok a ≫= f = f a.
Proof. reflexivity. Qed.

Lemma bind_Raise {A B} (f : A → result B) (e : exn) : Raise e ≫= f = Raise e.
Proof. reflexivity. Qed.

Lemma float_truediv_ok (x y : float) :
  ¬ (y == 0)%Q → float_truediv x y = Ok (Qred (x / y)%Q).
Proof.
  intros Hy. unfold float_truediv.
  destruct (Qeq_bool y 0%Q) eqn:E; [|done].
  by apply Qeq_bool_eq in E.
Qed.

Lemma float_truediv_zero (x y : float) :
  (y == 0)%Q → float_truediv x y = Raise ZeroDivisionError.
Proof.
  intros Hy. unfold float_truediv. by rewrite (Qeq_eq_bool _ _ Hy).
Qed.

Lemma float_of_int_nonzero (d : Z) : d ≠ 0%Z → ¬ (float_of_int d == 0)%Q.
Proof.
  intros Hd Hq. unfold float_of_int, inject_Z, Qeq in Hq. simpl in Hq. lia.
Qed.

Lemma int_truediv_ok (n d : Z) :
  d ≠ 0%Z → int_truediv n d = Ok (Qred (inject_Z n / inject_Z d)%Q).
Proof.
  intros Hd. unfold int_truediv.
  by rewrite float_truediv_ok by by apply float_of_int_nonzero.
Qed.

Lemma int_truediv_zero (n : Z) : int_truediv n 0 = Raise ZeroDivisionError.
Proof. reflexivity. Qed.

Lemma int_truediv_returns (n d : Z) :
  d ≠ 0%Z → returns (int_truediv n d) (inject_Z n / inject_Z d)%Q.
Proof.
  intros Hd. eexists. split; [by apply int_truediv_ok|]. apply Qred_correct.
Qed.

Section metrics_facts.
Context `{Countable K}.
Implicit Types (A B : gset K) (l r : pyset K).

Lemma len_nonneg A : (0 ≤ len A)%Z.
Proof. unfold len. lia. Qed.

Lemma len_zero_iff A : len A = 0%Z ↔ A = ∅.
Proof.
  unfold len. rewrite <- (leibniz_equiv_iff A ∅), <- size_empty_iff. lia.
Qed.

Lemma len_pos A : A ≠ ∅ → (0 < len A)%Z.
Proof.
  intros HA. pose proof (len_nonneg A).
  destruct (decide (len A = 0%Z)) as [E|E]; [|lia].
  by apply len_zero_iff in E.
Qed.

(** Inclusion and exclusion on sizes. *)
Lemma len_union_intersection A B :
  (len (A ∪ B) + len (A ∩ B) = len A + len B)%Z.
Proof.
  unfold len.
  assert (size (A ∪ B) = size A + size (B ∖ A)) as E1
    by apply size_union_alt.
  assert (size B = size (A ∩ B) + size (B ∖ A)) as E2.
  { rewrite <- size_union by set_solver. f_equal.
    apply set_eq. intros x. destruct (decide (x ∈ A)); set_solver. }
  lia.
Qed.

Lemma len_intersection_le_l A B : (len (A ∩ B) ≤ len A)%Z.
Proof.
  unfold len. apply inj_le, subseteq_size. set_solver.
Qed.

Lemma len_intersection_le_r A B : (len (A ∩ B) ≤ len B)%Z.
Proof.
  unfold len. apply inj_le, subseteq_size. set_solver.
Qed.

Lemma handle_missing_sets_default l r :
  handle_missing_sets l r = (default ∅ l, default ∅ r).
Proof.
  unfold handle_missing_sets, py_not.
  destruct l as [A|], r as [B|]; simpl; repeat case_bool_decide;
    repeat match goal with
           | E : len _ = 0%Z |- _ => apply len_zero_iff in E; subst
           end; reflexivity.
Qed.

(** The dispatch as a case analysis on the normalised sets. *)
Lemma handle_zero_length_sets_cases l r f exact empty :
  __handle_zero_length_sets l r f exact empty =
    if decide (default ∅ l = default ∅ r) then Ok exact
    else if decide (default ∅ l = ∅ ∨ default ∅ r = ∅) then Ok empty
    else f (default ∅ l) (default ∅ r).
Proof.
  unfold __handle_zero_length_sets. rewrite handle_missing_sets_default.
  set (A := default ∅ l). set (B := default ∅ r).
  repeat case_bool_decide; repeat case_decide; simpl;
    repeat match goal with
           | E : len _ = 0%Z |- _ => apply len_zero_iff in E
           | E : len _ ≠ 0%Z |- _ => rewrite len_zero_iff in E
           end; try reflexivity; try congruence; try tauto.
Qed.

End metrics_facts.

Section metrics_policy.
Context `{Countable K}.
Implicit Types (A B : gset K) (l r : pyset K).

Lemma dispatch_policy_intro metric core scale :
  (∀ l r, metric l r =
     scale <$> __handle_zero_length_sets l r core
                 default_exact_match default_empty_match) →
  dispatch_policy metric core scale.
Proof.
  intros Hm l r A B. rewrite Hm, handle_zero_length_sets_cases.
  fold A B. repeat split; intros; repeat case_decide;
    try reflexivity; try congruence; tauto.
Qed.

Lemma fmap_id_result {X} (x : result X) : id <$> x = x.
Proof. by destruct x. Qed.

Lemma jaccard_similarity_policy :
  dispatch_policy (K:=K) jaccard_similarity jaccard_similarity_core id.
Proof.
  apply dispatch_policy_intro. intros. by rewrite fmap_id_result.
Qed.

Lemma jaccard_index_policy :
  dispatch_policy (K:=K) jaccard_index jaccard_index_core id.
Proof.
  apply dispatch_policy_intro. intros. by rewrite fmap_id_result.
Qed.

Lemma dice_coefficient_policy :
  dispatch_policy (K:=K) dice_coefficient dice_coefficient_core id.
Proof.
  apply dispatch_policy_intro. intros. by rewrite fmap_id_result.
Qed.

Lemma overlap_coefficient_policy :
  dispatch_policy (K:=K) overlap_coefficient overlap_coefficient_core id.
Proof.
  apply dispatch_policy_intro. intros. by rewrite fmap_id_result.
Qed.

Lemma percentage_overlap_policy :
  dispatch_policy (K:=K) percentage_overlap percentage_overlap_core times_100.
Proof.
  apply dispatch_policy_intro. intros. unfold percentage_overlap.
  by destruct (__handle_zero_length_sets _ _ _ _ _).
Qed.

(** The five core formulas do not depend on the order of their arguments. *)
Lemma jaccard_similarity_core_comm A B :
  jaccard_similarity_core A B = jaccard_similarity_core B A.
Proof.
  unfold jaccard_similarity_core.
  by rewrite (comm_L (∩) A B), (comm_L (∪) A B).
Qed.

Lemma jaccard_index_core_comm A B :
  jaccard_index_core A B = jaccard_index_core B A.
Proof.
  unfold jaccard_index_core.
  by rewrite (comm_L (∩) A B), (Z.add_comm (len A)).
Qed.

Lemma dice_coefficient_core_comm A B :
  dice_coefficient_core A B = dice_coefficient_core B A.
Proof.
  unfold dice_coefficient_core.
  by rewrite (comm_L (∩) A B), (Z.add_comm (len A)).
Qed.

Lemma overlap_coefficient_core_comm A B :
  overlap_coefficient_core A B = overlap_coefficient_core B A.
Proof.
  unfold overlap_coefficient_core.
  by rewrite (comm_L (∩) A B), (Z.min_comm (len A)).
Qed.

Lemma percentage_overlap_core_comm A B :
  percentage_overlap_core A B = percentage_overlap_core B A.
Proof.
  unfold percentage_overlap_core.
  by rewrite (comm_L (∩) A B), (Z.add_comm (len A)).
Qed.

(** The dispatch is symmetric as soon as the core formula is. *)
Lemma handle_zero_length_sets_comm l r f exact empty :
  (∀ A B, f A B = f B A) →
  __handle_zero_length_sets l r f exact empty =
  __handle_zero_length_sets r l f exact empty.
Proof.
  intros Hf. rewrite !handle_zero_length_sets_cases.
  repeat case_decide; try reflexivity; try tauto; try (exfalso; congruence).
  apply Hf.
Qed.

(** The dispatch consults the core formula on non-empty, unequal sets only. *)
Lemma handle_zero_length_sets_ext l r f g exact empty :
  (∀ A B, A ≠ ∅ → B ≠ ∅ → A ≠ B → f A B = g A B) →
  __handle_zero_length_sets l r f exact empty =
  __handle_zero_length_sets l r g exact empty.
Proof.
  intros Hfg. rewrite !handle_zero_length_sets_cases.
  repeat case_decide; try reflexivity. apply Hfg; tauto.
Qed.

(** The dispatch returns whenever the core formula returns on non-empty,
    unequal sets. *)
Lemma handle_zero_length_sets_is_Ok l r f exact empty :
  (∀ A B, A ≠ ∅ → B ≠ ∅ → A ≠ B → is_Ok (f A B)) →
  is_Ok (__handle_zero_length_sets l r f exact empty).
Proof.
  intros Hf. rewrite handle_zero_length_sets_cases.
  repeat case_decide; try by eexists. apply Hf; tauto.
Qed.

Lemma jaccard_cores_agree A B :
  jaccard_similarity_core A B = jaccard_index_core A B.
Proof.
  unfold jaccard_similarity_core, jaccard_index_core. f_equal.
  pose proof (len_union_intersection A B). lia.
Qed.

(** The divisors of the core formulas on non-empty sets. *)
Lemma core_divisors_pos A B :
  A ≠ ∅ → B ≠ ∅ →
  (0 < len (A ∪ B))%Z ∧ (0 < len A + len B)%Z ∧
  (0 < Z.min (len A) (len B))%Z ∧
  (0 < len A + len B - len (A ∩ B))%Z.
Proof.
  intros HA HB. apply len_pos in HA, HB.
  pose proof (len_union_intersection A B).
  pose proof (len_intersection_le_l A B). lia.
Qed.

End metrics_policy.

(** ** The claims about the metrics *)

(** Claim C1, as stated, fails for [percentage_overlap]: on two absent
    inputs it returns 100.0, not the default exact-match value 1.0. *)
Lemma percentage_overlap_both_absent_is_100 :
  percentage_overlap (K:=Z) None None = Ok 100%Q ∧
  percentage_overlap (K:=Z) None None ≠ Ok default_exact_match.
Proof. split; [reflexivity | discriminate]. Qed.

(** Claim C1 (amended): [jaccard_similarity], [jaccard_index],
    [dice_coefficient] and [overlap_coefficient] return what the zero-length
    dispatch returns: after absent inputs are normalised to empty sets, the
    default exact-match value 1.0 when both sets are empty and when the two
    sets are equal, else the default empty-match value 0.0 when exactly one
    set is empty, else the value of the metric's core formula.
    [percentage_overlap] follows the same dispatch and multiplies its result
    by 100 in every branch: 100.0, 100.0, 0.0 and 100 times its core
    formula. *)
Theorem symmetric_metrics_follow_dispatch `{Countable K} :
  dispatch_policy (K:=K) jaccard_similarity jaccard_similarity_core id ∧
  dispatch_policy (K:=K) jaccard_index jaccard_index_core id ∧
  dispatch_policy (K:=K) dice_coefficient dice_coefficient_core id ∧
  dispatch_policy (K:=K) overlap_coefficient overlap_coefficient_core id ∧
  dispatch_policy (K:=K) percentage_overlap percentage_overlap_core times_100 ∧
  id default_exact_match = 1%Q ∧ id default_empty_match = 0%Q ∧
  times_100 default_exact_match = 100%Q ∧
  times_100 default_empty_match = 0%Q.
Proof.
  split; [apply jaccard_similarity_policy|].
  split; [apply jaccard_index_policy|].
  split; [apply dice_coefficient_policy|].
  split; [apply overlap_coefficient_policy|].
  split; [apply percentage_overlap_policy|].
  repeat split.
Qed.

Lemma symmetric_metrics_follow_dispatch_witness :
  (s123 ≠ ∅ ∧ s234 ≠ ∅ ∧ s123 ≠ s234) ∧
  percentage_overlap (Some s123) (Some s234) =
    times_100 <$> percentage_overlap_core s123 s234.
Proof.
  assert (s123 ≠ ∅ ∧ s234 ≠ ∅ ∧ s123 ≠ s234) as Hne
    by (repeat split; refute_by_computation).
  split; [exact Hne|].
  destruct Hne as (H1 & H2 & H3).
  destruct (symmetric_metrics_follow_dispatch (K:=Z)) as (_ & _ & _ & _ & Hp & _).
  destruct (Hp (Some s123) (Some s234)) as (_ & _ & _ & Hcore).
  exact (Hcore H1 H2 H3).
Defined.

Section core_values.
Context `{Countable K}.
Implicit Types (A B : gset K).

(** On non-empty, unequal sets a metric is its core formula. *)
Lemma dispatch_to_core A B f exact empty :
  A ≠ ∅ → B ≠ ∅ → A ≠ B →
  __handle_zero_length_sets (Some A) (Some B) f exact empty = f A B.
Proof.
  intros HA HB HAB. rewrite handle_zero_length_sets_cases. simpl.
  repeat case_decide; try reflexivity; try congruence; tauto.
Qed.

Lemma dispatch_equal A f exact empty :
  __handle_zero_length_sets (Some A) (Some A) f exact empty = Ok exact.
Proof.
  rewrite handle_zero_length_sets_cases. simpl. by case_decide.
Qed.

Lemma dispatch_right_empty A f exact empty :
  A ≠ ∅ →
  __handle_zero_length_sets (Some A) (Some ∅) f exact empty = Ok empty.
Proof.
  intros HA. rewrite handle_zero_length_sets_cases. simpl.
  repeat case_decide; try reflexivity; try congruence. tauto.
Qed.

Lemma asymmetrical_overlap_value A B :
  A ≠ ∅ →
  returns (asymmetrical_overlap (Some A) (Some B))
          (inject_Z (len (A ∩ B)) / inject_Z (len A))%Q.
Proof.
  intros HA. apply int_truediv_returns. apply len_pos in HA. lia.
Qed.

Lemma asymmetrical_overlap_empty_left B :
  asymmetrical_overlap (Some (∅ : gset K)) (Some B) = Raise ZeroDivisionError.
Proof.
  unfold asymmetrical_overlap.
  assert (len (∅ : gset K) = 0%Z) as -> by by apply len_zero_iff.
  apply int_truediv_zero.
Qed.

Lemma core_is_Ok A B :
  A ≠ ∅ → B ≠ ∅ →
  is_Ok (jaccard_similarity_core A B) ∧ is_Ok (jaccard_index_core A B) ∧
  is_Ok (dice_coefficient_core A B) ∧ is_Ok (overlap_coefficient_core A B) ∧
  is_Ok (percentage_overlap_core A B).
Proof.
  intros HA HB.
  destruct (core_divisors_pos A B) as (H1 & H2 & H3 & H4); [done..|].
  repeat split; eexists.
  - apply int_truediv_ok; lia.
  - apply int_truediv_ok; lia.
  - apply float_truediv_ok, float_of_int_nonzero; lia.
  - apply int_truediv_ok; lia.
  - apply int_truediv_ok; lia.
Qed.

End core_values.

(** ** The metrics on doubles *)

Lemma round_half_even_bounds q :
  (0 <= q)%Q →
  (0 <= inject_Z (binary64.round_half_even q) <= q + 1)%Q.
Proof.
  intros Hq.
  assert (Qfloor q ≤ binary64.round_half_even q ≤ Qfloor q + 1)%Z as [Hlow Hup]
    by (unfold binary64.round_half_even; cbv zeta; repeat case_match; lia).
  assert (0 ≤ Qfloor q)%Z as Hnonneg.
  { rewrite <- (Qfloor_Z 0). by apply Qfloor_resp_le. }
  split.
  - change 0%Q with (inject_Z 0). rewrite <- Zle_Qle. lia.
  - apply Qle_trans with (inject_Z (Qfloor q + 1)).
    + by rewrite <- Zle_Qle.
    + rewrite inject_Z_plus. apply Qplus_le_compat; [apply Qfloor_le|].
      apply Qle_refl.
Qed.

(** Rounding a number between 0 and 1 does not overflow. *)
Lemma round_unit_interval q :
  (0 <= q <= 1)%Q → ∃ v, binary64.round q = binary64.Finite v.
Proof.
  intros [Hq0 Hq1]. unfold binary64.round.
  destruct (Qeq_bool q 0) eqn:Hz; [by eexists|]. cbv zeta.
  set (e := Z.max (binary64.ilog2 q - 52) (-1074)).
  set (m := binary64.round_half_even (q / 2 ^ e)).
  assert (e ≤ 0)%Z as He.
  { subst e. apply Z.max_lub; [|lia].
    assert (binary64.ilog2 q ≤ 0)%Z; [|lia].
    unfold binary64.ilog2. cbv zeta.
    assert (Z.log2 (Z.abs (Qnum q)) ≤ Z.log2 (Z.pos (Qden q)))%Z.
    { apply Z.log2_le_mono. unfold Qle in Hq0, Hq1. simpl in *. lia. }
    destruct (Qle_bool _ _); lia. }
  assert (0 < 2 ^ e)%Q as Hpos by (by apply Qpower_0_lt).
  assert (2 ^ e <= 1)%Q as Hle1.
  { change 1%Q with (2 ^ 0)%Q. apply Qpower_le_compat_l; [done|].
    by unfold Qle. }
  assert (0 <= q / 2 ^ e)%Q as Hx.
  { apply Qle_shift_div_l; [done|]. by rewrite Qmult_0_l. }
  destruct (round_half_even_bounds _ Hx) as [Hm0 Hm1]. fold m in Hm0, Hm1.
  assert (inject_Z m * 2 ^ e <= 2)%Q as Hv.
  { apply Qle_trans with ((q / 2 ^ e + 1) * 2 ^ e)%Q.
    - apply Qmult_le_compat_r; [done|]. by apply Qlt_le_weak.
    - assert ((q / 2 ^ e + 1) * 2 ^ e == q + 2 ^ e)%Q as ->.
      { field. intros Hzero. rewrite Hzero in Hpos.
        by apply Qlt_irrefl in Hpos. }
      change 2%Q with (1 + 1)%Q. by apply Qplus_le_compat. }
  destruct (Qle_bool (2 ^ 1024) (Qabs (inject_Z m * 2 ^ e))) eqn:Hov;
    [|by eexists].
  exfalso. apply Qle_bool_iff in Hov.
  rewrite Qabs_pos in Hov
    by (apply Qmult_le_0_compat; [done|by apply Qlt_le_weak]).
  assert (2 < 2 ^ 1024)%Q as Hbig by reflexivity.
  apply (Qlt_irrefl 2). eapply Qlt_le_trans; [exact Hbig|].
  by eapply Qle_trans.
Qed.

(** The quotient of two ints, the first at most the second, is the double
    nearest to the exact quotient. *)
Lemma int_truediv_round n d :
  (0 ≤ n ≤ d)%Z → (0 < d)%Z →
  binary64.int_truediv n d = Ok (binary64.round (inject_Z n / inject_Z d)).
Proof.
  intros Hn Hd. unfold binary64.int_truediv.
  rewrite decide_False by lia.
  destruct (round_unit_interval (inject_Z n / inject_Z d)) as [v ->]; [|done].
  assert (0 < inject_Z d)%Q as Hd'.
  { change 0%Q with (inject_Z 0). by rewrite <- Zlt_Qlt. }
  split.
  - apply Qle_shift_div_l; [done|]. rewrite Qmult_0_l.
    change 0%Q with (inject_Z 0). rewrite <- Zle_Qle. lia.
  - apply Qle_shift_div_r; [done|]. rewrite Qmult_1_l.
    rewrite <- Zle_Qle. lia.
Qed.

Lemma Qpower2_inject (k : Z) : (0 ≤ k)%Z → (2 ^ k == inject_Z (2 ^ k))%Q.
Proof. intros Hk. by rewrite Zpower_Qpower. Qed.

Lemma Qpower2_nonzero (k : Z) : ¬ (2 ^ k == 0)%Q.
Proof. by apply Qpower_not_0. Qed.

(** An integer with at most 53 significant bits is a double. *)
Lemma round_exact (m j : Z) :
  (0 < m < 2 ^ 53)%Z → (0 ≤ j)%Z → (m * 2 ^ j < 2 ^ 1024)%Z →
  binary64.round (inject_Z (m * 2 ^ j))
  = binary64.Finite (inject_Z (m * 2 ^ j)).
Proof.
  intros [Hm0 Hm] Hj Hmax.
  set (N := (m * 2 ^ j)%Z) in *.
  assert (0 < N)%Z as HN by (subst N; nia).
  set (L := Z.log2 N).
  assert (L = j + Z.log2 m)%Z as HL by (by apply Z.log2_mul_pow2).
  assert (0 ≤ Z.log2 m < 53)%Z as Hlog.
  { split; [apply Z.log2_nonneg|]. by apply Z.log2_lt_pow2. }
  assert (binary64.ilog2 (inject_Z N) = L) as Hilog.
  { unfold binary64.ilog2. simpl Qnum. simpl Qden.
    rewrite Z.abs_eq by lia. change (Z.log2 1) with 0%Z.
    rewrite Z.sub_0_r. fold L.
    assert (Qle_bool (2 ^ L) (Qabs (inject_Z N)) = true) as ->; [|done].
    apply Qle_bool_iff.
    rewrite Qabs_pos by (change 0%Q with (inject_Z 0); rewrite <- Zle_Qle; lia).
    rewrite Qpower2_inject by lia. rewrite <- Zle_Qle.
    apply Z.log2_spec. lia. }
  unfold binary64.round.
  assert (Qeq_bool (inject_Z N) 0 = false) as ->.
  { destruct (Qeq_bool (inject_Z N) 0) eqn:E; [|done].
    apply Qeq_bool_iff in E. unfold Qeq in E. simpl in E. lia. }
  cbv zeta. rewrite Hilog.
  rewrite Z.max_l by lia.
  set (t := (52 - Z.log2 m)%Z).
  assert (L - 52 = j - t)%Z as -> by lia.
  assert (inject_Z N == inject_Z m * 2 ^ j)%Q as HNq.
  { subst N. by rewrite inject_Z_mult, Qpower2_inject. }
  assert (2 ^ (j - t) == 2 ^ j / 2 ^ t)%Q as Hpow by (by apply Qpower_minus).
  assert (inject_Z N / 2 ^ (j - t) == inject_Z (m * 2 ^ t))%Q as Hx.
  { rewrite inject_Z_mult, <- Qpower2_inject, HNq, Hpow by lia.
    field. split; apply Qpower2_nonzero. }
  assert (binary64.round_half_even (inject_Z N / 2 ^ (j - t))
          = (m * 2 ^ t)%Z) as ->.
  { unfold binary64.round_half_even. cbv zeta.
    rewrite (Qfloor_comp _ _ Hx), Qfloor_Z.
    assert ((inject_Z N / 2 ^ (j - t) - inject_Z (m * 2 ^ t) ?= 1 # 2)%Q = Lt)
      as ->; [|done].
    assert (inject_Z N / 2 ^ (j - t) - inject_Z (m * 2 ^ t) == 0)%Q as ->
      by (rewrite Hx; apply Qplus_opp_r).
    done. }
  assert (inject_Z (m * 2 ^ t) * 2 ^ (j - t) == inject_Z N)%Q as Hv.
  { rewrite inject_Z_mult, <- Qpower2_inject, HNq, Hpow by lia.
    field. apply Qpower2_nonzero. }
  assert (Qle_bool (2 ^ 1024) (Qabs (inject_Z (m * 2 ^ t) * 2 ^ (j - t)))
          = false) as ->.
  { destruct (Qle_bool _ _) eqn:E; [|done]. apply Qle_bool_iff in E.
    rewrite Hv in E.
    rewrite Qabs_pos in E
      by (change 0%Q with (inject_Z 0); rewrite <- Zle_Qle; lia).
    rewrite Qpower2_inject in E by lia. rewrite <- Zle_Qle in E. lia. }
  f_equal. rewrite (Qred_complete _ _ Hv).
  apply Qred_identity. simpl. apply Z.gcd_1_r.
Qed.

(** An int below [2^53] is converted without rounding, and so is its
    double. *)
Lemma float_of_int_exact (n : Z) :
  (0 ≤ n < 2 ^ 53)%Z →
  binary64.float_of_int n = Ok (binary64.Finite (inject_Z n)).
Proof.
  intros Hn. unfold binary64.float_of_int.
  destruct (decide (n = 0%Z)) as [->|Hnz]; [done|].
  replace n with (n * 2 ^ 0)%Z by lia.
  by rewrite round_exact by lia.
Qed.

Lemma float_mul_2_exact (n : Z) :
  (0 ≤ n < 2 ^ 53)%Z →
  binary64.float_mul (binary64.Finite 2) (binary64.Finite (inject_Z n))
  = binary64.Finite (inject_Z (2 * n)).
Proof.
  intros Hn. unfold binary64.float_mul.
  change (2 * inject_Z n)%Q with (inject_Z (2 * n)).
  destruct (decide (n = 0%Z)) as [->|Hnz]; [done|].
  replace (2 * n)%Z with (n * 2 ^ 1)%Z by lia.
  by rewrite round_exact by lia.
Qed.

Section binary64_facts.
Context `{Countable K}.
Implicit Types (A B : gset K).

(** On non-empty, unequal sets the dispatch hands over to the core
    formula. *)
Lemma binary64_dispatch_to_core A B f exact empty :
  A ≠ ∅ → B ≠ ∅ → A ≠ B →
  binary64.__handle_zero_length_sets (Some A) (Some B) f exact empty = f A B.
Proof.
  intros HA HB HAB. unfold binary64.__handle_zero_length_sets.
  rewrite handle_missing_sets_default. simpl.
  repeat case_bool_decide; simpl;
    repeat match goal with
           | E : len _ = 0%Z |- _ => apply len_zero_iff in E
           end; try reflexivity; congruence.
Qed.

Lemma binary64_jaccard_similarity_core_value A B :
  A ≠ ∅ → B ≠ ∅ →
  binary64.jaccard_similarity_core A B
  = Ok (binary64.round (inject_Z (len (A ∩ B)) / inject_Z (len (A ∪ B)))).
Proof.
  intros HA HB. apply int_truediv_round.
  - pose proof (len_nonneg (A ∩ B)). pose proof (len_union_intersection A B).
    pose proof (len_intersection_le_l A B).
    pose proof (len_intersection_le_r A B). lia.
  - by apply core_divisors_pos.
Qed.

Lemma binary64_overlap_coefficient_core_value A B :
  A ≠ ∅ → B ≠ ∅ →
  binary64.overlap_coefficient_core A B
  = Ok (binary64.round
          (inject_Z (len (A ∩ B)) / inject_Z (Z.min (len A) (len B)))).
Proof.
  intros HA HB. apply int_truediv_round.
  - pose proof (len_nonneg (A ∩ B)). pose proof (len_intersection_le_l A B).
    pose proof (len_intersection_le_r A B). lia.
  - by apply core_divisors_pos.
Qed.

Lemma binary64_percentage_overlap_core_value A B :
  A ≠ ∅ → B ≠ ∅ →
  binary64.percentage_overlap_core A B
  = Ok (binary64.round
          (inject_Z (len (A ∩ B)) / inject_Z (len A + len B))).
Proof.
  intros HA HB. apply int_truediv_round.
  - pose proof (len_nonneg (A ∩ B)). pose proof (len_intersection_le_l A B).
    pose proof (len_nonneg B). lia.
  - by apply core_divisors_pos.
Qed.

(** For sets of fewer than [2^53] elements together, the only operation of
    the Dice formula that rounds is the division. *)
Lemma binary64_dice_coefficient_core_value A B :
  A ≠ ∅ → B ≠ ∅ → (len A + len B < 2 ^ 53)%Z →
  binary64.dice_coefficient_core A B
  = Ok (binary64.round
          (2 * inject_Z (len (A ∩ B)) / inject_Z (len A + len B))).
Proof.
  intros HA HB Hsize. unfold binary64.dice_coefficient_core. cbv zeta.
  pose proof (len_nonneg (A ∩ B)). pose proof (len_intersection_le_l A B).
  pose proof (len_pos A HA). pose proof (len_pos B HB).
  rewrite (float_of_int_exact (len (A ∩ B))) by lia.
  cbn [fmap result_fmap mbind result_bind].
  rewrite float_mul_2_exact by lia.
  rewrite float_of_int_exact by lia.
  cbn [mbind result_bind]. unfold binary64.float_truediv.
  destruct (Qeq_bool (inject_Z (len A + len B)) 0) eqn:E; [|done].
  apply Qeq_bool_iff in E. unfold Qeq in E. simpl in E. lia.
Qed.

End binary64_facts.

(** Claim C2, as stated, fails for [percentage_overlap]: on [{1,2,3}] and
    [{2,3,4}] it returns 33.33333333333333, the double just below
    33.333333333333336, which is the double nearest to 100·2/6.  The quotient
    2/6 is rounded to a double before it is multiplied by 100. *)
Lemma percentage_overlap_rounds_twice :
  binary64.percentage_overlap (Some s123) (Some s234)
    = Ok (binary64.Finite (2345624805922133 # 70368744177664)) ∧
  binary64.round (100 * 2 / 6)
    = binary64.Finite (4691249611844267 # 140737488355328) ∧
  binary64.percentage_overlap (Some s123) (Some s234)
    ≠ Ok (binary64.round (100 * 2 / 6)).
Proof.
  split; [vm_compute; reflexivity|].
  split; [vm_compute; reflexivity|].
  vm_compute. discriminate.
Qed.

(** Claim C2 (amended): on non-empty, unequal sets, with [I = |A ∩ B|],
    [U = |A ∪ B|], [a = |A|] and [b = |B|], [jaccard_similarity] returns the
    double nearest to [I/U] and [overlap_coefficient] the double nearest to
    [I/min(a,b)]; [dice_coefficient] evaluates [2. * I / (a + b)] in floats,
    which is the double nearest to [2·I/(a+b)] when [a + b < 2^53];
    [percentage_overlap] returns the double nearest to [q · 100], where [q]
    is the double nearest to [I/(a+b)].  For [A = {1,2,3}] and
    [B = {2,3,4}] these are 0.5, 0.6666666666666666 (the double nearest to
    2/3) twice, and 33.33333333333333. *)
Theorem core_formulas_on_distinct_nonempty_sets :
  (∀ `{Countable K} (A B : gset K),
     A ≠ ∅ → B ≠ ∅ → A ≠ B →
     let I := len (A ∩ B) in
     let U := len (A ∪ B) in
     let a := len A in
     let b := len B in
     binary64.jaccard_similarity (Some A) (Some B)
       = Ok (binary64.round (inject_Z I / inject_Z U)) ∧
     binary64.dice_coefficient (Some A) (Some B)
       = (numerator ← binary64.float_mul (binary64.Finite 2)
                        <$> binary64.float_of_int I;
          divisor ← binary64.float_of_int (a + b);
          binary64.float_truediv numerator divisor) ∧
     ((a + b < 2 ^ 53)%Z →
      binary64.dice_coefficient (Some A) (Some B)
        = Ok (binary64.round (2 * inject_Z I / inject_Z (a + b)))) ∧
     binary64.overlap_coefficient (Some A) (Some B)
       = Ok (binary64.round (inject_Z I / inject_Z (Z.min a b))) ∧
     binary64.percentage_overlap (Some A) (Some B)
       = Ok (binary64.float_mul
               (binary64.round (inject_Z I / inject_Z (a + b)))
               (binary64.Finite 100))) ∧
  binary64.jaccard_similarity (Some s123) (Some s234)
    = Ok (binary64.Finite (1 # 2)) ∧
  binary64.dice_coefficient (Some s123) (Some s234)
    = Ok (binary64.round (2 # 3)) ∧
  binary64.overlap_coefficient (Some s123) (Some s234)
    = Ok (binary64.round (2 # 3)) ∧
  binary64.round (2 # 3)
    = binary64.Finite (6004799503160661 # 9007199254740992) ∧
  binary64.percentage_overlap (Some s123) (Some s234)
    = Ok (binary64.Finite (2345624805922133 # 70368744177664)).
Proof.
  split.
  - intros K ? ? A B HA HB HAB. cbv zeta.
    unfold binary64.jaccard_similarity, binary64.dice_coefficient,
      binary64.overlap_coefficient, binary64.percentage_overlap.
    rewrite !binary64_dispatch_to_core by done.
    split; [by apply binary64_jaccard_similarity_core_value|].
    split; [done|].
    split; [intros Hsize; by apply binary64_dice_coefficient_core_value|].
    split; [by apply binary64_overlap_coefficient_core_value|].
    by rewrite binary64_percentage_overlap_core_value.
  - repeat split; vm_compute; reflexivity.
Qed.

Lemma core_formulas_on_distinct_nonempty_sets_witness :
  (s123 ≠ ∅ ∧ s23 ≠ ∅ ∧ s123 ≠ s23) ∧
  binary64.jaccard_similarity (Some s123) (Some s23)
    = Ok (binary64.round
            (inject_Z (len (s123 ∩ s23)) / inject_Z (len (s123 ∪ s23)))) ∧
  binary64.percentage_overlap (Some s123) (Some s23)
    = Ok (binary64.float_mul
            (binary64.round
               (inject_Z (len (s123 ∩ s23)) / inject_Z (len s123 + len s23)))
            (binary64.Finite 100)).
Proof.
  assert (s123 ≠ ∅ ∧ s23 ≠ ∅ ∧ s123 ≠ s23) as Hne
    by (repeat split; refute_by_computation).
  split; [exact Hne|].
  destruct Hne as (H1 & H2 & H3).
  destruct core_formulas_on_distinct_nonempty_sets as [Hgen _].
  destruct (Hgen Z _ _ s123 s23 H1 H2 H3) as (Hj & _ & _ & _ & Hp).
  split; [exact Hj|exact Hp].
Defined.

(** Claim C3: each of the five symmetric metrics gives the same result when
    its two arguments are swapped, absent and empty inputs included. *)
Theorem symmetric_metrics_commute `{Countable K} (l r : pyset K) :
  jaccard_similarity l r = jaccard_similarity r l ∧
  jaccard_index l r = jaccard_index r l ∧
  dice_coefficient l r = dice_coefficient r l ∧
  overlap_coefficient l r = overlap_coefficient r l ∧
  percentage_overlap l r = percentage_overlap r l.
Proof.
  unfold jaccard_similarity, jaccard_index, dice_coefficient,
    overlap_coefficient, percentage_overlap.
  split; [apply handle_zero_length_sets_comm, jaccard_similarity_core_comm|].
  split; [apply handle_zero_length_sets_comm, jaccard_index_core_comm|].
  split; [apply handle_zero_length_sets_comm, dice_coefficient_core_comm|].
  split; [apply handle_zero_length_sets_comm, overlap_coefficient_core_comm|].
  f_equal. apply handle_zero_length_sets_comm, percentage_overlap_core_comm.
Qed.

(** Claim C4: [jaccard_similarity], dividing by [|A ∪ B|], and
    [jaccard_index], dividing by [|A| + |B| − |A ∩ B|], return equal results
    on every pair of inputs. *)
Theorem jaccard_similarity_eq_jaccard_index `{Countable K} (l r : pyset K) :
  jaccard_similarity l r = jaccard_index l r.
Proof.
  unfold jaccard_similarity, jaccard_index.
  apply handle_zero_length_sets_ext. intros A B _ _ _.
  apply jaccard_cores_agree.
Qed.

(** Claim C5, as stated, fails for [percentage_overlap]: on two equal
    non-empty sets it returns 100.0, not 1.0. *)
Lemma percentage_overlap_equal_sets_is_100 :
  percentage_overlap (Some s23) (Some s23) = Ok 100%Q ∧
  percentage_overlap (Some s23) (Some s23) ≠ Ok 1%Q.
Proof. split; [vm_compute; reflexivity | vm_compute; discriminate]. Qed.

(** Claim C5 (amended): for every set [A], [jaccard_similarity],
    [jaccard_index], [dice_coefficient] and [overlap_coefficient] return 1.0
    on [(A, A)] and on two empty sets, where [percentage_overlap] returns
    100.0; for every non-empty [A], all five return 0.0 on [(A, ∅)]. *)
Theorem metrics_on_equal_and_empty_sets `{Countable K} (A : gset K) :
  (jaccard_similarity (Some A) (Some A) = Ok 1%Q ∧
   jaccard_index (Some A) (Some A) = Ok 1%Q ∧
   dice_coefficient (Some A) (Some A) = Ok 1%Q ∧
   overlap_coefficient (Some A) (Some A) = Ok 1%Q ∧
   percentage_overlap (Some A) (Some A) = Ok 100%Q) ∧
  (jaccard_similarity (K:=K) (Some ∅) (Some ∅) = Ok 1%Q ∧
   jaccard_index (K:=K) (Some ∅) (Some ∅) = Ok 1%Q ∧
   dice_coefficient (K:=K) (Some ∅) (Some ∅) = Ok 1%Q ∧
   overlap_coefficient (K:=K) (Some ∅) (Some ∅) = Ok 1%Q ∧
   percentage_overlap (K:=K) (Some ∅) (Some ∅) = Ok 100%Q) ∧
  (A ≠ ∅ →
   jaccard_similarity (Some A) (Some ∅) = Ok 0%Q ∧
   jaccard_index (Some A) (Some ∅) = Ok 0%Q ∧
   dice_coefficient (Some A) (Some ∅) = Ok 0%Q ∧
   overlap_coefficient (Some A) (Some ∅) = Ok 0%Q ∧
   percentage_overlap (Some A) (Some ∅) = Ok 0%Q).
Proof.
  unfold jaccard_similarity, jaccard_index, dice_coefficient,
    overlap_coefficient, percentage_overlap.
  split; [|split].
  - rewrite !dispatch_equal. by repeat split.
  - rewrite !dispatch_equal. by repeat split.
  - intros HA. rewrite !dispatch_right_empty by done. by repeat split.
Qed.

Lemma metrics_on_equal_and_empty_sets_witness :
  s123 ≠ ∅ ∧
  jaccard_similarity (Some s123) (Some ∅) = Ok 0%Q ∧
  jaccard_index (Some s123) (Some ∅) = Ok 0%Q ∧
  dice_coefficient (Some s123) (Some ∅) = Ok 0%Q ∧
  overlap_coefficient (Some s123) (Some ∅) = Ok 0%Q ∧
  percentage_overlap (Some s123) (Some ∅) = Ok 0%Q.
Proof.
  assert (s123 ≠ ∅) as Hne by refute_by_computation.
  split; [exact Hne|].
  exact (proj2 (proj2 (metrics_on_equal_and_empty_sets s123)) Hne).
Defined.

(** Claim C6: [asymmetrical_overlap(A, B)] is [|A ∩ B| / |A|] for every
    non-empty [A]; it does not go through the zero-length dispatch, and on
    an empty [A] the division by zero raises instead of returning a value
    (even against an empty [B], where the dispatch would answer 1.0);
    [asymmetrical_overlap({1,2,3}, {2,3})] is 2/3 and
    [asymmetrical_overlap({2,3}, {1,2,3})] is 1.0. *)
Theorem asymmetrical_overlap_is_unguarded_ratio :
  (∀ `{Countable K} (A B : gset K),
     A ≠ ∅ →
     returns (asymmetrical_overlap (Some A) (Some B))
             (inject_Z (len (A ∩ B)) / inject_Z (len A))%Q) ∧
  (∀ `{Countable K} (B : gset K),
     asymmetrical_overlap (Some ∅) (Some B) = Raise ZeroDivisionError) ∧
  asymmetrical_overlap (Some s123) (Some s23) = Ok (2 # 3)%Q ∧
  asymmetrical_overlap (Some s23) (Some s123) = Ok 1%Q.
Proof.
  split; [|split].
  - intros K ? ? A B HA. by apply asymmetrical_overlap_value.
  - intros K ? ? B. apply asymmetrical_overlap_empty_left.
  - split; vm_compute; reflexivity.
Qed.

Lemma asymmetrical_overlap_is_unguarded_ratio_witness :
  s234 ≠ ∅ ∧ returns (asymmetrical_overlap (Some s234) (Some s123)) (2 # 3)%Q.
Proof.
  assert (s234 ≠ ∅) as Hne by refute_by_computation.
  split; [exact Hne|].
  destruct (proj1 asymmetrical_overlap_is_unguarded_ratio Z _ _ s234 s123 Hne)
    as (v & -> & Hv).
  exists v. split; [done|]. by rewrite Hv.
Defined.

(** Claim C7: no symmetric metric divides by zero.  The dispatch consults
    the core formula on non-empty, unequal sets only (its result does not
    depend on what the core formula does elsewhere); on such sets the four
    divisors [|A ∪ B|], [|A| + |B|], [min(|A|, |B|)] and
    [|A| + |B| − |A ∩ B|] are positive; and on all inputs, absent and empty
    ones included, each of the five metrics returns a value. *)
Theorem symmetric_metrics_never_divide_by_zero `{Countable K} :
  (∀ (l r : pyset K) f g exact empty,
     (∀ A B : gset K, A ≠ ∅ → B ≠ ∅ → A ≠ B → f A B = g A B) →
     __handle_zero_length_sets l r f exact empty =
     __handle_zero_length_sets l r g exact empty) ∧
  (∀ A B : gset K,
     A ≠ ∅ → B ≠ ∅ → A ≠ B →
     (0 < len (A ∪ B))%Z ∧ (0 < len A + len B)%Z ∧
     (0 < Z.min (len A) (len B))%Z ∧
     (0 < len A + len B - len (A ∩ B))%Z) ∧
  (∀ l r : pyset K,
     is_Ok (jaccard_similarity l r) ∧ is_Ok (jaccard_index l r) ∧
     is_Ok (dice_coefficient l r) ∧ is_Ok (overlap_coefficient l r) ∧
     is_Ok (percentage_overlap l r)).
Proof.
  split; [|split].
  - intros l r f g exact empty Hfg. by apply handle_zero_length_sets_ext.
  - intros A B HA HB _. by apply core_divisors_pos.
  - intros l r.
    unfold jaccard_similarity, jaccard_index, dice_coefficient,
      overlap_coefficient, percentage_overlap.
    repeat split.
    1-4: apply handle_zero_length_sets_is_Ok; intros A B HA HB _;
      by apply (core_is_Ok A B).
    destruct (handle_zero_length_sets_is_Ok l r percentage_overlap_core
                default_exact_match default_empty_match) as [v ->].
    + intros A B HA HB _. by apply (core_is_Ok A B).
    + by eexists.
Qed.

Lemma symmetric_metrics_never_divide_by_zero_witness :
  (s123 ≠ ∅ ∧ s234 ≠ ∅ ∧ s123 ≠ s234) ∧
  (0 < len (s123 ∪ s234))%Z ∧ (0 < len s123 + len s234)%Z ∧
  (0 < Z.min (len s123) (len s234))%Z ∧
  (0 < len s123 + len s234 - len (s123 ∩ s234))%Z.
Proof.
  assert (s123 ≠ ∅ ∧ s234 ≠ ∅ ∧ s123 ≠ s234) as Hne
    by (repeat split; refute_by_computation).
  split; [exact Hne|].
  destruct Hne as (H1 & H2 & H3).
  exact (proj1 (proj2 (symmetric_metrics_never_divide_by_zero (K:=Z)))
           s123 s234 H1 H2 H3).
Defined.

(** * Properties of the batch driver *)

(** ** Arrays *)

Lemma range_0 n : range 0 n = seq 0 n.
Proof. unfold range. by rewrite Nat.sub_0_r. Qed.

Lemma elem_of_range start stop k : k ∈ range start stop ↔ start ≤ k < stop.
Proof. unfold range. rewrite elem_of_seq. lia. Qed.

Lemma np_empty_square garbage n : square n (np_empty garbage n n).
Proof.
  unfold np_empty. split.
  - by rewrite length_fmap, length_seq.
  - intros i row Hrow. rewrite list_lookup_fmap in Hrow.
    destruct (seq 0 n !! i); simplify_eq/=.
    by rewrite length_fmap, length_seq.
Qed.

Lemma np_empty_get garbage n a b :
  a < n → b < n → matrix_get (np_empty garbage n n) a b = Some (garbage a b).
Proof.
  intros Ha Hb. unfold matrix_get, np_empty.
  rewrite list_lookup_fmap, lookup_seq_lt by done. simpl.
  by rewrite list_lookup_fmap, lookup_seq_lt.
Qed.

Lemma square_row n m i : square n m → i < n → ∃ row, m !! i = Some row ∧ length row = n.
Proof.
  intros [Hlen Hrows] Hi.
  destruct (lookup_lt_is_Some_2 m i) as [row Hrow]; [lia|].
  exists row. split; [done|]. by eapply Hrows.
Qed.

Lemma matrix_set_square n m i j v : square n m → square n (matrix_set m i j v).
Proof.
  intros [Hlen Hrows]. unfold matrix_set. split.
  - by rewrite length_alter.
  - intros k row. rewrite list_lookup_alter. case_decide; subst.
    + destruct (m !! k) as [row'|] eqn:E; intros; simplify_eq/=.
      rewrite length_insert. by eapply Hrows.
    + apply Hrows.
Qed.

Lemma matrix_set_get n m i j v a b :
  square n m → i < n → j < n →
  matrix_get (matrix_set m i j v) a b =
    if decide (a = i ∧ b = j) then Some v else matrix_get m a b.
Proof.
  intros Hsq Hi Hj. unfold matrix_get, matrix_set.
  rewrite list_lookup_alter.
  destruct (square_row n m i Hsq Hi) as (row & Hrow & Hlen).
  destruct (decide (i = a)) as [->|Hne].
  - rewrite Hrow. simpl. rewrite list_lookup_insert.
    repeat case_decide; try reflexivity; exfalso; naive_solver lia.
  - case_decide; [naive_solver|done].
Qed.

Lemma matrix_setitem_ok n m i j v :
  square n m → i < n → j < n →
  matrix_setitem m i j v = Ok (matrix_set m i j v).
Proof.
  intros Hsq Hi Hj. unfold matrix_setitem, list_getitem, matrix_set.
  destruct (square_row n m i Hsq Hi) as (row & Hrow & Hlen).
  rewrite Hrow. simpl. rewrite decide_True by lia. f_equal.
  apply list_eq. intros k.
  rewrite list_lookup_alter, list_lookup_insert.
  destruct Hsq as [Hm _].
  repeat case_decide; subst; try reflexivity.
  - by rewrite Hrow.
  - exfalso. naive_solver lia.
  - naive_solver.
Qed.

Lemma mirror_write_square n m i j v :
  square n m → square n (mirror_write m i j v).
Proof. intros. by apply matrix_set_square, matrix_set_square. Qed.

Lemma mirror_write_get n m i j v a b :
  square n m → i < n → j < n →
  matrix_get (mirror_write m i j v) a b =
    if touches (i, j) a b then Some v else matrix_get m a b.
Proof.
  intros Hsq Hi Hj. unfold mirror_write, touches.
  rewrite (matrix_set_get n) by (try apply matrix_set_square; done).
  rewrite (matrix_set_get n) by done.
  case_bool_decide; repeat case_decide; try reflexivity;
    exfalso; naive_solver.
Qed.

(** Two square arrays with the same cells are the same array. *)
Lemma square_ext n m1 m2 :
  square n m1 → square n m2 →
  (∀ a b, a < n → b < n → matrix_get m1 a b = matrix_get m2 a b) →
  m1 = m2.
Proof.
  intros Hsq1 Hsq2 Hget. apply list_eq. intros a.
  destruct (decide (a < n)) as [Ha|Ha].
  - destruct (square_row n m1 a Hsq1 Ha) as (r1 & Hr1 & Hl1).
    destruct (square_row n m2 a Hsq2 Ha) as (r2 & Hr2 & Hl2).
    rewrite Hr1, Hr2. f_equal. apply list_eq. intros b.
    destruct (decide (b < n)) as [Hb|Hb].
    + specialize (Hget a b Ha Hb). unfold matrix_get in Hget.
      by rewrite Hr1, Hr2 in Hget.
    + by rewrite !lookup_ge_None_2 by lia.
  - destruct Hsq1 as [H1 _], Hsq2 as [H2 _].
    by rewrite !lookup_ge_None_2 by lia.
Qed.


(** ** Loops *)

Lemma for_each_app {S A} (l1 l2 : list A) (body : A → S → result S) (s : S) :
  for_each (l1 ++ l2) body s = s' ← for_each l1 body s; for_each l2 body s'.
Proof.
  revert s. induction l1 as [|x l1 IH]; intros s; simpl; [done|].
  destruct (body x s); simpl; [apply IH|done].
Qed.

Lemma for_each_fmap {S A B} (f : A → B) (l : list A)
    (body : B → S → result S) (s : S) :
  for_each (f <$> l) body s = for_each l (λ x, body (f x)) s.
Proof.
  revert s. induction l as [|x l IH]; intros s; simpl; [done|].
  destruct (body (f x) s); simpl; [apply IH|done].
Qed.

(** Two nested loops visit the pairs of their ranges in order. *)
Lemma for_each_nested {S} (rows : list nat) (cols : nat → list nat)
    (body : nat → nat → S → result S) (s : S) :
  for_each rows (λ r s, for_each (cols r) (body r) s) s =
  for_each (r ← rows; (λ c, (r, c)) <$> cols r) (λ p, body p.1 p.2) s.
Proof.
  revert s. induction rows as [|r rows IH]; intros s; [done|].
  rewrite bind_cons, for_each_app, for_each_fmap. simpl.
  destruct (for_each (cols r) (body r) s); simpl; [apply IH|done].
Qed.

Lemma list_comprehension_length {A B} (f : A → result B) l ys :
  list_comprehension f l = Ok ys → length ys = length l.
Proof.
  revert ys. induction l as [|x l IH]; intros ys; simpl.
  - by intros [= <-].
  - destruct (f x); simpl; [|done].
    destruct (list_comprehension f l); simpl; [|done].
    intros [= <-]. simpl. f_equal. by apply IH.
Qed.

Lemma list_comprehension_is_Ok {A B} (f : A → result B) l :
  (∀ x, x ∈ l → is_Ok (f x)) → is_Ok (list_comprehension f l).
Proof.
  induction l as [|x l IH]; intros Hf; simpl; [by eexists|].
  destruct (Hf x) as [y ->]; [by left|]. simpl.
  destruct IH as [ys ->]; [intros; apply Hf; by right|]. by eexists.
Qed.

(** ** The last write to a cell *)

Lemma touches_comm p a b : touches p a b = touches p b a.
Proof. unfold touches. apply bool_decide_ext. tauto. Qed.

Lemma last_write_comm ps a b : last_write ps a b = last_write ps b a.
Proof.
  induction ps as [|p ps IH]; simpl; [done|]. by rewrite IH, touches_comm.
Qed.

Lemma last_write_Some ps a b q :
  last_write ps a b = Some q → q ∈ ps ∧ (q = (a, b) ∨ q = (b, a)).
Proof.
  induction ps as [|p ps IH]; simpl; [done|].
  destruct (last_write ps a b) as [q'|].
  - intros [= <-]. destruct IH as [? ?]; [done|]. split; [by right|done].
  - unfold touches. case_bool_decide; [|done].
    intros [= <-]. split; [by left|done].
Qed.

Lemma last_write_is_Some ps a b p :
  p ∈ ps → p = (a, b) ∨ p = (b, a) → is_Some (last_write ps a b).
Proof.
  intros Hin Hp. induction ps as [|p' ps IH]; [by inv Hin|]. simpl.
  destruct (last_write ps a b) as [q|] eqn:E; [by eexists|].
  inv Hin.
  - unfold touches. rewrite bool_decide_eq_true_2 by done. by eexists.
  - destruct IH as [? ?]; done.
Qed.

(** A cell on the diagonal is written by its own iteration only. *)
Lemma last_write_diag ps a :
  (a, a) ∈ ps → last_write ps a a = Some (a, a).
Proof.
  intros Hin.
  destruct (last_write_is_Some ps a a (a, a)) as [q Hq]; [done|by left|].
  rewrite Hq. f_equal. apply last_write_Some in Hq. naive_solver.
Qed.

Section fill_facts.
Variable cell : nat → nat → result float.

Lemma fill_first_raise ps m :
  for_each ps (fill_step cell) m =
    match first_raise cell ps with
    | Some e => Raise e
    | None => Ok (fill_pure cell ps m)
    end.
Proof.
  revert m. induction ps as [|p ps IH]; intros m; simpl; [done|].
  assert (fill_step cell p m =
            (λ v, mirror_write m p.1 p.2 v) <$> cell p.1 p.2) as ->
    by (unfold fill_step; by destruct (cell p.1 p.2)).
  unfold cell_value.
  destruct (cell p.1 p.2); simpl; [apply IH|done].
Qed.


Lemma first_raise_None ps :
  first_raise cell ps = None ↔ ∀ p, p ∈ ps → is_Ok (cell p.1 p.2).
Proof.
  induction ps as [|p ps IH]; simpl.
  - split; [intros _ p Hp; inv Hp|done].
  - destruct (cell p.1 p.2) as [v|e] eqn:E.
    + rewrite IH. split.
      * intros Hps q Hq. inv Hq; [by eexists|by apply Hps].
      * intros Hps q Hq. apply Hps. by right.
    + split; [done|]. intros Hps.
      destruct (Hps p) as [v Hv]; [by left|]. congruence.
Qed.

Lemma fill_pure_square n ps m : square n m → square n (fill_pure cell ps m).
Proof.
  revert m. induction ps as [|p ps IH]; intros m Hsq; simpl; [done|].
  by apply IH, mirror_write_square.
Qed.

(** Each cell holds the value of the last iteration that wrote it. *)
Lemma fill_pure_get n ps m a b :
  square n m → (∀ p, p ∈ ps → p.1 < n ∧ p.2 < n) →
  matrix_get (fill_pure cell ps m) a b =
    match last_write ps a b with
    | Some q => Some (cell_value cell q.1 q.2)
    | None => matrix_get m a b
    end.
Proof.
  revert m. induction ps as [|[i j] ps IH]; intros m Hsq Hps; [done|].
  destruct (Hps (i, j)) as [Hi Hj]; [by left|]. simpl in Hi, Hj.
  change (fill_pure cell ((i, j) :: ps) m)
    with (fill_pure cell ps (mirror_write m i j (cell_value cell i j))).
  rewrite IH; simpl.
  - destruct (last_write ps a b); [done|].
    rewrite (mirror_write_get n) by done. by destruct (touches (i, j) a b).
  - by apply mirror_write_square.
  - intros p Hp. apply Hps. by right.
Qed.

End fill_facts.


(** ** The order of the iterations *)

Lemma elem_of_rows_prefix all n k i j :
  (i, j) ∈ seq 0 k ≫= row_cells all n ↔
  i < k ∧ j < n ∧ (all = false → i ≤ j).
Proof.
  rewrite list_elem_of_bind. unfold row_cells. split.
  - intros (r & Hin & Hr).
    apply list_elem_of_fmap in Hin as (c & Heq & Hc). simplify_eq.
    apply elem_of_seq in Hr. apply elem_of_range in Hc.
    destruct all; simpl in *; [naive_solver lia|].
    split; [lia|]. split; [lia|]. intros _. lia.
  - intros (Hi & Hj & Hij). exists i. split.
    + apply list_elem_of_fmap. exists j. split; [done|].
      apply elem_of_range. destruct all; simpl; [lia|].
      specialize (Hij eq_refl). lia.
    + apply elem_of_seq. lia.
Qed.

Lemma elem_of_cell_order all n i j :
  (i, j) ∈ cell_order all n ↔ i < n ∧ j < n ∧ (all = false → i ≤ j).
Proof. unfold cell_order. rewrite range_0. apply elem_of_rows_prefix. Qed.

Lemma cell_order_in_range all n p :
  p ∈ cell_order all n → p.1 < n ∧ p.2 < n.
Proof. destruct p as [i j]. rewrite elem_of_cell_order. simpl. tauto. Qed.

(** Every cell of the array is written, in either mode, by the iteration
    of its own index pair or by that of the mirrored pair. *)
Lemma cell_order_last_write all n a b :
  a < n → b < n →
  ∃ q, last_write (cell_order all n) a b = Some q ∧
       (q = (a, b) ∨ q = (b, a)).
Proof.
  intros Ha Hb.
  assert (is_Some (last_write (cell_order all n) a b)) as [q Hq].
  { destruct (decide (a ≤ b)).
    - apply (last_write_is_Some _ a b (a, b)); [|by left].
      apply elem_of_cell_order. auto with lia.
    - apply (last_write_is_Some _ a b (b, a)); [|by right].
      apply elem_of_cell_order. auto with lia. }
  exists q. split; [done|]. by apply last_write_Some in Hq as [_ ?].
Qed.

Lemma cell_order_last_write_diag all n a :
  a < n → last_write (cell_order all n) a a = Some (a, a).
Proof.
  intros Ha. apply last_write_diag, elem_of_cell_order. auto with lia.
Qed.

Section filled.
Variable cell : nat → nat → result float.
Variables (all : bool) (n : nat) (m : matrix).
Hypothesis Hsq : square n m.

Lemma filled_get a b :
  a < n → b < n →
  ∃ q, (q = (a, b) ∨ q = (b, a)) ∧
       matrix_get (fill_pure cell (cell_order all n) m) a b
         = Some (cell_value cell q.1 q.2) ∧
       matrix_get (fill_pure cell (cell_order all n) m) b a
         = Some (cell_value cell q.1 q.2).
Proof.
  intros Ha Hb.
  destruct (cell_order_last_write all n a b Ha Hb) as (q & Hq & Hab).
  exists q. split; [done|].
  rewrite !(fill_pure_get cell n) by (done || apply cell_order_in_range).
  by rewrite <- (last_write_comm _ a b), Hq.
Qed.

Lemma filled_get_sym a b :
  a < n → b < n →
  matrix_get (fill_pure cell (cell_order all n) m) a b =
  matrix_get (fill_pure cell (cell_order all n) m) b a.
Proof.
  intros Ha Hb. destruct (filled_get a b Ha Hb) as (q & _ & -> & ->). done.
Qed.

Lemma filled_get_diag a :
  a < n →
  matrix_get (fill_pure cell (cell_order all n) m) a a
    = Some (cell_value cell a a).
Proof.
  intros Ha.
  rewrite (fill_pure_get cell n) by (done || apply cell_order_in_range).
  by rewrite cell_order_last_write_diag.
Qed.


End filled.





(** ** The driver *)

Section driver_facts.
Context `{Countable K}.
Variables (store_data : list (DataFrame K)) (store_id_column product_id_column : string).
Variable overlap_function : pyset K → pyset K → result float.
Variable preprocess_function : Series K → Series K.

Abbreviation n := (length store_data).
Abbreviation cell :=
  (pair_overlap store_data product_id_column overlap_function
     preprocess_function).

(** One iteration raises what computing its cell raises, and otherwise
    writes the value to the cell and to its mirror. *)
Lemma overlap_cell_step store_names i j m progress_bar :
  length store_names = n → square n m → i < n → j < n →
  match cell i j with
  | Raise e =>
      overlap_cell store_data product_id_column overlap_function
        preprocess_function store_names i j (m, progress_bar) = Raise e
  | Ok v =>
      ∃ progress_bar',
        overlap_cell store_data product_id_column overlap_function
          preprocess_function store_names i j (m, progress_bar)
        = Ok (mirror_write m i j v, progress_bar')
  end.
Proof.
  intros Hnames Hsq Hi Hj. unfold overlap_cell, pair_overlap, list_getitem.
  destruct (lookup_lt_is_Some_2 store_names i) as [n1 ->]; [lia|].
  destruct (lookup_lt_is_Some_2 store_names j) as [n2 ->]; [lia|].
  destruct (lookup_lt_is_Some_2 store_data i) as [s1 ->]; [lia|].
  destruct (lookup_lt_is_Some_2 store_data j) as [s2 ->]; [lia|].
  assert (∀ v, matrix_setitem m i j v ≫= (λ m', matrix_setitem m' j i v)
               = Ok (mirror_write m i j v)) as Hwrite.
  { intros v. rewrite (matrix_setitem_ok n) by done. simpl.
    by rewrite (matrix_setitem_ok n) by (try apply matrix_set_square; done). }
  destruct progress_bar as [bar|]; simpl;
    (destruct (getitem s1 product_id_column) as [c1|]; simpl; [|done]);
    (destruct (getitem s2 product_id_column) as [c2|]; simpl; [|done]);
    (destruct (overlap_function _ _) as [v|]; simpl; [|done]);
    specialize (Hwrite v);
    (destruct (matrix_setitem m i j v) as [m1|]; simpl in *; [|done]);
    rewrite Hwrite; by eexists.
Qed.

(** The array that the loops produce does not depend on the progress bar. *)
Lemma loop_array store_names ps m progress_bar :
  length store_names = n → square n m →
  (∀ p, p ∈ ps → p.1 < n ∧ p.2 < n) →
  fst <$> for_each ps
            (λ p, overlap_cell store_data product_id_column overlap_function
                    preprocess_function store_names p.1 p.2)
            (m, progress_bar)
  = for_each ps (fill_step cell) m.
Proof.
  intros Hnames. revert m progress_bar.
  induction ps as [|[i j] ps IH]; intros m progress_bar Hsq Hps; [done|].
  destruct (Hps (i, j)) as [Hi Hj]; [by left|]. simpl in Hi, Hj.
  pose proof (overlap_cell_step store_names i j m progress_bar
                Hnames Hsq Hi Hj) as Hstep.
  cbn [for_each fst snd].
  assert (fill_step cell (i, j) m =
            (λ v, mirror_write m i j v) <$> cell i j) as ->
    by (unfold fill_step; simpl; by destruct (cell i j)).
  destruct (cell i j) as [v|e].
  - destruct Hstep as [pb' ->]. simpl. apply IH.
    + by apply mirror_write_square.
    + intros p Hp. apply Hps. by right.
  - by rewrite Hstep.
Qed.

(** The frame that [calculate_overlap_for_stores] returns, once the store
    names are read. *)
Lemma calculate_overlap_for_stores_frame garbage progress_bar all store_names :
  list_comprehension (store_name store_id_column) store_data = Ok store_names →
  overlap_frame
    (calculate_overlap_for_stores garbage store_data store_id_column
       product_id_column overlap_function preprocess_function progress_bar all)
  = match first_raise cell (cell_order all n) with
    | Some e => Raise e
    | None =>
        Ok {| values := fill_pure cell (cell_order all n)
                          (np_empty garbage n n);
              columns := store_names;
              index := store_names |}
    end.
Proof.
  intros Hnames. unfold calculate_overlap_for_stores, overlap_frame.
  rewrite Hnames. simpl. rewrite for_each_nested.
  pose proof (loop_array store_names (cell_order all n)
                (np_empty garbage n n) progress_bar
                (list_comprehension_length _ _ _ Hnames)
                (np_empty_square garbage n)
                (cell_order_in_range all n)) as Hloop.
  rewrite fill_first_raise in Hloop.
  change (range 0 n ≫= λ r, (λ c, (r, c)) <$>
            range (if negb all then r else 0) n)
    with (cell_order all n).
  destruct (for_each _ _ _) as [[m' pb']|e]; simpl in *;
    destruct (first_raise _ _); by simplify_eq.
Qed.

Lemma calculate_overlap_for_stores_names_raise garbage progress_bar all e :
  list_comprehension (store_name store_id_column) store_data = Raise e →
  calculate_overlap_for_stores garbage store_data store_id_column
    product_id_column overlap_function preprocess_function progress_bar all
  = Raise e.
Proof.
  intros Hnames. unfold calculate_overlap_for_stores. by rewrite Hnames.
Qed.

(** The pair computation on stores whose product columns are present. *)
Lemma pair_overlap_readable i j store1 store2 :
  store_data !! i = Some store1 → store_data !! j = Some store2 →
  is_Some (store1 !! product_id_column) →
  is_Some (store2 !! product_id_column) →
  cell i j =
    overlap_function
      (Some (store_set product_id_column preprocess_function store1))
      (Some (store_set product_id_column preprocess_function store2)).
Proof.
  intros Hi Hj [c1 Hc1] [c2 Hc2].
  unfold pair_overlap, list_getitem, getitem, store_set.
  rewrite Hi, Hj. simpl. rewrite Hc1. simpl. by rewrite Hc2.
Qed.


(** On readable stores and with an overlap function that always
    returns, the driver returns the array filled in iteration order,
    labelled by the store names. *)
Lemma calculate_overlap_for_stores_readable garbage progress_bar all :
  readable_stores store_data store_id_column product_id_column →
  (∀ x y, is_Ok (overlap_function x y)) →
  ∃ store_names,
    list_comprehension (store_name store_id_column) store_data
      = Ok store_names ∧
    overlap_frame
      (calculate_overlap_for_stores garbage store_data store_id_column
         product_id_column overlap_function preprocess_function
         progress_bar all)
    = Ok {| values := fill_pure cell (cell_order all n)
                        (np_empty garbage n n);
            columns := store_names;
            index := store_names |}.
Proof.
  intros Hread Htotal.
  destruct (list_comprehension_is_Ok (store_name store_id_column) store_data)
    as [store_names Hnames]; [intros s Hs; by apply Hread|].
  exists store_names. split; [done|].
  rewrite (calculate_overlap_for_stores_frame _ _ _ store_names Hnames).
  assert (first_raise cell (cell_order all n) = None) as ->; [|done].
  apply first_raise_None. intros [i j] Hp.
  apply cell_order_in_range in Hp as [Hi Hj]. simpl in *.
  destruct (lookup_lt_is_Some_2 store_data i Hi) as [s1 Hs1].
  destruct (lookup_lt_is_Some_2 store_data j Hj) as [s2 Hs2].
  rewrite (pair_overlap_readable i j s1 s2 Hs1 Hs2).
  - apply Htotal.
  - apply Hread. by eapply list_elem_of_lookup_2.
  - apply Hread. by eapply list_elem_of_lookup_2.
Qed.

Lemma cell_value_readable i j store1 store2 v :
  readable_stores store_data store_id_column product_id_column →
  store_data !! i = Some store1 → store_data !! j = Some store2 →
  overlap_function
    (Some (store_set product_id_column preprocess_function store1))
    (Some (store_set product_id_column preprocess_function store2)) = Ok v →
  cell_value cell i j = v.
Proof.
  intros Hread Hs1 Hs2 Hv. unfold cell_value.
  rewrite (pair_overlap_readable i j store1 store2 Hs1 Hs2), Hv; [done|..];
    apply Hread; by eapply list_elem_of_lookup_2.
Qed.

End driver_facts.

Section default_metric.
Context `{Countable K}.

Lemma jaccard_index_comm (l r : pyset K) : jaccard_index l r = jaccard_index r l.
Proof. apply handle_zero_length_sets_comm, jaccard_index_core_comm. Qed.

Lemma jaccard_index_is_Ok (l r : pyset K) : is_Ok (jaccard_index l r).
Proof.
  apply handle_zero_length_sets_is_Ok. intros A B HA HB _.
  by apply (core_is_Ok A B).
Qed.

Lemma jaccard_index_self (A : gset K) :
  jaccard_index (Some A) (Some A) = Ok 1%Q.
Proof. apply dispatch_equal. Qed.

Lemma jaccard_index_one_empty (A B : gset K) :
  A = ∅ → B ≠ ∅ →
  jaccard_index (Some A) (Some B) = Ok 0%Q ∧
  jaccard_index (Some B) (Some A) = Ok 0%Q.
Proof.
  intros -> HB. rewrite (jaccard_index_comm (Some ∅)).
  split; by apply dispatch_right_empty.
Qed.

End default_metric.

(** ** The driver on columns that hold NaN *)

Section with_nan_facts.
Context `{Countable K}.
Variables (store_data : list (DataFrame (option K))).
Variables (store_id_column product_id_column : string).
Variable overlap_function
  : pyset (with_nan.scalar K) → pyset (with_nan.scalar K) → result float.
Variable preprocess_function : Series (option K) → Series (option K).

Abbreviation n := (length store_data).
Abbreviation cell :=
  (with_nan.pair_overlap store_data product_id_column overlap_function
     preprocess_function).

Lemma nan_overlap_cell_step store_names i j m progress_bar :
  length store_names = n → square n m → i < n → j < n →
  match cell i j with
  | Raise e =>
      with_nan.overlap_cell store_data product_id_column overlap_function
        preprocess_function store_names i j (m, progress_bar) = Raise e
  | Ok v =>
      ∃ progress_bar',
        with_nan.overlap_cell store_data product_id_column overlap_function
          preprocess_function store_names i j (m, progress_bar)
        = Ok (mirror_write m i j v, progress_bar')
  end.
Proof.
  intros Hnames Hsq Hi Hj.
  unfold with_nan.overlap_cell, with_nan.pair_overlap, list_getitem.
  destruct (lookup_lt_is_Some_2 store_names i) as [n1 ->]; [lia|].
  destruct (lookup_lt_is_Some_2 store_names j) as [n2 ->]; [lia|].
  destruct (lookup_lt_is_Some_2 store_data i) as [s1 ->]; [lia|].
  destruct (lookup_lt_is_Some_2 store_data j) as [s2 ->]; [lia|].
  assert (∀ v, matrix_setitem m i j v ≫= (λ m', matrix_setitem m' j i v)
               = Ok (mirror_write m i j v)) as Hwrite.
  { intros v. rewrite (matrix_setitem_ok n) by done. simpl.
    by rewrite (matrix_setitem_ok n) by (try apply matrix_set_square; done). }
  destruct progress_bar as [bar|]; simpl;
    (destruct (getitem s1 product_id_column) as [c1|]; simpl; [|done]);
    (destruct (getitem s2 product_id_column) as [c2|]; simpl; [|done]);
    (destruct (overlap_function _ _) as [v|]; simpl; [|done]);
    specialize (Hwrite v);
    (destruct (matrix_setitem m i j v) as [m1|]; simpl in *; [|done]);
    rewrite Hwrite; by eexists.
Qed.

Lemma nan_loop_array store_names ps m progress_bar :
  length store_names = n → square n m →
  (∀ p, p ∈ ps → p.1 < n ∧ p.2 < n) →
  fst <$> for_each ps
            (λ p, with_nan.overlap_cell store_data product_id_column
                    overlap_function preprocess_function store_names p.1 p.2)
            (m, progress_bar)
  = for_each ps (fill_step cell) m.
Proof.
  intros Hnames. revert m progress_bar.
  induction ps as [|[i j] ps IH]; intros m progress_bar Hsq Hps; [done|].
  destruct (Hps (i, j)) as [Hi Hj]; [by left|]. simpl in Hi, Hj.
  pose proof (nan_overlap_cell_step store_names i j m progress_bar
                Hnames Hsq Hi Hj) as Hstep.
  cbn [for_each fst snd].
  assert (fill_step cell (i, j) m =
            (λ v, mirror_write m i j v) <$> cell i j) as ->
    by (unfold fill_step; simpl; by destruct (cell i j)).
  destruct (cell i j) as [v|e].
  - destruct Hstep as [pb' ->]. simpl. apply IH.
    + by apply mirror_write_square.
    + intros p Hp. apply Hps. by right.
  - by rewrite Hstep.
Qed.

Lemma nan_calculate_overlap_for_stores_frame
    garbage progress_bar all store_names :
  list_comprehension (store_name store_id_column) store_data = Ok store_names →
  overlap_frame
    (with_nan.calculate_overlap_for_stores garbage store_data store_id_column
       product_id_column overlap_function preprocess_function progress_bar all)
  = match first_raise cell (cell_order all n) with
    | Some e => Raise e
    | None =>
        Ok {| values := fill_pure cell (cell_order all n)
                          (np_empty garbage n n);
              columns := store_names;
              index := store_names |}
    end.
Proof.
  intros Hnames. unfold with_nan.calculate_overlap_for_stores, overlap_frame.
  rewrite Hnames. simpl. rewrite for_each_nested.
  pose proof (nan_loop_array store_names (cell_order all n)
                (np_empty garbage n n) progress_bar
                (list_comprehension_length _ _ _ Hnames)
                (np_empty_square garbage n)
                (cell_order_in_range all n)) as Hloop.
  rewrite fill_first_raise in Hloop.
  change (range 0 n ≫= λ r, (λ c, (r, c)) <$>
            range (if negb all then r else 0) n)
    with (cell_order all n).
  destruct (for_each _ _ _) as [[m' pb']|e]; simpl in *;
    destruct (first_raise _ _); by simplify_eq.
Qed.

(** The pair computation on stores whose product columns are present. *)
Lemma nan_pair_overlap_readable i j store1 store2 :
  store_data !! i = Some store1 → store_data !! j = Some store2 →
  is_Some (store1 !! product_id_column) →
  is_Some (store2 !! product_id_column) →
  cell i j =
    overlap_function
      (Some (list_to_set
               (with_nan.values_objects false
                  (with_nan.product_values product_id_column
                     preprocess_function store1))))
      (Some (list_to_set
               (with_nan.values_objects true
                  (with_nan.product_values product_id_column
                     preprocess_function store2)))).
Proof.
  intros Hi Hj [c1 Hc1] [c2 Hc2].
  unfold with_nan.pair_overlap, list_getitem, getitem,
    with_nan.product_values.
  rewrite Hi, Hj. simpl. rewrite Hc1. simpl. by rewrite Hc2.
Qed.

(** On readable stores and with an overlap function that always returns,
    the driver returns the array filled in iteration order, labelled by
    the store names. *)
Lemma nan_calculate_overlap_for_stores_readable garbage progress_bar all :
  readable_stores store_data store_id_column product_id_column →
  (∀ x y, is_Ok (overlap_function x y)) →
  ∃ store_names,
    list_comprehension (store_name store_id_column) store_data
      = Ok store_names ∧
    overlap_frame
      (with_nan.calculate_overlap_for_stores garbage store_data
         store_id_column product_id_column overlap_function
         preprocess_function progress_bar all)
    = Ok {| values := fill_pure cell (cell_order all n)
                        (np_empty garbage n n);
            columns := store_names;
            index := store_names |}.
Proof.
  intros Hread Htotal.
  destruct (list_comprehension_is_Ok (store_name store_id_column) store_data)
    as [store_names Hnames]; [intros s Hs; by apply Hread|].
  exists store_names. split; [done|].
  rewrite (nan_calculate_overlap_for_stores_frame _ _ _ store_names Hnames).
  assert (first_raise cell (cell_order all n) = None) as ->; [|done].
  apply first_raise_None. intros [i j] Hp.
  apply cell_order_in_range in Hp as [Hi Hj]. simpl in *.
  destruct (lookup_lt_is_Some_2 store_data i Hi) as [s1 Hs1].
  destruct (lookup_lt_is_Some_2 store_data j Hj) as [s2 Hs2].
  rewrite (nan_pair_overlap_readable i j s1 s2 Hs1 Hs2).
  - apply Htotal.
  - apply Hread. by eapply list_elem_of_lookup_2.
  - apply Hread. by eapply list_elem_of_lookup_2.
Qed.

Lemma nan_cell_value_readable i j store1 store2 v :
  readable_stores store_data store_id_column product_id_column →
  store_data !! i = Some store1 → store_data !! j = Some store2 →
  overlap_function
    (Some (list_to_set
             (with_nan.values_objects false
                (with_nan.product_values product_id_column
                   preprocess_function store1))))
    (Some (list_to_set
             (with_nan.values_objects true
                (with_nan.product_values product_id_column
                   preprocess_function store2)))) = Ok v →
  cell_value cell i j = v.
Proof.
  intros Hread Hs1 Hs2 Hv. unfold cell_value.
  rewrite (nan_pair_overlap_readable i j store1 store2 Hs1 Hs2), Hv; [done|..];
    apply Hread; by eapply list_elem_of_lookup_2.
Qed.

End with_nan_facts.

Section values_objects_facts.
Context `{Countable K}.
Implicit Types (series : Series (option K)).

(** Without NaN the two operands get the same objects. *)
Lemma values_objects_no_nan series :
  None ∉ series →
  with_nan.values_objects false series = with_nan.values_objects true series.
Proof.
  intros Hnan. unfold with_nan.values_objects. apply imap_ext.
  intros position [k|] Hcell; [done|].
  destruct Hnan. by eapply list_elem_of_lookup_2.
Qed.

Lemma values_objects_empty operand series :
  list_to_set (C := gset (with_nan.scalar K))
    (with_nan.values_objects operand series) = ∅ ↔ series = [].
Proof.
  destruct series as [|cell series]; [done|]. split; [|done].
  unfold with_nan.values_objects. simpl. intros Hempty.
  set_solver.
Qed.

(** The diagonal under the default metric. *)
Lemma jaccard_index_values_objects_no_nan series :
  None ∉ series →
  jaccard_index
    (Some (list_to_set (with_nan.values_objects false series)))
    (Some (list_to_set (with_nan.values_objects true series))) = Ok 1%Q.
Proof.
  intros Hnan. rewrite values_objects_no_nan by done.
  apply jaccard_index_self.
Qed.

(** A store without products against another store, in either order. *)
Lemma jaccard_index_values_objects_empty operand1 operand2 series :
  (series = [] →
   jaccard_index (K := with_nan.scalar K)
     (Some (list_to_set (with_nan.values_objects operand1 [])))
     (Some (list_to_set (with_nan.values_objects operand2 series)))
   = Ok 1%Q) ∧
  (series ≠ [] →
   jaccard_index (K := with_nan.scalar K)
     (Some (list_to_set (with_nan.values_objects operand1 [])))
     (Some (list_to_set (with_nan.values_objects operand2 series)))
   = Ok 0%Q ∧
   jaccard_index (K := with_nan.scalar K)
     (Some (list_to_set (with_nan.values_objects operand2 series)))
     (Some (list_to_set (with_nan.values_objects operand1 [])))
   = Ok 0%Q).
Proof.
  split.
  - intros ->. apply jaccard_index_self.
  - intros Hne. apply jaccard_index_one_empty; [done|].
    by rewrite values_objects_empty.
Qed.

End values_objects_facts.

(** ** The claims about the driver *)

(** Claim C8, as stated, fails on a [float64] product column that holds
    NaN: the two sets built from the one store differ in their NaN objects,
    so that the store scores 1/3 against itself under [jaccard_index], not
    1.0. *)
Lemma nan_product_diagonal_is_one_third :
  readable_stores [mkstore_float 10 [Some 1%Z; None]] "store" "ean" ∧
  overlap_frame
    (with_nan.calculate_overlap_for_stores (λ _ _, 7%Q)
       [mkstore_float 10 [Some 1%Z; None]] "store" "ean"
       jaccard_index default_preprocess_function None false)
  = Ok {| values := [[(1 # 3)%Q]];
          columns := [Some 10%Z];
          index := [Some 10%Z] |}.
Proof.
  split; [|vm_compute; reflexivity].
  intros store Hin. apply list_elem_of_singleton in Hin as ->.
  split; by eexists.
Qed.

(** Claim C8 (amended): on stores whose names and product columns can be
    read, [calculate_overlap_for_stores] returns, in full-matrix mode as in
    triangular mode, a square matrix whose rows and columns are labelled by
    the store names and in which [M[i][j] = M[j][i]] for all [i], [j],
    whatever overlap function computed the values, provided it returns;
    under the default [jaccard_index] the diagonal entry of every store
    whose preprocessed product column holds no NaN is 1.0. *)
Theorem overlap_matrix_symmetric_unit_diagonal `{Countable K}
    (garbage : nat → nat → float) (store_data : list (DataFrame (option K)))
    (store_id_column product_id_column : string)
    (preprocess_function : Series (option K) → Series (option K))
    (progress_bar : option (tqdm (option K))) (calculate_all_cells : bool) :
  readable_stores store_data store_id_column product_id_column →
  (∀ overlap_function
     : pyset (with_nan.scalar K) → pyset (with_nan.scalar K) → result float,
     (∀ x y, is_Ok (overlap_function x y)) →
     ∃ frame store_names,
       overlap_frame
         (with_nan.calculate_overlap_for_stores garbage store_data
            store_id_column product_id_column overlap_function
            preprocess_function progress_bar calculate_all_cells)
       = Ok frame ∧
       list_comprehension (store_name store_id_column) store_data
         = Ok store_names ∧
       index frame = store_names ∧ columns frame = store_names ∧
       square (length store_data) (values frame) ∧
       ∀ i j, i < length store_data → j < length store_data →
         ∃ v, matrix_get (values frame) i j = Some v ∧
              matrix_get (values frame) j i = Some v) ∧
  (∃ frame,
     overlap_frame
       (with_nan.calculate_overlap_for_stores garbage store_data
          store_id_column product_id_column jaccard_index
          preprocess_function progress_bar calculate_all_cells)
     = Ok frame ∧
     ∀ i store,
       store_data !! i = Some store →
       None ∉ with_nan.product_values product_id_column
                preprocess_function store →
       matrix_get (values frame) i i = Some 1%Q).
Proof.
  intros Hread. split.
  - intros f Htotal.
    destruct (nan_calculate_overlap_for_stores_readable store_data
                store_id_column product_id_column f preprocess_function
                garbage progress_bar calculate_all_cells Hread Htotal)
      as (names & Hnames & ->).
    eexists _, names. split; [done|]. split; [done|]. simpl.
    split; [done|]. split; [done|].
    split; [apply fill_pure_square, np_empty_square|].
    intros i j Hi Hj.
    destruct (filled_get (with_nan.pair_overlap store_data product_id_column
                            f preprocess_function)
                calculate_all_cells _ _ (np_empty_square garbage _) i j Hi Hj)
      as (q & _ & Hij & Hji).
    eauto.
  - destruct (nan_calculate_overlap_for_stores_readable store_data
                store_id_column product_id_column jaccard_index
                preprocess_function garbage progress_bar calculate_all_cells
                Hread jaccard_index_is_Ok)
      as (names & Hnames & ->).
    eexists. split; [done|]. simpl. intros i store Hstore Hnan.
    pose proof (lookup_lt_Some _ _ _ Hstore) as Hi.
    rewrite (filled_get_diag _ _ (length store_data))
      by (done || apply np_empty_square).
    f_equal.
    apply (nan_cell_value_readable _ store_id_column _ _ _ i i store store);
      [done..|].
    by apply jaccard_index_values_objects_no_nan.
Qed.

Lemma stores3_float_readable : readable_stores stores3_float "store" "ean".
Proof.
  intros store Hin. unfold stores3_float in Hin.
  repeat (apply elem_of_cons in Hin as [->|Hin]);
    [split; by eexists..|by inv Hin].
Qed.

Lemma overlap_matrix_symmetric_unit_diagonal_witness :
  readable_stores stores3_float "store" "ean" ∧
  ∃ frame,
    overlap_frame
      (with_nan.calculate_overlap_for_stores (λ _ _, 7%Q) stores3_float
         "store" "ean" jaccard_index default_preprocess_function None false)
    = Ok frame ∧
    ∀ i store,
      stores3_float !! i = Some store →
      None ∉ with_nan.product_values "ean" default_preprocess_function store →
      matrix_get (values frame) i i = Some 1%Q.
Proof.
  split; [exact stores3_float_readable|].
  exact (proj2 (overlap_matrix_symmetric_unit_diagonal (λ _ _, 7%Q)
                  stores3_float "store" "ean" default_preprocess_function
                  None false stores3_float_readable)).
Defined.

Lemma stores3_readable : readable_stores stores3 "store" "ean".
Proof.
  intros store Hin. unfold stores3 in Hin.
  repeat (apply elem_of_cons in Hin as [->|Hin]);
    [split; by eexists..|by inv Hin].
Qed.

(** Claim C9, as stated, fails: a store whose frame has no rows (its
    columns are present and empty) makes [calculate_overlap_for_stores]
    raise [IndexError] when it reads the store name. *)
Lemma empty_store_raises_IndexError :
  DataFrame_wf (mkstore 10 []) 0 ∧
  calculate_overlap_for_stores (λ _ _, 7%Q) [mkstore 10 []] "store" "ean"
    jaccard_index default_preprocess_function None false = Raise IndexError ∧
  with_nan.calculate_overlap_for_stores (λ _ _, 7%Q) [mkstore_float 10 []]
    "store" "ean" jaccard_index default_preprocess_function None false
  = Raise IndexError.
Proof.
  split; [|split; reflexivity].
  intros column series Hs. unfold mkstore in Hs.
  apply lookup_insert_Some in Hs as [[_ <-]|[_ Hs]]; [done|].
  by apply lookup_singleton_Some in Hs as [_ <-].
Qed.

(** Claim C9 (amended): when every store frame has a first row in its
    store-id column and has the product column,
    [calculate_overlap_for_stores] under the default [jaccard_index] does
    not fail on empty product columns: a store whose product column is
    empty after preprocessing scores 1.0 against another such store and 0.0
    against a store with a non-empty one.  An empty store list yields the
    empty matrix, and a single readable store a 1×1 matrix, whose entry is
    1.0 when the preprocessed product column holds no NaN. *)
Theorem empty_product_sets_follow_dispatch `{Countable K}
    (garbage : nat → nat → float)
    (store_id_column product_id_column : string)
    (preprocess_function : Series (option K) → Series (option K))
    (progress_bar : option (tqdm (option K))) (calculate_all_cells : bool) :
  (∀ store_data : list (DataFrame (option K)),
     readable_stores store_data store_id_column product_id_column →
     ∃ frame,
       overlap_frame
         (with_nan.calculate_overlap_for_stores garbage store_data
            store_id_column product_id_column jaccard_index
            preprocess_function progress_bar calculate_all_cells)
       = Ok frame ∧
       square (length store_data) (values frame) ∧
       ∀ i j store1 store2,
         store_data !! i = Some store1 → store_data !! j = Some store2 →
         with_nan.product_values product_id_column preprocess_function store1
           = [] →
         (with_nan.product_values product_id_column preprocess_function store2
            = [] →
          matrix_get (values frame) i j = Some 1%Q) ∧
         (with_nan.product_values product_id_column preprocess_function store2
            ≠ [] →
          matrix_get (values frame) i j = Some 0%Q ∧
          matrix_get (values frame) j i = Some 0%Q)) ∧
  (∀ overlap_function,
     with_nan.calculate_overlap_for_stores garbage [] store_id_column
       product_id_column overlap_function preprocess_function
       progress_bar calculate_all_cells
     = Ok ({| values := []; columns := []; index := [] |}, progress_bar)) ∧
  (∀ store : DataFrame (option K),
     readable_stores [store] store_id_column product_id_column →
     ∃ name v,
       store_name store_id_column store = Ok name ∧
       overlap_frame
         (with_nan.calculate_overlap_for_stores garbage [store]
            store_id_column product_id_column jaccard_index
            preprocess_function progress_bar calculate_all_cells)
       = Ok {| values := [[v]]; columns := [name]; index := [name] |} ∧
       (None ∉ with_nan.product_values product_id_column
                 preprocess_function store →
        v = 1%Q)).
Proof.
  split; [|split].
  - intros store_data Hread.
    destruct (nan_calculate_overlap_for_stores_readable store_data
                store_id_column product_id_column jaccard_index
                preprocess_function garbage progress_bar calculate_all_cells
                Hread jaccard_index_is_Ok)
      as (names & Hnames & ->).
    eexists. split; [done|]. simpl.
    split; [apply fill_pure_square, np_empty_square|].
    intros i j s1 s2 Hs1 Hs2 Hempty1.
    pose proof (lookup_lt_Some _ _ _ Hs1) as Hi.
    pose proof (lookup_lt_Some _ _ _ Hs2) as Hj.
    destruct (filled_get (with_nan.pair_overlap store_data product_id_column
                            jaccard_index preprocess_function)
                calculate_all_cells _ _ (np_empty_square garbage _) i j Hi Hj)
      as (q & Hq & Hij & Hji).
    rewrite Hij, Hji. split.
    + intros Hempty2. f_equal. destruct Hq as [-> | ->]; simpl.
      * apply (nan_cell_value_readable _ store_id_column _ _ _ i j s1 s2);
          [done..|].
        rewrite Hempty1, Hempty2. apply jaccard_index_self.
      * apply (nan_cell_value_readable _ store_id_column _ _ _ j i s2 s1);
          [done..|].
        rewrite Hempty1, Hempty2. apply jaccard_index_self.
    + intros Hne2.
      assert (cell_value
                (with_nan.pair_overlap store_data product_id_column
                   jaccard_index preprocess_function) q.1 q.2 = 0%Q) as ->;
        [|done].
      destruct Hq as [-> | ->]; simpl.
      * apply (nan_cell_value_readable _ store_id_column _ _ _ i j s1 s2);
          [done..|].
        rewrite Hempty1.
        by apply (jaccard_index_values_objects_empty false true).
      * apply (nan_cell_value_readable _ store_id_column _ _ _ j i s2 s1);
          [done..|].
        rewrite Hempty1.
        by apply (jaccard_index_values_objects_empty true false).
  - intros f. reflexivity.
  - intros store Hread.
    destruct (nan_calculate_overlap_for_stores_readable [store]
                store_id_column product_id_column jaccard_index
                preprocess_function garbage progress_bar calculate_all_cells
                Hread jaccard_index_is_Ok)
      as (names & Hnames & ->).
    simpl in Hnames.
    destruct (store_name store_id_column store) as [name|]; [|done].
    simpl in Hnames. injection Hnames as <-.
    exists name,
      (cell_value (with_nan.pair_overlap [store] product_id_column
                     jaccard_index preprocess_function) 0 0).
    split; [done|]. split.
    + do 2 f_equal. apply (square_ext 1).
      * apply fill_pure_square, np_empty_square.
      * split; [done|]. by intros [|[|]] row [= <-].
      * intros a b Ha Hb.
        assert (a = 0) as -> by lia. assert (b = 0) as -> by lia.
        by rewrite (filled_get_diag _ _ 1) by (lia || apply np_empty_square).
    + intros Hnan.
      apply (nan_cell_value_readable _ store_id_column _ _ _ 0 0 store store);
        [done..|].
      by apply jaccard_index_values_objects_no_nan.
Qed.

Lemma stores_low_float_readable :
  readable_stores stores_low_float "store" "ean".
Proof.
  intros store Hin. unfold stores_low_float in Hin.
  repeat (apply elem_of_cons in Hin as [->|Hin]);
    [split; by eexists..|by inv Hin].
Qed.

Lemma empty_product_sets_follow_dispatch_witness :
  readable_stores stores_low_float "store" "ean" ∧
  ∃ frame,
    overlap_frame
      (with_nan.calculate_overlap_for_stores (λ _ _, 7%Q) stores_low_float
         "store" "ean" jaccard_index numbers_above_2 None false) = Ok frame ∧
    matrix_get (values frame) 0 1 = Some 1%Q ∧
    matrix_get (values frame) 0 2 = Some 0%Q ∧
    matrix_get (values frame) 2 0 = Some 0%Q.
Proof.
  split; [exact stores_low_float_readable|].
  destruct (proj1 (empty_product_sets_follow_dispatch (λ _ _, 7%Q)
                     "store" "ean" numbers_above_2 None false)
              stores_low_float stores_low_float_readable)
    as (frame & Hframe & _ & Hcells).
  exists frame. split; [exact Hframe|].
  assert (with_nan.product_values "ean" numbers_above_2
            (mkstore_float 10 [Some 1; Some 2]%Z) = []) as Hempty0
    by (vm_compute; reflexivity).
  destruct (Hcells 0 1 (mkstore_float 10 [Some 1; Some 2]%Z)
              (mkstore_float 20 [Some 2]%Z) eq_refl eq_refl Hempty0)
    as [H01 _].
  destruct (Hcells 0 2 (mkstore_float 10 [Some 1; Some 2]%Z)
              (mkstore_float 30 [Some 2; Some 3]%Z) eq_refl eq_refl Hempty0)
    as [_ H02].
  split; [apply H01; vm_compute; reflexivity|].
  apply H02. vm_compute. discriminate.
Defined.




(** * Further properties of the metrics *)

(** ** Ratios of integers *)

Lemma ratio_le (n1 d1 n2 d2 : Z) :
  (0 < d1)%Z → (0 < d2)%Z →
  (inject_Z n1 / inject_Z d1 <= inject_Z n2 / inject_Z d2)%Q ↔
  (n1 * d2 ≤ n2 * d1)%Z.
Proof.
  intros H1 H2. destruct d1 as [|p1|], d2 as [|p2|]; try lia.
  unfold Qle, Qdiv, Qmult, Qinv, inject_Z. simpl.
  rewrite !Pos.mul_1_l, !Z.mul_1_r. reflexivity.
Qed.

Lemma ratio_lt (n1 d1 n2 d2 : Z) :
  (0 < d1)%Z → (0 < d2)%Z →
  (inject_Z n1 / inject_Z d1 < inject_Z n2 / inject_Z d2)%Q ↔
  (n1 * d2 < n2 * d1)%Z.
Proof.
  intros H1 H2. destruct d1 as [|p1|], d2 as [|p2|]; try lia.
  unfold Qlt, Qdiv, Qmult, Qinv, inject_Z. simpl.
  rewrite !Pos.mul_1_l, !Z.mul_1_r. reflexivity.
Qed.

Lemma ratio_eq (n1 d1 n2 d2 : Z) :
  (0 < d1)%Z → (0 < d2)%Z →
  (inject_Z n1 / inject_Z d1 == inject_Z n2 / inject_Z d2)%Q ↔
  (n1 * d2 = n2 * d1)%Z.
Proof.
  intros H1 H2. destruct d1 as [|p1|], d2 as [|p2|]; try lia.
  unfold Qeq, Qdiv, Qmult, Qinv, inject_Z. simpl.
  rewrite !Pos.mul_1_l, !Z.mul_1_r. reflexivity.
Qed.

Lemma ratio_of_int (n : Z) : (inject_Z n == inject_Z n / inject_Z 1)%Q.
Proof. unfold Qeq, Qdiv, Qmult, Qinv, inject_Z. simpl. lia. Qed.

(** Floats in lowest terms that are numerically equal are equal. *)
Lemma Qred_eq_int (q : Q) (n : Z) : Qred q = inject_Z n ↔ (q == inject_Z n)%Q.
Proof.
  rewrite <- (Qred_eq_iff q (inject_Z n)).
  assert (Qred (inject_Z n) = inject_Z n) as ->; [|done].
  apply Qred_iff. simpl. apply Z.gcd_1_r.
Qed.

Lemma Qred_ratio_eq_int (n d k : Z) :
  (0 < d)%Z →
  Qred (inject_Z n / inject_Z d) = inject_Z k ↔ (n = k * d)%Z.
Proof.
  intros Hd. rewrite Qred_eq_int, (ratio_of_int k), ratio_eq by lia. lia.
Qed.

(** ** The values of the symmetric metrics on all inputs *)

Section metrics_view.
Context `{Countable K}.
Implicit Types (A B : gset K) (l r : pyset K).

Lemma len_intersection_eq_l A B : len (A ∩ B) = len A ↔ A ⊆ B.
Proof.
  unfold len. split.
  - intros Hsize.
    assert (A ∩ B = A) as Heq
      by (apply set_subseteq_size_eq; [set_solver|lia]).
    set_solver.
  - intros Hsub. by replace (A ∩ B) with A by set_solver.
Qed.

Lemma len_subseteq A B : A ⊆ B → (len A ≤ len B)%Z.
Proof. intros. unfold len. by apply inj_le, subseteq_size. Qed.

Lemma len_union_eq_intersection A B : len (A ∪ B) = len (A ∩ B) → A = B.
Proof.
  unfold len. intros Hsize.
  assert (A ∩ B = A ∪ B) as Heq
    by (apply set_subseteq_size_eq; [set_solver|lia]).
  set_solver.
Qed.

(** The three cases of a symmetric metric, with the core values written as
    ratios of integers. *)
Lemma symmetric_metrics_view l r :
  let A := default ∅ l in
  let B := default ∅ r in
  let I := len (A ∩ B) in
  (A = B ∧
   jaccard_similarity l r = Ok 1%Q ∧ jaccard_index l r = Ok 1%Q ∧
   dice_coefficient l r = Ok 1%Q ∧ overlap_coefficient l r = Ok 1%Q ∧
   percentage_overlap l r = Ok 100%Q) ∨
  (A ≠ B ∧ (A = ∅ ∨ B = ∅) ∧
   jaccard_similarity l r = Ok 0%Q ∧ jaccard_index l r = Ok 0%Q ∧
   dice_coefficient l r = Ok 0%Q ∧ overlap_coefficient l r = Ok 0%Q ∧
   percentage_overlap l r = Ok 0%Q) ∨
  (A ≠ ∅ ∧ B ≠ ∅ ∧ A ≠ B ∧
   jaccard_similarity l r
     = Ok (Qred (inject_Z I / inject_Z (len (A ∪ B)))) ∧
   jaccard_index l r
     = Ok (Qred (inject_Z I / inject_Z (len (A ∪ B)))) ∧
   dice_coefficient l r
     = Ok (Qred (inject_Z (2 * I) / inject_Z (len A + len B))) ∧
   overlap_coefficient l r
     = Ok (Qred (inject_Z I / inject_Z (Z.min (len A) (len B)))) ∧
   percentage_overlap l r
     = Ok (Qred (inject_Z (100 * I) / inject_Z (len A + len B)))).
Proof.
  intros A B I.
  unfold jaccard_similarity, jaccard_index, dice_coefficient,
    overlap_coefficient, percentage_overlap.
  rewrite !handle_zero_length_sets_cases. fold A B.
  destruct (decide (A = B)) as [HAB|HAB]; [left; by repeat split|].
  destruct (decide (A = ∅ ∨ B = ∅)) as [Hempty|Hne];
    [right; left; by repeat split|].
  right; right.
  assert (A ≠ ∅ ∧ B ≠ ∅) as [HA HB] by tauto.
  destruct (core_divisors_pos A B HA HB) as (HU & Hab & Hmin & Hji).
  split; [done|]. split; [done|]. split; [done|].
  split; [by apply int_truediv_ok; lia|].
  split.
  { rewrite <- jaccard_cores_agree. by apply int_truediv_ok; lia. }
  split.
  { unfold dice_coefficient_core.
    rewrite float_truediv_ok by (apply float_of_int_nonzero; lia).
    f_equal. apply Qred_complete. unfold float_mul, float_of_int.
    rewrite Qred_correct, inject_Z_mult. reflexivity. }
  split; [by apply int_truediv_ok; lia|].
  unfold percentage_overlap_core. rewrite int_truediv_ok by lia. simpl.
  f_equal. apply Qred_complete. unfold float_mul, float_of_int.
  rewrite Qred_correct, inject_Z_mult.
  assert (¬ (inject_Z (len A + len B) == 0)%Q) as Hnz
    by (apply float_of_int_nonzero; lia).
  subst I. change (inject_Z 100) with 100%Q. by field.
Qed.

End metrics_view.

Lemma ratio_nonneg (n d : Z) :
  (0 ≤ n)%Z → (0 < d)%Z → (0 <= inject_Z n / inject_Z d)%Q.
Proof.
  intros Hn Hd. change 0%Q with (inject_Z 0 / inject_Z 1)%Q.
  apply ratio_le; lia.
Qed.

Lemma ratio_le_1 (n d : Z) :
  (n ≤ d)%Z → (0 < d)%Z → (inject_Z n / inject_Z d <= 1)%Q.
Proof.
  intros Hn Hd. change 1%Q with (inject_Z 1 / inject_Z 1)%Q.
  apply ratio_le; lia.
Qed.

(** Extra X1: on every pair of inputs, absent and empty ones included, the
    Jaccard similarity (and index), the Dice coefficient and the overlap
    coefficient all return, and their values are ordered
    [0 ≤ Jaccard ≤ Dice ≤ overlap coefficient ≤ 1]. *)
Theorem symmetric_metrics_ordered_in_unit_interval `{Countable K}
    (l r : pyset K) :
  ∃ vj vd vo : float,
    jaccard_similarity l r = Ok vj ∧ jaccard_index l r = Ok vj ∧
    dice_coefficient l r = Ok vd ∧ overlap_coefficient l r = Ok vo ∧
    (0 <= vj)%Q ∧ (vj <= vd)%Q ∧ (vd <= vo)%Q ∧ (vo <= 1)%Q.
Proof.
  destruct (symmetric_metrics_view l r)
    as [(_ & -> & -> & -> & -> & _)
       |[(_ & _ & -> & -> & -> & -> & _)
        |(HA & HB & HAB & -> & -> & -> & -> & _)]].
  - exists 1%Q, 1%Q, 1%Q. by repeat split.
  - exists 0%Q, 0%Q, 0%Q. by repeat split.
  - set (A := default ∅ l) in *. set (B := default ∅ r) in *.
    destruct (core_divisors_pos A B HA HB) as (HU & Hab & Hmin & _).
    pose proof (len_union_intersection A B) as Hie.
    pose proof (len_intersection_le_l A B) as Hl.
    pose proof (len_intersection_le_r A B) as Hr.
    pose proof (len_nonneg (A ∩ B)) as HI.
    eexists _, _, _. repeat split; [..|rewrite Qred_correct];
      rewrite ?Qred_le.
    + rewrite Qred_correct. apply ratio_nonneg; lia.
    + apply ratio_le; nia.
    + apply ratio_le; nia.
    + apply ratio_le_1; lia.
Qed.

(** Extra X3: the Jaccard similarity is 1.0 exactly when the two inputs,
    absent ones read as empty, are the same set, and 0.0 exactly when they
    differ and share no element. *)
Theorem jaccard_similarity_extremes `{Countable K} (l r : pyset K) :
  (jaccard_similarity l r = Ok 1%Q ↔ default ∅ l = default ∅ r) ∧
  (jaccard_similarity l r = Ok 0%Q ↔
     default ∅ l ≠ default ∅ r ∧ default ∅ l ∩ default ∅ r = ∅).
Proof.
  destruct (symmetric_metrics_view l r)
    as [(HAB & -> & _)
       |[(HAB & Hempty & -> & _)|(HA & HB & HAB & -> & _)]].
  - split; split; try done. by intros [? _].
  - split; split; try done. intros _. split; [done|].
    destruct Hempty as [-> | ->]; set_solver.
  - set (A := default ∅ l) in *. set (B := default ∅ r) in *.
    destruct (core_divisors_pos A B HA HB) as (HU & _).
    split; split.
    + intros [= Hv]. change 1%Q with (inject_Z 1) in Hv.
      apply Qred_ratio_eq_int in Hv; [|lia].
      apply len_union_eq_intersection. lia.
    + done.
    + intros [= Hv]. change 0%Q with (inject_Z 0) in Hv.
      apply Qred_ratio_eq_int in Hv; [|lia].
      split; [done|]. by apply len_zero_iff.
    + intros [_ Hdisj]. f_equal. change 0%Q with (inject_Z 0).
      apply Qred_ratio_eq_int; [lia|]. by apply len_zero_iff in Hdisj as ->.
Qed.

(** Extra X4: the overlap coefficient is 1.0 exactly when the two inputs are
    the same set or both are non-empty and one contains the other; an empty
    set against a non-empty one scores 0.0 although it is contained in it. *)
Theorem overlap_coefficient_is_one `{Countable K} (l r : pyset K) :
  overlap_coefficient l r = Ok 1%Q ↔
    default ∅ l = default ∅ r ∨
    (default ∅ l ≠ ∅ ∧ default ∅ r ≠ ∅ ∧
     (default ∅ l ⊆ default ∅ r ∨ default ∅ r ⊆ default ∅ l)).
Proof.
  destruct (symmetric_metrics_view l r)
    as [(HAB & _ & _ & _ & -> & _)
       |[(HAB & Hempty & _ & _ & _ & -> & _)
        |(HA & HB & HAB & _ & _ & _ & -> & _)]].
  - split; [by left|done].
  - split; [done|]. intros [?|(? & ? & _)]; [done|tauto].
  - set (A := default ∅ l) in *. set (B := default ∅ r) in *.
    destruct (core_divisors_pos A B HA HB) as (_ & _ & Hmin & _).
    pose proof (len_intersection_le_l A B) as Hl.
    pose proof (len_intersection_le_r A B) as Hr.
    split.
    + intros [= Hv]. change 1%Q with (inject_Z 1) in Hv.
      apply Qred_ratio_eq_int in Hv; [|lia].
      right. split; [done|]. split; [done|].
      destruct (Z.min_spec (len A) (len B)) as [[_ Hm]|[_ Hm]].
      * left. apply len_intersection_eq_l. lia.
      * right. apply len_intersection_eq_l.
        rewrite (comm_L (∩) B A). lia.
    + intros [?|(_ & _ & Hsub)]; [done|]. f_equal.
      change 1%Q with (inject_Z 1). apply Qred_ratio_eq_int; [lia|].
      destruct Hsub as [Hsub|Hsub].
      * pose proof (len_subseteq _ _ Hsub).
        apply len_intersection_eq_l in Hsub. lia.
      * pose proof (len_subseteq _ _ Hsub).
        apply len_intersection_eq_l in Hsub.
        rewrite (comm_L (∩) B A) in Hsub. lia.
Qed.

(** Extra X5: [percentage_overlap] returns 100.0 exactly when the two
    inputs, absent ones read as empty, are the same set, and otherwise a
    value from 0 up to, but never reaching, 50: no pair of sets scores
    between 50 and 100. *)
Theorem percentage_overlap_gap `{Countable K} (l r : pyset K) :
  (default ∅ l = default ∅ r ∧ percentage_overlap l r = Ok 100%Q) ∨
  (default ∅ l ≠ default ∅ r ∧
   ∃ v : float, percentage_overlap l r = Ok v ∧ (0 <= v)%Q ∧ (v < 50)%Q).
Proof.
  destruct (symmetric_metrics_view l r)
    as [(HAB & _ & _ & _ & _ & ->)
       |[(HAB & Hempty & _ & _ & _ & _ & ->)
        |(HA & HB & HAB & _ & _ & _ & _ & ->)]].
  - by left.
  - right. split; [done|]. exists 0%Q. by repeat split.
  - right. split; [done|].
    set (A := default ∅ l) in *. set (B := default ∅ r) in *.
    destruct (core_divisors_pos A B HA HB) as (_ & Hab & _).
    pose proof (len_intersection_le_l A B) as Hl.
    pose proof (len_intersection_le_r A B) as Hr.
    pose proof (len_nonneg (A ∩ B)) as HI.
    assert (len (A ∩ B) ≠ len A ∨ len (A ∩ B) ≠ len B) as Hstrict.
    { destruct (decide (len (A ∩ B) = len A)) as [Ea|]; [|by left].
      destruct (decide (len (A ∩ B) = len B)) as [Eb|]; [|by right].
      exfalso. apply HAB. apply len_intersection_eq_l in Ea.
      rewrite (comm_L (∩) A B) in Eb. apply len_intersection_eq_l in Eb.
      set_solver. }
    eexists. split; [done|]. rewrite Qred_correct. split.
    + apply ratio_nonneg; lia.
    + change 50%Q with (inject_Z 50 / inject_Z 1)%Q. apply ratio_lt; lia.
Qed.

Lemma asymmetrical_overlap_ratio `{Countable K} (A B : gset K) :
  A ≠ ∅ →
  asymmetrical_overlap (Some A) (Some B)
    = Ok (Qred (inject_Z (len (A ∩ B)) / inject_Z (len A))).
Proof.
  intros HA. apply len_pos in HA. apply int_truediv_ok. lia.
Qed.

(** Extra X6: for a non-empty [A], [asymmetrical_overlap(A, B)] lies
    between 0 and 1; it is 1.0 exactly when [A] is contained in [B] and 0.0
    exactly when [A] and [B] share no element. *)
Theorem asymmetrical_overlap_range `{Countable K} (A B : gset K) :
  A ≠ ∅ →
  ∃ v : float,
    asymmetrical_overlap (Some A) (Some B) = Ok v ∧
    (0 <= v)%Q ∧ (v <= 1)%Q ∧
    (v = 1%Q ↔ A ⊆ B) ∧ (v = 0%Q ↔ A ∩ B = ∅).
Proof.
  intros HA. rewrite asymmetrical_overlap_ratio by done.
  pose proof (len_pos A HA) as Ha.
  pose proof (len_intersection_le_l A B) as Hl.
  pose proof (len_nonneg (A ∩ B)) as HI.
  eexists. split; [done|].
  split; [rewrite Qred_correct; apply ratio_nonneg; lia|].
  split; [rewrite Qred_correct; apply ratio_le_1; lia|].
  split.
  - change 1%Q with (inject_Z 1). rewrite Qred_ratio_eq_int by lia.
    rewrite <- len_intersection_eq_l. lia.
  - change 0%Q with (inject_Z 0). rewrite Qred_ratio_eq_int by lia.
    rewrite <- len_zero_iff. lia.
Qed.

Lemma asymmetrical_overlap_range_witness :
  s23 ≠ ∅ ∧
  ∃ v : float,
    asymmetrical_overlap (Some s23) (Some s123) = Ok v ∧
    (0 <= v)%Q ∧ (v <= 1)%Q ∧
    (v = 1%Q ↔ s23 ⊆ s123) ∧ (v = 0%Q ↔ s23 ∩ s123 = ∅).
Proof.
  assert (s23 ≠ ∅) as Hne by refute_by_computation.
  split; [exact Hne|]. exact (asymmetrical_overlap_range s23 s123 Hne).
Defined.

(** Extra X7: each symmetric metric treats an absent argument, in either
    position, exactly like an empty set, whereas [asymmetrical_overlap]
    raises on an absent argument: [AttributeError] for the left one,
    [TypeError] for the right one. *)
Theorem absent_argument_is_empty_set `{Countable K} (x : pyset K) (A : gset K) :
  (jaccard_similarity None x = jaccard_similarity (Some ∅) x ∧
   jaccard_similarity x None = jaccard_similarity x (Some ∅)) ∧
  (jaccard_index None x = jaccard_index (Some ∅) x ∧
   jaccard_index x None = jaccard_index x (Some ∅)) ∧
  (dice_coefficient None x = dice_coefficient (Some ∅) x ∧
   dice_coefficient x None = dice_coefficient x (Some ∅)) ∧
  (overlap_coefficient None x = overlap_coefficient (Some ∅) x ∧
   overlap_coefficient x None = overlap_coefficient x (Some ∅)) ∧
  (percentage_overlap None x = percentage_overlap (Some ∅) x ∧
   percentage_overlap x None = percentage_overlap x (Some ∅)) ∧
  asymmetrical_overlap None x = Raise AttributeError ∧
  asymmetrical_overlap (Some A) None = Raise TypeError.
Proof.
  unfold jaccard_similarity, jaccard_index, dice_coefficient,
    overlap_coefficient, percentage_overlap.
  rewrite !handle_zero_length_sets_cases. by repeat split.
Qed.

(** Extra X8: on two non-empty sets the overlap coefficient is the larger
    of the two asymmetrical overlaps. *)
Theorem overlap_coefficient_is_max_asymmetrical `{Countable K}
    (A B : gset K) :
  A ≠ ∅ → B ≠ ∅ →
  ∃ v1 v2 : float,
    asymmetrical_overlap (Some A) (Some B) = Ok v1 ∧
    asymmetrical_overlap (Some B) (Some A) = Ok v2 ∧
    overlap_coefficient (Some A) (Some B) = Ok (Qmax v1 v2).
Proof.
  intros HA HB. rewrite !asymmetrical_overlap_ratio by done.
  pose proof (len_pos A HA) as Ha. pose proof (len_pos B HB) as Hb.
  pose proof (len_intersection_le_l A B) as Hl.
  pose proof (len_intersection_le_r A B) as Hr.
  pose proof (len_nonneg (A ∩ B)) as HI.
  eexists _, _. split; [done|]. split; [done|].
  rewrite (comm_L (∩) B A).
  set (v1 := Qred (inject_Z (len (A ∩ B)) / inject_Z (len A))).
  set (v2 := Qred (inject_Z (len (A ∩ B)) / inject_Z (len B))).
  assert (overlap_coefficient (Some A) (Some B)
          = Ok (if decide (len A ≤ len B)%Z then v1 else v2)) as ->.
  { destruct (symmetric_metrics_view (Some A) (Some B))
      as [(HAB & _ & _ & _ & -> & _)
         |[(_ & Hempty & _)|(_ & _ & _ & _ & _ & _ & -> & _)]];
      simpl in *.
    - subst B. rewrite decide_True by lia. f_equal. symmetry.
      change 1%Q with (inject_Z 1). apply Qred_ratio_eq_int; [lia|].
      replace (A ∩ A) with A by set_solver. lia.
    - tauto.
    - case_decide.
      + by rewrite Z.min_l by lia.
      + by rewrite Z.min_r by lia. }
  f_equal. unfold Qmax, GenericMinMax.gmax.
  destruct (v1 ?= v2)%Q eqn:Hcmp.
  - apply Qeq_alt in Hcmp. case_decide; [done|].
    unfold v1, v2 in *. rewrite !Qred_correct in Hcmp.
    by apply Qred_complete.
  - apply Qlt_alt in Hcmp. unfold v1, v2 in Hcmp.
    rewrite Qred_lt, ratio_lt in Hcmp by lia.
    case_decide; [nia|done].
  - apply Qgt_alt in Hcmp. unfold v1, v2 in Hcmp.
    rewrite Qred_lt, ratio_lt in Hcmp by lia.
    case_decide; [done|nia].
Qed.

Lemma overlap_coefficient_is_max_asymmetrical_witness :
  (s123 ≠ ∅ ∧ s23 ≠ ∅) ∧
  ∃ v1 v2 : float,
    asymmetrical_overlap (Some s123) (Some s23) = Ok v1 ∧
    asymmetrical_overlap (Some s23) (Some s123) = Ok v2 ∧
    overlap_coefficient (Some s123) (Some s23) = Ok (Qmax v1 v2).
Proof.
  assert (s123 ≠ ∅ ∧ s23 ≠ ∅) as Hne by (split; refute_by_computation).
  split; [exact Hne|]. destruct Hne as [H1 H2].
  exact (overlap_coefficient_is_max_asymmetrical s123 s23 H1 H2).
Defined.


(** * Further properties of the batch driver *)

Lemma last_write_app l1 l2 a b :
  last_write (l1 ++ l2) a b =
    match last_write l2 a b with
    | Some q => Some q
    | None => last_write l1 a b
    end.
Proof.
  induction l1 as [|p l1 IH]; simpl.
  - by destruct (last_write l2 a b).
  - rewrite IH. by destruct (last_write l2 a b).
Qed.

Lemma last_write_None ps a b :
  (∀ p, p ∈ ps → ¬ (p = (a, b) ∨ p = (b, a))) → last_write ps a b = None.
Proof.
  intros Hps. destruct (last_write ps a b) as [q|] eqn:E; [|done].
  apply last_write_Some in E as [Hin Hq]. exfalso. by eapply Hps.
Qed.

(** In triangular mode a cell is written once, by the iteration of its
    upper-triangle pair. *)
Lemma cell_order_false_last_write n a b :
  a ≤ b → b < n → last_write (cell_order false n) a b = Some (a, b).
Proof.
  intros Hab Hb.
  destruct (cell_order_last_write false n a b) as (q & Hq & Hcase);
    [lia..|].
  rewrite Hq. f_equal. apply last_write_Some in Hq as [Hin _].
  destruct Hcase as [-> | ->]; [done|].
  apply elem_of_cell_order in Hin as (_ & _ & Hle).
  specialize (Hle eq_refl). assert (a = b) as -> by lia. done.
Qed.

(** In full mode the last write to a cell is by the iteration of its
    lower-triangle pair. *)
Lemma cell_order_true_last_write n a b :
  a ≤ b → b < n → last_write (cell_order true n) a b = Some (b, a).
Proof.
  intros Hab Hb. destruct (decide (a = b)) as [->|Hne].
  { by apply cell_order_last_write_diag. }
  unfold cell_order. rewrite range_0.
  replace (seq 0 n) with (seq 0 b ++ b :: seq (S b) (n - S b)).
  2:{ change (b :: seq (S b) (n - S b)) with (seq (0 + b) (S (n - S b))).
      rewrite <- seq_app. f_equal. lia. }
  rewrite bind_app, bind_cons, !last_write_app.
  assert (last_write (seq (S b) (n - S b) ≫= row_cells true n) a b = None)
    as ->.
  { apply last_write_None. intros [i j] Hin Hcase.
    apply list_elem_of_bind in Hin as (k & Hin & Hk).
    apply elem_of_seq in Hk. unfold row_cells in Hin.
    apply list_elem_of_fmap in Hin as (c & Heq & _).
    destruct Hcase; simplify_eq; lia. }
  destruct (last_write_is_Some (row_cells true n b) a b (b, a)) as [q Hq].
  { unfold row_cells. apply list_elem_of_fmap. exists a. split; [done|].
    apply elem_of_range. simpl. lia. }
  { by right. }
  rewrite Hq. f_equal. apply last_write_Some in Hq as [Hin Hcase].
  unfold row_cells in Hin. apply list_elem_of_fmap in Hin as (c & Heq & _).
  destruct Hcase; simplify_eq; done.
Qed.

(** Once every cell is written, what the array held before is gone. *)
Lemma fill_pure_overwrites cell all n m1 m2 :
  square n m1 → square n m2 →
  fill_pure cell (cell_order all n) m1 = fill_pure cell (cell_order all n) m2.
Proof.
  intros Hsq1 Hsq2.
  apply (square_ext n); [by apply fill_pure_square..|].
  intros a b Ha Hb.
  rewrite !(fill_pure_get cell n) by (done || apply cell_order_in_range).
  by destruct (cell_order_last_write all n a b Ha Hb) as (q & -> & _).
Qed.

Lemma first_raise_all_same cell ps e :
  (∀ p e', p ∈ ps → cell p.1 p.2 = Raise e' → e' = e) →
  (∃ p, p ∈ ps ∧ ¬ is_Ok (cell p.1 p.2)) →
  first_raise cell ps = Some e.
Proof.
  intros Hsame (p & Hin & Hp).
  induction ps as [|p' ps IH]; [by inv Hin|]. simpl.
  destruct (cell p'.1 p'.2) as [v|e'] eqn:E.
  - apply IH.
    + intros q e'' Hq. apply Hsame. by right.
    + inv Hin; [|done]. exfalso. apply Hp. by eexists.
  - f_equal. eapply Hsame; [by left|done].
Qed.

Section driver_more.
Context `{Countable K}.
Variables (store_data : list (DataFrame K)) (store_id_column product_id_column : string).
Variable overlap_function : pyset K → pyset K → result float.
Variable preprocess_function : Series K → Series K.

(** As [calculate_overlap_for_stores_readable], for an overlap function
    that returns on the sets of the stores at hand. *)
Lemma calculate_overlap_for_stores_returns garbage progress_bar all :
  readable_stores store_data store_id_column product_id_column →
  (∀ store1 store2, store1 ∈ store_data → store2 ∈ store_data →
     is_Ok (overlap_function
              (Some (store_set product_id_column preprocess_function store1))
              (Some (store_set product_id_column preprocess_function store2)))) →
  ∃ store_names,
    list_comprehension (store_name store_id_column) store_data
      = Ok store_names ∧
    overlap_frame
      (calculate_overlap_for_stores garbage store_data store_id_column
         product_id_column overlap_function preprocess_function
         progress_bar all)
    = Ok {| values :=
              fill_pure
                (pair_overlap store_data product_id_column overlap_function
                   preprocess_function)
                (cell_order all (length store_data))
                (np_empty garbage (length store_data) (length store_data));
            columns := store_names;
            index := store_names |}.
Proof.
  intros Hread Hcells.
  destruct (list_comprehension_is_Ok (store_name store_id_column) store_data)
    as [store_names Hnames]; [intros s Hs; by apply Hread|].
  exists store_names. split; [done|].
  rewrite (calculate_overlap_for_stores_frame _ _ _ _ _ _ _ _ store_names
             Hnames).
  match goal with
  | |- match ?fr with _ => _ end = _ => assert (fr = None) as ->; [|done]
  end.
  apply first_raise_None. intros [i j] Hp.
  apply cell_order_in_range in Hp as [Hi Hj]. simpl in *.
  destruct (lookup_lt_is_Some_2 store_data i Hi) as [s1 Hs1].
  destruct (lookup_lt_is_Some_2 store_data j Hj) as [s2 Hs2].
  pose proof (list_elem_of_lookup_2 _ _ _ Hs1) as Hin1.
  pose proof (list_elem_of_lookup_2 _ _ _ Hs2) as Hin2.
  rewrite (pair_overlap_readable _ _ _ _ i j s1 s2 Hs1 Hs2);
    [by apply Hcells|by apply Hread..].
Qed.

(** An iteration that returns has advanced a given progress bar by one. *)
Lemma overlap_cell_bar store_names i j m progress_bar m' progress_bar' :
  overlap_cell store_data product_id_column overlap_function
    preprocess_function store_names i j (m, progress_bar)
  = Ok (m', progress_bar') →
  match progress_bar with
  | Some bar => ∃ bar', progress_bar' = Some bar' ∧ n bar' = n bar + 1
  | None => progress_bar' = None
  end.
Proof.
  unfold overlap_cell.
  destruct progress_bar as [bar|]; simpl;
    repeat match goal with
      | |- context [list_getitem ?l ?k] =>
          destruct (list_getitem l k); simpl; [|done]
      | |- context [getitem ?s ?c] =>
          destruct (getitem s c); simpl; [|done]
      | |- context [overlap_function ?x ?y] =>
          destruct (overlap_function x y); simpl; [|done]
      | |- context [matrix_setitem ?a ?b ?c ?d] =>
          destruct (matrix_setitem a b c d); simpl; [|done]
      end;
    intros [= <- <-]; [by eexists|done].
Qed.

Lemma for_each_bar store_names ps m progress_bar m' progress_bar' :
  for_each ps
    (λ p, overlap_cell store_data product_id_column overlap_function
            preprocess_function store_names p.1 p.2)
    (m, progress_bar)
  = Ok (m', progress_bar') →
  match progress_bar with
  | Some bar =>
      ∃ bar', progress_bar' = Some bar' ∧ n bar' = n bar + length ps
  | None => progress_bar' = None
  end.
Proof.
  revert m progress_bar.
  induction ps as [|p ps IH]; intros m progress_bar; cbn [for_each].
  - intros [= <- <-]. destruct progress_bar; [|done].
    eexists. split; [done|simpl; lia].
  - destruct (overlap_cell store_data product_id_column overlap_function
                preprocess_function store_names p.1 p.2 (m, progress_bar))
      as [[m1 pb1]|] eqn:E; cbn [mbind result_bind]; [|done].
    apply overlap_cell_bar in E. intros Hrest. apply IH in Hrest.
    destruct progress_bar as [bar|].
    + destruct E as (bar1 & -> & Hn1).
      destruct Hrest as (bar' & -> & Hn'). exists bar'.
      split; [done|simpl; lia].
    + by subst pb1.
Qed.

End driver_more.

Lemma length_rows_prefix_true n k :
  length (seq 0 k ≫= row_cells true n) = k * n.
Proof.
  induction k as [|k IH]; [done|].
  rewrite seq_S, bind_app, bind_singleton, length_app, IH.
  unfold row_cells, range. rewrite length_fmap, length_seq. simpl. lia.
Qed.

Lemma length_rows_prefix_false n k :
  k ≤ n →
  2 * length (seq 0 k ≫= row_cells false n) + k * k = 2 * k * n + k.
Proof.
  induction k as [|k IH]; intros Hk; [done|].
  rewrite seq_S, bind_app, bind_singleton, length_app.
  unfold row_cells at 2. unfold range.
  rewrite length_fmap, length_seq. simpl negb. cbv iota.
  specialize (IH ltac:(lia)). nia.
Qed.

Lemma length_cell_order_true n : length (cell_order true n) = n * n.
Proof. unfold cell_order. rewrite range_0. apply length_rows_prefix_true. Qed.

Lemma length_cell_order_false n :
  2 * length (cell_order false n) = n * (n + 1).
Proof.
  unfold cell_order. rewrite range_0.
  pose proof (length_rows_prefix_false n n ltac:(lia)). nia.
Qed.

(** Extra X9: the unconditional mirroring makes the matrix hold, for each
    pair of stores [i ≤ j], a single value in both cells: in triangular
    mode the overlap computed with store [i] as the left set, and in
    full-matrix mode the one computed last, with store [j] as the left
    set.  So an overlap function that is not symmetric gives different
    matrices in the two modes. *)
Theorem mirrored_cells_by_mode `{Countable K}
    (garbage : nat → nat → float) (store_data : list (DataFrame K))
    (store_id_column product_id_column : string)
    (overlap_function : pyset K → pyset K → result float)
    (preprocess_function : Series K → Series K)
    (progress_bar : option (tqdm K)) (calculate_all_cells : bool) :
  readable_stores store_data store_id_column product_id_column →
  (∀ store1 store2, store1 ∈ store_data → store2 ∈ store_data →
     is_Ok (overlap_function
              (Some (store_set product_id_column preprocess_function store1))
              (Some (store_set product_id_column preprocess_function store2)))) →
  ∃ frame,
    overlap_frame
      (calculate_overlap_for_stores garbage store_data store_id_column
         product_id_column overlap_function preprocess_function
         progress_bar calculate_all_cells) = Ok frame ∧
    ∀ i j store1 store2,
      i ≤ j →
      store_data !! i = Some store1 → store_data !! j = Some store2 →
      ∃ v,
        (if calculate_all_cells
         then overlap_function
                (Some (store_set product_id_column preprocess_function store2))
                (Some (store_set product_id_column preprocess_function store1))
         else overlap_function
                (Some (store_set product_id_column preprocess_function store1))
                (Some (store_set product_id_column preprocess_function store2)))
        = Ok v ∧
        matrix_get (values frame) i j = Some v ∧
        matrix_get (values frame) j i = Some v.
Proof.
  intros Hread Hcells.
  destruct (calculate_overlap_for_stores_returns store_data store_id_column
              product_id_column overlap_function preprocess_function
              garbage progress_bar calculate_all_cells Hread Hcells)
    as (names & _ & ->).
  eexists. split; [done|]. simpl.
  intros i j s1 s2 Hij Hs1 Hs2.
  pose proof (lookup_lt_Some _ _ _ Hs1) as Hi.
  pose proof (lookup_lt_Some _ _ _ Hs2) as Hj.
  pose proof (list_elem_of_lookup_2 _ _ _ Hs1) as Hin1.
  pose proof (list_elem_of_lookup_2 _ _ _ Hs2) as Hin2.
  rewrite !(fill_pure_get _ (length store_data))
    by (apply np_empty_square || apply cell_order_in_range).
  rewrite (last_write_comm _ j i).
  destruct calculate_all_cells.
  - rewrite cell_order_true_last_write by done. simpl.
    destruct (Hcells s2 s1 Hin2 Hin1) as [v Hv]. exists v.
    split; [done|].
    by rewrite (cell_value_readable _ store_id_column _ _ _ j i s2 s1 v).
  - rewrite cell_order_false_last_write by done. simpl.
    destruct (Hcells s1 s2 Hin1 Hin2) as [v Hv]. exists v.
    split; [done|].
    by rewrite (cell_value_readable _ store_id_column _ _ _ i j s1 s2 v).
Qed.

Lemma stores3_asymmetrical_overlap_returns store1 store2 :
  store1 ∈ stores3 → store2 ∈ stores3 →
  is_Ok (asymmetrical_overlap
           (Some (store_set "ean" default_preprocess_function store1))
           (Some (store_set "ean" default_preprocess_function store2))).
Proof.
  intros Hin1 _. eexists. apply asymmetrical_overlap_ratio.
  unfold stores3 in Hin1.
  repeat (apply elem_of_cons in Hin1 as [->|Hin1]);
    [refute_by_computation..|by inv Hin1].
Qed.

Lemma mirrored_cells_by_mode_witness :
  readable_stores stores3 "store" "ean" ∧
  ∃ frame,
    overlap_frame
      (calculate_overlap_for_stores (λ _ _, 7%Q) stores3 "store" "ean"
         asymmetrical_overlap default_preprocess_function None true)
    = Ok frame ∧
    matrix_get (values frame) 0 2 = Some 1%Q ∧
    matrix_get (values frame) 2 0 = Some 1%Q.
Proof.
  split; [exact stores3_readable|].
  destruct (mirrored_cells_by_mode (λ _ _, 7%Q) stores3 "store" "ean"
              asymmetrical_overlap default_preprocess_function None true
              stores3_readable stores3_asymmetrical_overlap_returns)
    as (frame & Hframe & Hcells).
  exists frame. split; [exact Hframe|].
  destruct (Hcells 0 2 (mkstore 10 [1; 2; 3]%Z) (mkstore 30 [2; 3]%Z)
              ltac:(lia) eq_refl eq_refl) as (v & Hv & H02 & H20).
  assert (v = 1%Q) as -> by (vm_compute in Hv; congruence).
  by split.
Defined.

(** Extra X10: the returned frame depends neither on what the array from
    [np.empty] held nor on the progress bar: every cell is overwritten
    before the frame is built. *)
Theorem frame_ignores_uninitialised_array `{Countable K}
    (garbage1 garbage2 : nat → nat → float) (store_data : list (DataFrame K))
    (store_id_column product_id_column : string)
    (overlap_function : pyset K → pyset K → result float)
    (preprocess_function : Series K → Series K)
    (progress_bar1 progress_bar2 : option (tqdm K))
    (calculate_all_cells : bool) :
  overlap_frame
    (calculate_overlap_for_stores garbage1 store_data store_id_column
       product_id_column overlap_function preprocess_function
       progress_bar1 calculate_all_cells)
  = overlap_frame
      (calculate_overlap_for_stores garbage2 store_data store_id_column
         product_id_column overlap_function preprocess_function
         progress_bar2 calculate_all_cells).
Proof.
  destruct (list_comprehension (store_name store_id_column) store_data)
    as [names|e] eqn:Hnames.
  - rewrite !(calculate_overlap_for_stores_frame _ _ _ _ _ _ _ _ names Hnames).
    destruct (first_raise _ _); [done|]. do 2 f_equal.
    apply fill_pure_overwrites; apply np_empty_square.
  - by rewrite !(calculate_overlap_for_stores_names_raise _ _ _ _ _ _ _ _ e).
Qed.

(** Extra X11: when the driver returns, a given progress bar has been
    advanced once per computed pair: by [N·N] in full-matrix mode and by
    [N·(N+1)/2] in triangular mode for [N] stores; without a progress bar
    none is made up. *)
Theorem progress_bar_advances_once_per_pair `{Countable K}
    (garbage : nat → nat → float) (store_data : list (DataFrame K))
    (store_id_column product_id_column : string)
    (overlap_function : pyset K → pyset K → result float)
    (preprocess_function : Series K → Series K)
    (progress_bar : option (tqdm K)) (calculate_all_cells : bool)
    (frame : MatrixFrame K) (progress_bar' : option (tqdm K)) :
  calculate_overlap_for_stores garbage store_data store_id_column
    product_id_column overlap_function preprocess_function
    progress_bar calculate_all_cells = Ok (frame, progress_bar') →
  match progress_bar with
  | Some bar =>
      ∃ bar', progress_bar' = Some bar' ∧
        if calculate_all_cells
        then n bar' = n bar + length store_data * length store_data
        else 2 * n bar'
             = 2 * n bar + length store_data * (length store_data + 1)
  | None => progress_bar' = None
  end.
Proof.
  unfold calculate_overlap_for_stores.
  destruct (list_comprehension _ _) as [names|]; simpl; [|done].
  rewrite for_each_nested.
  change (range 0 (length store_data) ≫= λ r, (λ c, (r, c)) <$>
            range (if negb calculate_all_cells then r else 0)
              (length store_data))
    with (cell_order calculate_all_cells (length store_data)).
  destruct (for_each _ _ _) as [[m1 pb1]|] eqn:E; simpl; [|done].
  intros [= <- <-]. apply for_each_bar in E.
  destruct progress_bar as [bar|]; [|done].
  destruct E as (bar' & -> & Hn). exists bar'. split; [done|].
  destruct calculate_all_cells.
  - by rewrite length_cell_order_true in Hn.
  - pose proof (length_cell_order_false (length store_data)). lia.
Qed.

Lemma progress_bar_advances_once_per_pair_witness :
  ∃ frame progress_bar',
    calculate_overlap_for_stores (λ _ _, 7%Q) stores3 "store" "ean"
      jaccard_index default_preprocess_function
      (Some {| description := None; n := 5 |}) false
    = Ok (frame, progress_bar') ∧
    ∃ bar', progress_bar' = Some bar' ∧ n bar' = 11.
Proof.
  destruct (calculate_overlap_for_stores (λ _ _, 7%Q) stores3 "store" "ean"
              jaccard_index default_preprocess_function
              (Some {| description := None; n := 5 |}) false)
    as [[frame pb']|e] eqn:E; [|vm_compute in E; discriminate].
  exists frame, pb'. split; [reflexivity|].
  destruct (progress_bar_advances_once_per_pair _ _ _ _ _ _ _ _ _ _ E)
    as (bar' & -> & Hn).
  exists bar'. split; [reflexivity|]. simpl in Hn. lia.
Defined.

Lemma list_comprehension_first_raise {A B} (f : A → result B) l1 x l2 e :
  (∀ y, y ∈ l1 → is_Ok (f y)) → f x = Raise e →
  list_comprehension f (l1 ++ x :: l2) = Raise e.
Proof.
  intros Hl1 Hx. induction l1 as [|y l1 IH]; simpl.
  - by rewrite Hx.
  - destruct (Hl1 y) as [b ->]; [by left|]. simpl.
    rewrite IH; [done|]. intros z Hz. apply Hl1. by right.
Qed.

(** Extra X12: the store names are read before any overlap is computed:
    the first store whose name cannot be read decides the outcome, whatever
    the overlap function, the mode and the later stores.  A store without
    the store-id column raises [KeyError] for that column, and a store
    whose store-id column has no rows raises [IndexError]. *)
Theorem unreadable_store_name_raises_first `{Countable K}
    (garbage : nat → nat → float)
    (stores_before : list (DataFrame K)) (store : DataFrame K)
    (stores_after : list (DataFrame K))
    (store_id_column product_id_column : string)
    (overlap_function : pyset K → pyset K → result float)
    (preprocess_function : Series K → Series K)
    (progress_bar : option (tqdm K)) (calculate_all_cells : bool) :
  (∀ s, s ∈ stores_before → is_Ok (store_name store_id_column s)) →
  (store !! store_id_column = None →
   calculate_overlap_for_stores garbage
     (stores_before ++ store :: stores_after) store_id_column
     product_id_column overlap_function preprocess_function
     progress_bar calculate_all_cells
   = Raise (KeyError store_id_column)) ∧
  (store !! store_id_column = Some [] →
   calculate_overlap_for_stores garbage
     (stores_before ++ store :: stores_after) store_id_column
     product_id_column overlap_function preprocess_function
     progress_bar calculate_all_cells
   = Raise IndexError).
Proof.
  intros Hbefore. split; intros Hcol;
    apply calculate_overlap_for_stores_names_raise,
      list_comprehension_first_raise; try done;
    unfold store_name, getitem; by rewrite Hcol.
Qed.

Lemma unreadable_store_name_raises_first_witness :
  (∀ s, s ∈ [mkstore 10 [1; 2]%Z] → is_Ok (store_name "store" s)) ∧
  mkstore 20 [] !! "store" = Some [] ∧
  calculate_overlap_for_stores (λ _ _, 7%Q)
    ([mkstore 10 [1; 2]%Z] ++ mkstore 20 [] :: [store_without_ean])
    "store" "ean" jaccard_index default_preprocess_function None false
  = Raise IndexError.
Proof.
  assert (∀ s, s ∈ [mkstore 10 [1; 2]%Z] → is_Ok (store_name "store" s))
    as Hbefore.
  { intros s Hs. apply list_elem_of_singleton in Hs as ->. by eexists. }
  split; [exact Hbefore|]. split; [reflexivity|].
  exact (proj2 (unreadable_store_name_raises_first (λ _ _, 7%Q)
                  [mkstore 10 [1; 2]%Z] (mkstore 20 []) [store_without_ean]
                  "store" "ean" jaccard_index default_preprocess_function
                  None false Hbefore) eq_refl).
Defined.

(** Extra X13: when all store names can be read and the overlap function
    always returns, a single store without the product column makes the
    driver raise [KeyError] for that column, in either mode. *)
Theorem missing_product_column_raises_KeyError `{Countable K}
    (garbage : nat → nat → float) (store_data : list (DataFrame K))
    (store_id_column product_id_column : string)
    (overlap_function : pyset K → pyset K → result float)
    (preprocess_function : Series K → Series K)
    (progress_bar : option (tqdm K)) (calculate_all_cells : bool)
    (store : DataFrame K) :
  (∀ s, s ∈ store_data → is_Ok (store_name store_id_column s)) →
  (∀ x y, is_Ok (overlap_function x y)) →
  store ∈ store_data → store !! product_id_column = None →
  calculate_overlap_for_stores garbage store_data store_id_column
    product_id_column overlap_function preprocess_function
    progress_bar calculate_all_cells
  = Raise (KeyError product_id_column).
Proof.
  intros Hnames Htotal Hin Hcol.
  destruct (list_comprehension_is_Ok (store_name store_id_column) store_data
              Hnames) as [names Hn].
  pose proof (calculate_overlap_for_stores_frame store_data store_id_column
                product_id_column overlap_function preprocess_function
                garbage progress_bar calculate_all_cells names Hn) as Hframe.
  rewrite (first_raise_all_same _ _ (KeyError product_id_column)) in Hframe.
  - unfold overlap_frame in Hframe.
    by destruct (calculate_overlap_for_stores _ _ _ _ _ _ _ _) as [[? ?]|];
      simplify_eq/=.
  - intros [i j] e' Hp. apply cell_order_in_range in Hp as [Hi Hj].
    simpl in *. unfold pair_overlap, list_getitem, getitem.
    destruct (lookup_lt_is_Some_2 store_data i Hi) as [s1 ->].
    destruct (lookup_lt_is_Some_2 store_data j Hj) as [s2 ->]. simpl.
    destruct (s1 !! product_id_column); simpl; [|congruence].
    destruct (s2 !! product_id_column); simpl; [|congruence].
    destruct (Htotal (Some (list_to_set (preprocess_function l)))
                (Some (list_to_set (preprocess_function l0)))) as [v ->].
    done.
  - apply list_elem_of_lookup_1 in Hin as [k Hk].
    pose proof (lookup_lt_Some _ _ _ Hk) as Hlt.
    exists (k, k). split; [apply elem_of_cell_order; auto with lia|].
    simpl. unfold pair_overlap, list_getitem, getitem.
    rewrite Hk. simpl. rewrite Hcol. simpl. by intros [v ?].
Qed.

Lemma missing_product_column_raises_KeyError_witness :
  (∀ s, s ∈ [mkstore 10 [1; 2]%Z; store_without_ean] →
     is_Ok (store_name "store" s)) ∧
  store_without_ean ∈ [mkstore 10 [1; 2]%Z; store_without_ean] ∧
  store_without_ean !! "ean" = None ∧
  calculate_overlap_for_stores (λ _ _, 7%Q)
    [mkstore 10 [1; 2]%Z; store_without_ean] "store" "ean" jaccard_index
    default_preprocess_function None true
  = Raise (KeyError "ean").
Proof.
  assert (∀ s, s ∈ [mkstore 10 [1; 2]%Z; store_without_ean] →
            is_Ok (store_name "store" s)) as Hnames.
  { intros s Hs. repeat (apply elem_of_cons in Hs as [->|Hs]);
      [by eexists..|by inv Hs]. }
  assert (store_without_ean ∈ [mkstore 10 [1; 2]%Z; store_without_ean])
    as Hin by (right; left).
  split; [exact Hnames|]. split; [exact Hin|]. split; [reflexivity|].
  exact (missing_product_column_raises_KeyError (λ _ _, 7%Q)
           [mkstore 10 [1; 2]%Z; store_without_ean] "store" "ean"
           jaccard_index default_preprocess_function None true
           store_without_ean Hnames jaccard_index_is_Ok Hin eq_refl).
Defined.


(** * Properties of the preprocessing functions *)

Section split_facts.
Context {C : Type} `{EqDecision C}.
Implicit Types (sep : C) (s : list C) (pieces : list (list C)).

Lemma str_split_not_nil sep s : str_split sep s ≠ [].
Proof.
  destruct s as [|c s]; simpl; [done|].
  case_decide; [done|]. by destruct (str_split sep s).
Qed.

Lemma str_join_cons sep piece pieces :
  pieces ≠ [] →
  str_join sep (piece :: pieces) = piece ++ sep :: str_join sep pieces.
Proof. by destruct pieces. Qed.

Lemma str_join_split sep s : str_join sep (str_split sep s) = s.
Proof.
  induction s as [|c s IH]; [done|]. cbn [str_split].
  pose proof (str_split_not_nil sep s) as Hne.
  case_decide as Hc.
  - subst c. rewrite str_join_cons by done. simpl. by rewrite IH.
  - destruct (str_split sep s) as [|piece pieces]; [done|].
    destruct pieces as [|piece' pieces]; simpl in *; by rewrite <- IH.
Qed.

Lemma str_split_sep_free sep s :
  Forall (λ piece, sep ∉ piece) (str_split sep s).
Proof.
  induction s as [|c s IH]; cbn [str_split].
  - repeat constructor. by intros ?%elem_of_nil.
  - case_decide as Hc.
    + constructor; [by intros ?%elem_of_nil|done].
    + destruct (str_split sep s) as [|piece pieces];
        [repeat constructor; set_solver|].
      inv IH. constructor; [|done]. set_solver.
Qed.

Lemma length_str_split sep s :
  length (str_split sep s) = S (str_count sep s).
Proof.
  unfold str_count. induction s as [|c s IH]; [done|]. cbn [str_split].
  rewrite filter_cons. case_decide as Hc; simpl.
  - by rewrite IH.
  - pose proof (str_split_not_nil sep s).
    destruct (str_split sep s); simpl in *; [done|lia].
Qed.

Lemma str_split_sep_free_piece sep s : sep ∉ s → str_split sep s = [s].
Proof.
  induction s as [|c s IH]; intros Hs; [done|]. cbn [str_split].
  rewrite decide_False by set_solver. rewrite IH by set_solver. done.
Qed.

Lemma str_split_app_sep sep piece s :
  sep ∉ piece →
  str_split sep (piece ++ sep :: s) = piece :: str_split sep s.
Proof.
  induction piece as [|c piece IH]; intros Hp; simpl.
  - by rewrite decide_True.
  - rewrite decide_False by set_solver. by rewrite IH by set_solver.
Qed.

Lemma str_split_join sep pieces :
  pieces ≠ [] → Forall (λ piece, sep ∉ piece) pieces →
  str_split sep (str_join sep pieces) = pieces.
Proof.
  intros Hne Hfree. induction Hfree as [|piece pieces Hp Hfree IH]; [done|].
  destruct pieces as [|piece' pieces].
  - simpl. by apply str_split_sep_free_piece.
  - rewrite str_join_cons by done.
    rewrite str_split_app_sep by done. by rewrite IH.
Qed.

(** What [explode] makes of the cells that [str.split] produces. *)
Lemma split_strings_cells (column : list (option (list C))) sep :
  split_strings column sep =
    column ≫= λ cell,
      match cell with
      | None => [None]
      | Some text => Some <$> str_split sep text
      end.
Proof.
  unfold split_strings, explode.
  induction column as [|cell column IH]; [done|].
  rewrite fmap_cons, !bind_cons, IH. f_equal.
  destruct cell as [text|]; simpl; [|done].
  pose proof (str_split_not_nil sep text).
  by destruct (str_split sep text).
Qed.

End split_facts.

(** Extra X14: [str.split] with a one-character separator, as
    [split_strings] applies it to each string, loses nothing: joining the
    pieces with the separator gives the string back, no piece contains the
    separator, and there is one piece more than separators; conversely, a
    non-empty list of separator-free pieces is what splitting their join
    gives. *)
Theorem str_split_join_round_trip {C} `{EqDecision C}
    (sep : C) (s : list C) (pieces : list (list C)) :
  str_join sep (str_split sep s) = s ∧
  Forall (λ piece, sep ∉ piece) (str_split sep s) ∧
  length (str_split sep s) = S (str_count sep s) ∧
  (pieces ≠ [] → Forall (λ piece, sep ∉ piece) pieces →
   str_split sep (str_join sep pieces) = pieces).
Proof.
  split; [apply str_join_split|].
  split; [apply str_split_sep_free|].
  split; [apply length_str_split|].
  apply str_split_join.
Qed.

Lemma str_split_join_round_trip_witness :
  ([str "ab"; str ""; str "c"] ≠ [] ∧
   Forall (λ piece, ","%char ∉ piece) [str "ab"; str ""; str "c"]) ∧
  str_split ","%char (str_join ","%char [str "ab"; str ""; str "c"])
    = [str "ab"; str ""; str "c"].
Proof.
  assert ([str "ab"; str ""; str "c"] ≠ [] ∧
          Forall (λ piece, ","%char ∉ piece) [str "ab"; str ""; str "c"])
    as Hp.
  { split; [done|]. repeat constructor; refute_by_computation. }
  split; [exact Hp|]. destruct Hp as [Hne Hfree].
  exact (proj2 (proj2 (proj2
           (str_split_join_round_trip ","%char [] [str "ab"; str ""; str "c"])))
           Hne Hfree).
Defined.

(** Extra X15: [split_strings] yields one row per piece: as many rows as
    the column has cells plus separators in its strings; no token contains
    the separator; a missing value stays one missing value and no other
    arises; the result is empty only for an empty column (an empty string
    yields the empty token). *)
Theorem split_strings_tokens {C} `{EqDecision C}
    (string_column : list (option (list C))) (separator : C) :
  length (split_strings string_column separator)
    = length string_column
      + sum_list_with (λ cell, from_option (str_count separator) 0 cell)
          string_column ∧
  (∀ token, Some token ∈ split_strings string_column separator →
            separator ∉ token) ∧
  (None ∈ split_strings string_column separator ↔ None ∈ string_column) ∧
  (split_strings string_column separator = [] ↔ string_column = []).
Proof.
  rewrite split_strings_cells.
  induction string_column as [|cell column (IHlen & IHtok & IHnone & IHnil)].
  - split; [done|]. split; [by intros ? ?%elem_of_nil|].
    split; [|done]. split; by intros ?%elem_of_nil.
  - rewrite bind_cons. split; [|split; [|split]].
    + rewrite length_app, IHlen. simpl.
      destruct cell as [text|]; simpl; [|lia].
      rewrite length_fmap, length_str_split. lia.
    + intros token [Hin|Hin]%elem_of_app; [|by apply IHtok].
      destruct cell as [text|]; [|by apply list_elem_of_singleton in Hin].
      apply list_elem_of_fmap in Hin as (piece & [= ->] & Hin).
      pose proof (str_split_sep_free separator text) as Hfree.
      rewrite Forall_forall in Hfree. by apply Hfree.
    + rewrite elem_of_app, elem_of_cons, IHnone.
      destruct cell as [text|].
      * split; [intros [Hin|?]; [|by right]|intros [?|?]; [done|by right]].
        by apply list_elem_of_fmap in Hin as (? & ? & _).
      * split; intros _; left; [done|by apply list_elem_of_singleton].
    + split; [|done]. intros Hnil. apply app_eq_nil in Hnil as [Hnil _].
      destruct cell as [text|]; [|done].
      apply fmap_nil_inv in Hnil. by apply str_split_not_nil in Hnil.
Qed.

Lemma omap_id_Some {T} (l : list T) : omap id (Some <$> l) = l.
Proof. induction l as [|x l IH]; csimpl; [done|]. by rewrite IH. Qed.

(** On a column of strings, [split_strings] is [tokenize_strings] with
    [str.split] as the tokenizer. *)
Lemma split_strings_is_tokenize_strings {C} `{EqDecision C}
    (strings : list (list C)) (separator : C) :
  split_strings (Some <$> strings) separator
  = tokenize_strings strings (str_split separator).
Proof.
  unfold split_strings, tokenize_strings. f_equal.
  by rewrite <- list_fmap_compose.
Qed.

(** Extra X16: [tokenize_strings] yields, in row order, the tokens of each
    string, and one missing value for each string without tokens: its
    length is the sum over the strings of [max(1, number of tokens)]; the
    values that are not missing are exactly the tokens; a missing value
    occurs exactly when some string has no token; the result is empty only
    for an empty column. *)
Theorem tokenize_strings_rows {C T}
    (string_column : list (list C)) (tokenizer : list C → list T) :
  length (tokenize_strings string_column tokenizer)
    = sum_list_with (λ text, max 1 (length (tokenizer text))) string_column ∧
  omap id (tokenize_strings string_column tokenizer)
    = string_column ≫= tokenizer ∧
  (None ∈ tokenize_strings string_column tokenizer ↔
     ∃ text, text ∈ string_column ∧ tokenizer text = []) ∧
  (tokenize_strings string_column tokenizer = [] ↔ string_column = []).
Proof.
  unfold tokenize_strings, explode.
  induction string_column as [|text column (IHlen & IHtok & IHnone & IHnil)].
  - split; [done|]. split; [done|]. split; [|done].
    split; [by intros ?%elem_of_nil|]. intros (? & ?%elem_of_nil & _). done.
  - rewrite fmap_cons, bind_cons. split; [|split; [|split]].
    + rewrite length_app, IHlen. simpl.
      destruct (tokenizer text) as [|x xs]; simpl; [done|].
      by rewrite length_fmap.
    + rewrite omap_app, IHtok, bind_cons. f_equal.
      destruct (tokenizer text) as [|x xs]; [done|].
      apply omap_id_Some.
    + rewrite elem_of_app, IHnone. split.
      * intros [Hin|(text' & Hin & Hnil)].
        -- exists text. split; [by left|].
           destruct (tokenizer text) as [|x xs]; [done|].
           by apply list_elem_of_fmap in Hin as (? & ? & _).
        -- exists text'. split; [by right|done].
      * intros (text' & Hin & Hnil). inv Hin.
        -- left. rewrite Hnil. by apply list_elem_of_singleton.
        -- right. by exists text'.
    + split; [|done]. intros Hnil. apply app_eq_nil in Hnil as [Hnil _].
      by destruct (tokenizer text).
Qed.


(** * Properties of the file names and of the keyword filter *)

Section str_facts.
Context {C : Type} `{EqDecision C}.
Implicit Types (s p a b : list C).

Lemma startswith_app p b : startswith (p ++ b) p = true.
Proof. apply bool_decide_eq_true_2. by exists b. Qed.

Lemma endswith_app a p : endswith (a ++ p) p = true.
Proof. apply bool_decide_eq_true_2. by exists a. Qed.

Lemma str_contains_prefix s p : p `prefix_of` s → str_contains s p = true.
Proof. intros Hp. destruct s; simpl; by rewrite bool_decide_eq_true_2. Qed.

Lemma str_contains_app a p b : str_contains (a ++ p ++ b) p = true.
Proof.
  induction a as [|c a IH]; simpl.
  - apply str_contains_prefix. by exists b.
  - rewrite IH. apply orb_true_r.
Qed.

Lemma startswith_trans s p q :
  p `prefix_of` q → startswith s q = true → startswith s p = true.
Proof.
  unfold startswith. rewrite !bool_decide_eq_true. intros ??. by etrans.
Qed.

End str_facts.

(** Extra X17: every file name that [get_feature_filename] builds is kept
    by the filter of [get_features_files_in_directory] called with the same
    project prefix and feature-file suffix and the default extension
    [".parquet"]: a feature file written under that name in the directory is
    found again. *)
Theorem feature_files_are_found
    (listdir : list ascii → list (list ascii)) (directory : list ascii)
    (feature_extractor_type supermarket_name : list ascii)
    (project_prefix feature_file_suffix : list ascii) :
  get_feature_filename feature_extractor_type supermarket_name
    project_prefix feature_file_suffix ∈ listdir directory →
  get_feature_filename feature_extractor_type supermarket_name
    project_prefix feature_file_suffix
  ∈ get_features_files_in_directory listdir directory
      project_prefix feature_file_suffix default_extension.
Proof.
  intros Hin. unfold get_features_files_in_directory.
  apply list_elem_of_filter. split; [|done].
  unfold get_feature_filename, default_extension.
  apply andb_prop_intro. split; [apply andb_prop_intro; split|];
    apply Is_true_true.
  - rewrite (assoc_L (++) project_prefix). apply startswith_app.
  - replace (project_prefix ++ str "_" ++ str_lower supermarket_name ++
               str "_" ++ feature_extractor_type ++ str "_" ++
               feature_file_suffix ++ str ".parquet")
      with ((project_prefix ++ str "_" ++ str_lower supermarket_name ++
               str "_" ++ feature_extractor_type) ++
            (str "_" ++ feature_file_suffix) ++ str ".parquet")
      by (by rewrite <- !(assoc_L (++))).
    apply str_contains_app.
  - replace (project_prefix ++ str "_" ++ str_lower supermarket_name ++
               str "_" ++ feature_extractor_type ++ str "_" ++
               feature_file_suffix ++ str ".parquet")
      with ((project_prefix ++ str "_" ++ str_lower supermarket_name ++
               str "_" ++ feature_extractor_type ++ str "_" ++
               feature_file_suffix) ++ str ".parquet")
      by (by rewrite <- !(assoc_L (++))).
    apply endswith_app.
Qed.

Lemma feature_files_are_found_witness :
  let listing := λ _ : list ascii,
    [str "notes.txt"; str "ssi_plus_tfidf_word_features.parquet"] in
  get_feature_filename (str "tfidf_word") (str "Plus")
    default_project_prefix default_feature_file_suffix
    ∈ listing (str "features") ∧
  get_feature_filename (str "tfidf_word") (str "Plus")
    default_project_prefix default_feature_file_suffix
  ∈ get_features_files_in_directory listing (str "features")
      default_project_prefix default_feature_file_suffix default_extension.
Proof.
  intros listing.
  assert (get_feature_filename (str "tfidf_word") (str "Plus")
            default_project_prefix default_feature_file_suffix
            ∈ listing (str "features")) as Hin.
  { right. vm_compute. left. }
  split; [exact Hin|].
  exact (feature_files_are_found listing (str "features") (str "tfidf_word")
           (str "Plus") default_project_prefix default_feature_file_suffix
           Hin).
Defined.

(** Extra X18: [get_kwargs_with_prefix] keeps a keyword argument, with its
    value, exactly when its name starts with the prefix; so the empty
    prefix keeps all of them, and selecting with a prefix and then with a
    longer one starting with it is selecting with the longer one. *)
Theorem get_kwargs_with_prefix_narrows {V}
    (prefix longer : list ascii) (kwargs : gmap (list ascii) V) :
  (∀ key value,
     get_kwargs_with_prefix prefix kwargs !! key = Some value ↔
     kwargs !! key = Some value ∧ startswith key prefix = true) ∧
  get_kwargs_with_prefix [] kwargs = kwargs ∧
  (prefix `prefix_of` longer →
   get_kwargs_with_prefix longer (get_kwargs_with_prefix prefix kwargs)
   = get_kwargs_with_prefix longer kwargs).
Proof.
  assert (∀ pre (kw : gmap (list ascii) V) key value,
            get_kwargs_with_prefix pre kw !! key = Some value ↔
            kw !! key = Some value ∧ startswith key pre = true) as Hlookup.
  { intros. unfold get_kwargs_with_prefix.
    by rewrite map_lookup_filter_Some. }
  split; [apply Hlookup|]. split.
  - apply map_eq. intros key. apply option_eq. intros value.
    rewrite Hlookup. split; [tauto|]. intros Hk. split; [done|].
    apply bool_decide_eq_true_2, prefix_nil.
  - intros Hpre. apply map_eq. intros key. apply option_eq. intros value.
    rewrite !Hlookup. split; [tauto|]. intros [Hk Hlong].
    split; [|done]. split; [done|]. by eapply startswith_trans.
Qed.

Lemma get_kwargs_with_prefix_narrows_witness :
  let kwargs : gmap (list ascii) nat :=
    {[ str "fit_alpha" := 1; str "fit_beta" := 2; str "predict_k" := 3 ]} in
  str "fit_" `prefix_of` str "fit_a" ∧
  get_kwargs_with_prefix (str "fit_a")
    (get_kwargs_with_prefix (str "fit_") kwargs)
  = get_kwargs_with_prefix (str "fit_a") kwargs.
Proof.
  intros kwargs.
  assert (str "fit_" `prefix_of` str "fit_a") as Hpre by (by exists (str "a")).
  split; [exact Hpre|].
  exact (proj2 (proj2 (get_kwargs_with_prefix_narrows (str "fit_")
                         (str "fit_a") kwargs)) Hpre).
Defined.


(** * Properties of [batched_writer] *)

(** The number of batches: the length divided by the batch size, rounded
    up. *)
Lemma ceil_div_bounds (n b : nat) :
  0 < b →
  n ≤ (n + b - 1) / b * b ∧ (n + b - 1) / b * b < n + b.
Proof.
  intros Hb.
  pose proof (Nat.div_mod_eq (n + b - 1) b) as Hdm.
  pose proof (Nat.mod_upper_bound (n + b - 1) b ltac:(lia)) as Hmod.
  nia.
Qed.

Section batches_facts.
Context {R : Type}.
Implicit Types (dataframe : list R).

Lemma concat_slices b m dataframe :
  length dataframe ≤ m * b →
  concat ((λ k, take b (drop (k * b) dataframe)) <$> seq 0 m) = dataframe.
Proof.
  revert dataframe. induction m as [|m IH]; intros dataframe Hlen.
  - by destruct dataframe; simpl in *; [|lia].
  - cbn [seq]. rewrite fmap_cons. cbn [concat]. rewrite <- fmap_S_seq.
    rewrite <- list_fmap_compose.
    assert (((λ k, take b (drop (k * b) dataframe)) ∘ S) <$> seq 0 m
            = (λ k, take b (drop (k * b) (drop b dataframe))) <$> seq 0 m)
      as ->.
    { apply list_fmap_ext. intros i k _. simpl. by rewrite drop_drop. }
    rewrite IH by (rewrite length_drop; lia). apply take_drop.
Qed.

Lemma batches_slices dataframe batch_size :
  (0 < batch_size)%Z →
  batches dataframe batch_size =
    (λ k, take (Z.to_nat batch_size)
            (drop (k * Z.to_nat batch_size) dataframe))
      <$> seq 0 ((length dataframe + Z.to_nat batch_size - 1)
                 / Z.to_nat batch_size).
Proof.
  intros Hb. unfold batches, range_from_0.
  rewrite decide_False, decide_False by lia.
  by rewrite <- list_fmap_compose.
Qed.

Lemma length_batches dataframe batch_size :
  (0 < batch_size)%Z →
  length (batches dataframe batch_size)
    = (length dataframe + Z.to_nat batch_size - 1) / Z.to_nat batch_size.
Proof.
  intros Hb. by rewrite batches_slices, length_fmap, length_seq.
Qed.

Lemma batches_lookup dataframe batch_size k batch :
  (0 < batch_size)%Z →
  batches dataframe batch_size !! k = Some batch →
  k * Z.to_nat batch_size < length dataframe ∧
  batch = take (Z.to_nat batch_size)
            (drop (k * Z.to_nat batch_size) dataframe).
Proof.
  intros Hb. rewrite batches_slices by done. rewrite list_lookup_fmap.
  destruct (seq _ _ !! k) as [k'|] eqn:Hk; [|done]. simpl. intros [= <-].
  apply lookup_seq in Hk as [-> Hk]. simpl. split; [|done].
  destruct (ceil_div_bounds (length dataframe) (Z.to_nat batch_size))
    as [_ Hup]; [lia|]. nia.
Qed.

End batches_facts.

(** Extra X19: for a positive batch size the batches that [batched_writer]
    slices off the data frame partition it: put one after the other they
    are the data frame; each has at least one and at most [batch_size]
    rows, and every batch but the last has exactly [batch_size]; their
    number is the number of rows divided by the batch size, rounded up. *)
Theorem batches_partition {R} (dataframe : list R) (batch_size : Z) :
  (0 < batch_size)%Z →
  concat (batches dataframe batch_size) = dataframe ∧
  Forall (λ batch, 0 < length batch ≤ Z.to_nat batch_size)
    (batches dataframe batch_size) ∧
  (∀ k batch,
     batches dataframe batch_size !! k = Some batch →
     S k < length (batches dataframe batch_size) →
     length batch = Z.to_nat batch_size) ∧
  length (batches dataframe batch_size)
    = (length dataframe + Z.to_nat batch_size - 1) / Z.to_nat batch_size.
Proof.
  intros Hb. split; [|split; [|split]].
  - rewrite batches_slices by done. apply concat_slices.
    apply ceil_div_bounds. lia.
  - apply Forall_lookup. intros k batch Hk.
    apply batches_lookup in Hk as [Hlt ->]; [|done].
    rewrite length_take, length_drop. lia.
  - intros k batch Hk Hlast. rewrite length_batches in Hlast by done.
    apply batches_lookup in Hk as [Hlt ->]; [|done].
    rewrite length_take, length_drop.
    destruct (ceil_div_bounds (length dataframe) (Z.to_nat batch_size))
      as [_ Hup]; [lia|]. nia.
  - by apply length_batches.
Qed.

Lemma batches_partition_witness :
  (0 < 3)%Z ∧
  concat (batches [1; 2; 3; 4; 5; 6; 7] 3) = [1; 2; 3; 4; 5; 6; 7] ∧
  length (batches [1; 2; 3; 4; 5; 6; 7] 3) = 3.
Proof.
  assert (0 < 3)%Z as Hb by lia. split; [exact Hb|].
  destruct (batches_partition [1; 2; 3; 4; 5; 6; 7] 3 Hb)
    as (Hconcat & _ & _ & Hlen).
  split; [exact Hconcat|exact Hlen].
Defined.

Lemma range_from_0_pos stop step :
  (0 < step)%Z →
  range_from_0 stop step
  = inr ((λ k, k * Z.to_nat step)
           <$> seq 0 ((stop + Z.to_nat step - 1) / Z.to_nat step)).
Proof.
  intros Hs. unfold range_from_0. by rewrite decide_False, decide_False by lia.
Qed.

(** For a non-empty data frame the loop visits index 0 first and never
    again. *)
Lemma range_from_0_cons stop step :
  (0 < step)%Z → 0 < stop →
  ∃ rest, range_from_0 stop step = inr (0 :: rest) ∧ 0 ∉ rest.
Proof.
  intros Hs Hstop. rewrite range_from_0_pos by done.
  destruct (ceil_div_bounds stop (Z.to_nat step)) as [Hlow _]; [lia|].
  destruct ((stop + Z.to_nat step - 1) / Z.to_nat step) as [|m]; [lia|].
  eexists. split; [done|].
  intros Hin. apply list_elem_of_fmap in Hin as (k & Hk & Hin).
  apply elem_of_seq in Hin. nia.
Qed.

Lemma range_from_0_empty step indices :
  range_from_0 0 step = inr indices → indices = [].
Proof.
  unfold range_from_0. repeat case_decide; intros [= <-]; [done|].
  rewrite Nat.div_small by lia. done.
Qed.

Section writer_facts.
Context {R T S : Type} `{EqDecision S}.
Variable schema : T → S.
Variables (dataframe : list R) (batch_size : Z).
Variable process_batch : list R → progress → T * progress.

(** The table made of a batch does not depend on the progress bar. *)
Variable table_of : list R → T.
Hypothesis process_batch_table :
  ∀ batch bar, (process_batch batch bar).1 = table_of batch.

Lemma write_batch_first writer bar :
  ∃ bar',
    write_batch schema dataframe batch_size process_batch 0
      {| st_writer := writer; st_bar := bar |}
    = ({| st_writer :=
            Some {| writer_schema :=
                      schema (table_of (iloc_slice dataframe 0 batch_size));
                    tables := [table_of (iloc_slice dataframe 0 batch_size)];
                    is_closed := false |};
          st_bar := bar' |}, None).
Proof.
  unfold write_batch, write_table. simpl.
  rewrite process_batch_table, decide_True by done. by eexists.
Qed.

Lemma write_batch_matching i writer bar :
  i ≠ 0 →
  schema (table_of (iloc_slice dataframe i batch_size))
    = writer_schema writer →
  ∃ bar',
    write_batch schema dataframe batch_size process_batch i
      {| st_writer := Some writer; st_bar := bar |}
    = ({| st_writer :=
            Some {| writer_schema := writer_schema writer;
                    tables := tables writer
                              ++ [table_of (iloc_slice dataframe i batch_size)];
                    is_closed := is_closed writer |};
          st_bar := bar' |}, None).
Proof.
  intros Hi Hschema. unfold write_batch, write_table. simpl.
  rewrite process_batch_table, decide_False, decide_True by done.
  by eexists.
Qed.

Lemma write_batch_mismatch i writer bar :
  i ≠ 0 →
  schema (table_of (iloc_slice dataframe i batch_size))
    ≠ writer_schema writer →
  ∃ bar',
    write_batch schema dataframe batch_size process_batch i
      {| st_writer := Some writer; st_bar := bar |}
    = ({| st_writer := Some writer; st_bar := bar' |}, Some ValueError).
Proof.
  intros Hi Hschema. unfold write_batch, write_table. simpl.
  rewrite process_batch_table, decide_False, decide_False by done.
  by eexists.
Qed.

Lemma write_batches_matching indices writer bar :
  0 ∉ indices →
  Forall (λ i, schema (table_of (iloc_slice dataframe i batch_size))
               = writer_schema writer) indices →
  ∃ bar',
    write_batches schema dataframe batch_size process_batch indices
      {| st_writer := Some writer; st_bar := bar |}
    = ({| st_writer :=
            Some {| writer_schema := writer_schema writer;
                    tables := tables writer
                              ++ ((λ i, table_of
                                          (iloc_slice dataframe i batch_size))
                                    <$> indices);
                    is_closed := is_closed writer |};
          st_bar := bar' |}, None).
Proof.
  revert writer bar.
  induction indices as [|i indices IH]; intros writer bar Hzero Hall.
  - exists bar. simpl. rewrite app_nil_r. by destruct writer.
  - inv Hall. cbn [write_batches].
    destruct (write_batch_matching i writer bar) as [bar1 ->];
      [set_solver|done|].
    destruct (IH {| writer_schema := writer_schema writer;
                    tables := tables writer
                              ++ [table_of (iloc_slice dataframe i batch_size)];
                    is_closed := is_closed writer |} bar1)
      as [bar' ->]; [set_solver|done|].
    exists bar'. simpl. by rewrite <- (assoc_L (++)).
Qed.

Lemma write_batches_mismatch matching i later writer bar :
  0 ∉ matching → i ≠ 0 →
  Forall (λ i, schema (table_of (iloc_slice dataframe i batch_size))
               = writer_schema writer) matching →
  schema (table_of (iloc_slice dataframe i batch_size))
    ≠ writer_schema writer →
  ∃ bar',
    write_batches schema dataframe batch_size process_batch
      (matching ++ i :: later)
      {| st_writer := Some writer; st_bar := bar |}
    = ({| st_writer :=
            Some {| writer_schema := writer_schema writer;
                    tables := tables writer
                              ++ ((λ i, table_of
                                          (iloc_slice dataframe i batch_size))
                                    <$> matching);
                    is_closed := is_closed writer |};
          st_bar := bar' |}, Some ValueError).
Proof.
  revert writer bar.
  induction matching as [|j matching IH]; intros writer bar Hzero Hi Hall Hbad.
  - cbn [app write_batches].
    destruct (write_batch_mismatch i writer bar) as [bar' ->]; [done..|].
    exists bar'. simpl. rewrite app_nil_r. by destruct writer.
  - inv Hall. cbn [app write_batches].
    destruct (write_batch_matching j writer bar) as [bar1 ->];
      [set_solver|done|].
    destruct (IH {| writer_schema := writer_schema writer;
                    tables := tables writer
                              ++ [table_of (iloc_slice dataframe j batch_size)];
                    is_closed := is_closed writer |} bar1)
      as [bar' ->]; [set_solver|done..|].
    exists bar'. simpl. by rewrite <- (assoc_L (++)).
Qed.

End writer_facts.

Section writer_run.
Context {R T S : Type} `{EqDecision S}.
Variable schema : T → S.
Variables (dataframe : list R) (batch_size : Z).
Variable process_batch : list R → progress → T * progress.
Variable table_of : list R → T.

(** The loop over a non-empty data frame whose batches all give tables of
    the schema of the first: the writer is opened on the first batch and
    every table is written to it. *)
Lemma write_batches_uniform :
  (0 < batch_size)%Z → dataframe ≠ [] →
  (∀ batch bar, (process_batch batch bar).1 = table_of batch) →
  (∀ batch, batch ∈ batches dataframe batch_size →
     schema (table_of batch)
     = schema (table_of (take (Z.to_nat batch_size) dataframe))) →
  ∃ indices bar,
    range_from_0 (length dataframe) batch_size = inr indices ∧
    write_batches schema dataframe batch_size process_batch indices
      {| st_writer := None;
         st_bar := {| bar_total := length dataframe; bar_n := 0 |} |}
    = ({| st_writer :=
            Some {| writer_schema :=
                      schema (table_of
                                (take (Z.to_nat batch_size) dataframe));
                    tables := table_of <$> batches dataframe batch_size;
                    is_closed := false |};
          st_bar := bar |}, None).
Proof.
  intros Hb Hne Htable Hschema.
  destruct (range_from_0_cons (length dataframe) batch_size)
    as (rest & Hrange & Hzero); [done|by destruct dataframe; simpl; [|lia]|].
  unfold batches in *. rewrite Hrange in Hschema. rewrite Hrange.
  exists (0 :: rest). cbn [write_batches].
  destruct (write_batch_first schema dataframe batch_size process_batch
              table_of Htable None
              {| bar_total := length dataframe; bar_n := 0 |}) as [bar1 ->].
  destruct (write_batches_matching schema dataframe batch_size process_batch
              table_of Htable rest
              {| writer_schema :=
                   schema (table_of (iloc_slice dataframe 0 batch_size));
                 tables := [table_of (iloc_slice dataframe 0 batch_size)];
                 is_closed := false |} bar1) as [bar' ->]; [done| |].
  { apply Forall_forall. intros i Hi. simpl. apply Hschema.
    apply list_elem_of_fmap. exists i. set_solver. }
  exists bar'. split; [done|]. simpl.
  by rewrite ?fmap_cons, <- list_fmap_compose.
Qed.

Lemma write_batch_bar i st st' :
  (∀ batch bar, (process_batch batch bar).2 = bar) →
  0 < bar_total (st_bar st) →
  write_batch schema dataframe batch_size process_batch i st = (st', None) →
  st_bar st' = progress_update (st_bar st) batch_size.
Proof.
  intros Hbar Htotal. unfold write_batch. cbv zeta. rewrite Hbar.
  assert (progress_bool (st_bar st) = true) as ->
    by (by apply bool_decide_eq_true_2).
  repeat case_match; by intros [= <-].
Qed.

Lemma write_batches_bar indices st st' :
  (∀ batch bar, (process_batch batch bar).2 = bar) →
  (indices ≠ [] → 0 < bar_total (st_bar st)) →
  write_batches schema dataframe batch_size process_batch indices st
    = (st', None) →
  st_bar st'
  = {| bar_total := bar_total (st_bar st);
       bar_n := bar_n (st_bar st)
                + batch_size * Z.of_nat (length indices) |}.
Proof.
  intros Hbar. revert st.
  induction indices as [|i indices IH]; intros st Htotal.
  - simpl. intros [= <-]. destruct (st_bar st). simpl. f_equal. lia.
  - cbn [write_batches].
    destruct (write_batch schema dataframe batch_size process_batch i st)
      as [st1 [e|]] eqn:Hstep; [done|].
    apply write_batch_bar in Hstep; [|done|by apply Htotal].
    intros Hrest. apply IH in Hrest.
    + rewrite Hrest, Hstep. simpl. f_equal. lia.
    + rewrite Hstep. simpl. intros _. by apply Htotal.
Qed.

End writer_run.

(** Extra X20: with a positive batch size, a non-empty data frame and a
    [process_batch] whose tables all have the schema of the first,
    [batched_writer] raises nothing and leaves one closed writer, opened with
    the schema of the first table, that holds the table of every batch, in
    the order of the rows. *)
Theorem batched_writer_writes_every_batch {R T S} `{EqDecision S}
    (schema : T → S) (dataframe : list R) (batch_size : Z)
    (process_batch : list R → progress → T * progress)
    (table_of : list R → T) :
  (0 < batch_size)%Z → dataframe ≠ [] →
  (∀ batch bar, (process_batch batch bar).1 = table_of batch) →
  (∀ batch, batch ∈ batches dataframe batch_size →
     schema (table_of batch)
     = schema (table_of (take (Z.to_nat batch_size) dataframe))) →
  ∃ bar,
    batched_writer schema dataframe batch_size process_batch
    = ({| st_writer :=
            Some {| writer_schema :=
                      schema (table_of
                                (take (Z.to_nat batch_size) dataframe));
                    tables := table_of <$> batches dataframe batch_size;
                    is_closed := true |};
          st_bar := bar |}, None).
Proof.
  intros Hb Hne Htable Hschema.
  destruct (write_batches_uniform schema dataframe batch_size process_batch
              table_of Hb Hne Htable Hschema)
    as (indices & bar & Hrange & Hrun).
  exists bar. unfold batched_writer. by rewrite Hrange, Hrun.
Qed.

Lemma batched_writer_writes_every_batch_witness :
  ∃ bar,
    batched_writer (λ table : list nat, bool_decide (table = []))
      [1; 2; 3; 4; 5; 6; 7] 3 (λ batch bar, (batch, bar))
    = ({| st_writer :=
            Some {| writer_schema := false;
                    tables := [[1; 2; 3]; [4; 5; 6]; [7]];
                    is_closed := true |};
          st_bar := bar |}, None).
Proof.
  refine (batched_writer_writes_every_batch
            (λ table : list nat, bool_decide (table = []))
            [1; 2; 3; 4; 5; 6; 7] 3 (λ batch bar, (batch, bar)) id
            _ _ _ _).
  - reflexivity.
  - discriminate.
  - intros. reflexivity.
  - intros batch Hin.
    change (batches _ _) with [[1; 2; 3]; [4; 5; 6]; [7]] in Hin.
    repeat (apply elem_of_cons in Hin as [->|Hin]; [reflexivity|]).
    by apply elem_of_nil in Hin.
Defined.

(** Extra X21: [batched_writer] writes nothing when there is nothing to
    slice. For a batch size of zero it raises [ValueError]; for a negative
    batch size, or an empty data frame with a batch size other than zero, it
    returns normally. In each case [process_batch] is never called, no writer
    is opened (so no file is created) and the bar stays at zero. *)
Theorem batched_writer_without_batches {R T S} `{EqDecision S}
    (schema : T → S) (dataframe : list R) (batch_size : Z)
    (process_batch : list R → progress → T * progress) :
  (batch_size ≤ 0)%Z ∨ dataframe = [] →
  batched_writer schema dataframe batch_size process_batch
  = ({| st_writer := None;
        st_bar := {| bar_total := length dataframe; bar_n := 0 |} |},
     if decide (batch_size = 0)%Z then Some ValueError else None).
Proof.
  intros Hnone. unfold batched_writer.
  destruct (decide (batch_size = 0)%Z) as [->|Hnz]; [done|].
  destruct (range_from_0 (length dataframe) batch_size) as [e|indices]
    eqn:Hrange.
  { unfold range_from_0 in Hrange. by repeat case_decide. }
  assert (indices = []) as ->; [|done].
  destruct Hnone as [Hneg| ->].
  - unfold range_from_0 in Hrange.
    rewrite decide_False, decide_True in Hrange by lia.
    by injection Hrange as <-.
  - by apply range_from_0_empty in Hrange.
Qed.

Lemma batched_writer_without_batches_witness :
  batched_writer (λ table : list nat, bool_decide (table = []))
    [1; 2; 3] (-2) (λ batch bar, (batch, bar))
  = ({| st_writer := None;
        st_bar := {| bar_total := 3; bar_n := 0 |} |}, None).
Proof.
  refine (batched_writer_without_batches
            (λ table : list nat, bool_decide (table = []))
            [1; 2; 3] (-2) (λ batch bar, (batch, bar)) _).
  left. lia.
Defined.

(** Extra X22: when the table of some batch after the first has another
    schema than the table of the first batch, while those in between have
    the same, [batched_writer] raises [ValueError] at that batch. The writer
    then holds the tables of the batches before it and is left open:
    [close] is not reached. *)
Theorem batched_writer_schema_mismatch {R T S} `{EqDecision S}
    (schema : T → S) (dataframe : list R) (batch_size : Z)
    (process_batch : list R → progress → T * progress)
    (table_of : list R → T) (first : list R) (before : list (list R))
    (bad : list R) (after : list (list R)) :
  (0 < batch_size)%Z →
  (∀ batch bar, (process_batch batch bar).1 = table_of batch) →
  batches dataframe batch_size = first :: before ++ bad :: after →
  Forall (λ batch, schema (table_of batch) = schema (table_of first))
    before →
  schema (table_of bad) ≠ schema (table_of first) →
  ∃ bar,
    batched_writer schema dataframe batch_size process_batch
    = ({| st_writer :=
            Some {| writer_schema := schema (table_of first);
                    tables := table_of <$> first :: before;
                    is_closed := false |};
          st_bar := bar |}, Some ValueError).
Proof.
  intros Hb Htable Hbatches Hbefore Hbad.
  assert (0 < length dataframe) as Hlen.
  { destruct dataframe; simpl; [|lia].
    unfold batches in Hbatches.
    rewrite range_from_0_pos in Hbatches by done.
    simpl length in Hbatches. rewrite Nat.div_small in Hbatches by lia.
    done. }
  destruct (range_from_0_cons (length dataframe) batch_size)
    as (rest & Hrange & Hzero); [done..|].
  unfold batches in Hbatches. rewrite Hrange in Hbatches.
  rewrite fmap_cons in Hbatches. injection Hbatches as Hfirst Hrest.
  apply fmap_app_inv in Hrest as (matching & later & -> & Hlater & ->).
  symmetry in Hlater.
  apply fmap_cons_inv in Hlater as (i & later' & -> & -> & ->).
  subst first.
  unfold batched_writer. rewrite Hrange. cbn [write_batches].
  destruct (write_batch_first schema dataframe batch_size process_batch
              table_of Htable None
              {| bar_total := length dataframe; bar_n := 0 |}) as [bar1 ->].
  destruct (write_batches_mismatch schema dataframe batch_size process_batch
              table_of Htable matching i later'
              {| writer_schema :=
                   schema (table_of (iloc_slice dataframe 0 batch_size));
                 tables := [table_of (iloc_slice dataframe 0 batch_size)];
                 is_closed := false |} bar1) as [bar' ->].
  - set_solver.
  - set_solver.
  - by apply Forall_fmap in Hbefore.
  - done.
  - exists bar'. simpl. by rewrite ?fmap_cons, <- list_fmap_compose.
Qed.

Lemma batched_writer_schema_mismatch_witness :
  ∃ bar,
    batched_writer (λ table : list nat, bool_decide (7 ∈ table))
      [1; 2; 3; 4; 5; 6; 7; 8] 3 (λ batch bar, (batch, bar))
    = ({| st_writer :=
            Some {| writer_schema := false;
                    tables := [[1; 2; 3]; [4; 5; 6]];
                    is_closed := false |};
          st_bar := bar |}, Some ValueError).
Proof.
  refine (batched_writer_schema_mismatch
            (λ table : list nat, bool_decide (7 ∈ table))
            [1; 2; 3; 4; 5; 6; 7; 8] 3 (λ batch bar, (batch, bar)) id
            [1; 2; 3] [[4; 5; 6]] [7; 8] [] _ _ _ _ _).
  - reflexivity.
  - intros. reflexivity.
  - reflexivity.
  - repeat constructor.
  - vm_compute. discriminate.
Defined.

(** Extra X23: with a positive batch size, tables of one schema and a
    [process_batch] that leaves the bar alone, [batched_writer] advances the
    bar by [batch_size] for every batch, also for a shorter last one: the bar
    ends at the number of batches times [batch_size], which is at least the
    number of rows and exceeds it by less than [batch_size]. *)
Theorem batched_writer_progress {R T S} `{EqDecision S}
    (schema : T → S) (dataframe : list R) (batch_size : Z)
    (process_batch : list R → progress → T * progress)
    (table_of : list R → T) :
  (0 < batch_size)%Z →
  (∀ batch bar, process_batch batch bar = (table_of batch, bar)) →
  (∀ batch, batch ∈ batches dataframe batch_size →
     schema (table_of batch)
     = schema (table_of (take (Z.to_nat batch_size) dataframe))) →
  st_bar (batched_writer schema dataframe batch_size process_batch).1
  = {| bar_total := length dataframe;
       bar_n := batch_size
                * Z.of_nat (length (batches dataframe batch_size)) |} ∧
  (Z.of_nat (length dataframe)
   ≤ batch_size * Z.of_nat (length (batches dataframe batch_size))
   < Z.of_nat (length dataframe) + batch_size)%Z.
Proof.
  intros Hb Hprocess Hschema. split.
  - destruct (decide (dataframe = [])) as [->|Hne].
    { unfold batched_writer, batches. simpl length.
      rewrite range_from_0_pos by done. rewrite Nat.div_small by lia.
      simpl. f_equal. lia. }
    destruct (write_batches_uniform schema dataframe batch_size process_batch
                table_of Hb Hne) as (indices & bar & Hrange & Hrun);
      [by intros; rewrite Hprocess|done|].
    unfold batched_writer. rewrite Hrange, Hrun. simpl.
    apply write_batches_bar in Hrun; simpl in Hrun.
    + rewrite Hrun. unfold batches. rewrite Hrange, length_fmap.
      f_equal; lia.
    + by intros; rewrite Hprocess.
    + intros _. destruct dataframe; simpl; [done|lia].
  - rewrite length_batches by done.
    destruct (ceil_div_bounds (length dataframe) (Z.to_nat batch_size))
      as [Hlow Hup]; [lia|].
    apply Nat2Z.inj_le in Hlow. apply Nat2Z.inj_lt in Hup.
    rewrite Nat2Z.inj_mul in Hlow, Hup. rewrite Nat2Z.inj_add in Hup.
    rewrite Z2Nat.id in Hlow, Hup by lia. lia.
Qed.

Lemma batched_writer_progress_witness :
  st_bar (batched_writer (λ table : list nat, bool_decide (table = []))
            [1; 2; 3; 4; 5; 6; 7] 3 (λ batch bar, (batch, bar))).1
  = {| bar_total := 7; bar_n := 9 |}.
Proof.
  refine (proj1 (batched_writer_progress
                   (λ table : list nat, bool_decide (table = []))
                   [1; 2; 3; 4; 5; 6; 7] 3 (λ batch bar, (batch, bar)) id
                   _ _ _)).
  - reflexivity.
  - intros. reflexivity.
  - intros batch Hin.
    change (batches _ _) with [[1; 2; 3]; [4; 5; 6]; [7]] in Hin.
    repeat (apply elem_of_cons in Hin as [->|Hin]; [reflexivity|]).
    by apply elem_of_nil in Hin.
Defined.
